(** * Bounded lock-free ring-buffer queues: SPSC and MPSC

    A shallow embedding of [SpscQueue] (spsc_queue.cc) and [MpscQueue]
    (mpsc_queue_experimental.cpp), and the properties of their cursor
    arithmetic.

    Conventions.
    - [size_t] values are integers in [0, 2^64); every addition the source
      performs on them is wrapped by [size_t].
    - [std::vector<T>] is a list; [buffer_.size()] is its length.  The vector
      built by the constructors is value-initialised: every slot holds [T()],
      here [T0].  Asking for more than [max_size()] elements throws
      [std::length_error]; [max_size()] belongs to the standard library and
      the element type, not to these files, and is a parameter [max_size]
      of the constructors.  Memory exhaustion while allocating the vector is
      outside the model.
    - Integer remainder by zero and [operator[]] outside the vector are
      undefined behaviour in C++: the model returns [Undefined] there.
    - [SpscQueue] is modelled call by call (its two roles never share a
      cursor write).  [MpscQueue] is modelled one atomic access at a time, as
      a step function per thread over the shared object, so that calls of
      different threads can be interleaved; a whole call is a solo run of
      that step function. *)

From Stdlib Require Import ZArith Lia Bool List.
From stdpp Require Import base tactics option list.
Local Open Scope Z_scope.

(** ** Machine integers, undefined behaviour, exceptions *)

Definition SIZE_MAX : Z := 2 ^ 64 - 1.

(** Wrap-around of unsigned 64-bit arithmetic. *)
Definition size_t (z : Z) : Z := z mod 2 ^ 64.

(** What running a piece of code yields: a value, undefined behaviour, or
    (for a bounded run of a loop) no value within the bound. *)
Inductive outcome (A : Type) : Type :=
| Ret (a : A)
| Undefined
| Unfinished.
Arguments Ret {A} a.
Arguments Undefined {A}.
Arguments Unfinished {A}.

#[global] Instance outcome_ret : MRet outcome := @Ret.
#[global] Instance outcome_bind : MBind outcome :=
  fun A B f m =>
    match m with
    | Ret a => f a
    | Undefined => Undefined
    | Unfinished => Unfinished
    end.

Inductive exception : Type := invalid_argument | length_error.

Inductive construction (A : Type) : Type :=
| Constructed (a : A)
| Thrown (e : exception).
Arguments Constructed {A} a.
Arguments Thrown {A} e.

(** [a % b] on [size_t]. *)
Definition rem (a b : Z) : outcome Z :=
  if b =? 0 then Undefined else Ret (a mod b).

Section vector.
Context {T : Type}.

(** [v.size()] *)
Definition size (v : list T) : Z := Z.of_nat (length v).

(** [v[i]] as an rvalue *)
Definition at_ (v : list T) (i : Z) : outcome T :=
  if i <? 0 then Undefined
  else match v !! Z.to_nat i with
       | Some x => Ret x
       | None => Undefined
       end.

(** [v[i] = x] *)
Definition assign (v : list T) (i : Z) (x : T) : outcome (list T) :=
  if (0 <=? i) && (i <? size v) then Ret (<[Z.to_nat i := x]> v)
  else Undefined.

(** [std::vector<T> v(n)], as in the member initialiser
    [buffer_(capacity + 1)]: [n] copies of [T()], or [std::length_error]
    when [n] is more than [max_size()]. *)
Definition vector_ctor (max_size : Z) (T0 : T) (n : Z)
  : construction (list T) :=
  if max_size <? n then Thrown length_error
  else Constructed (replicate (Z.to_nat n) T0).
End vector.

(** ** The ring: what the cursors delimit *)

Section ring_defs.
Context {T : Type}.

(** Number of slots in the circular range [[h, t)] of a ring of [len]
    slots. *)
Definition ring_count (len h t : Z) : Z := (t - h) mod len.

(** Reading [n] slots from index [i] on, wrapping at the end of the
    vector. *)
Fixpoint ring_walk (buf : list T) (n : nat) (i : Z) : list T :=
  match n with
  | O => []
  | S n' =>
      match buf !! Z.to_nat i with
      | Some x => x :: ring_walk buf n' (if i + 1 =? size buf then 0 else i + 1)
      | None => []
      end
  end.

(** The items held by the queue, oldest first: the slots of the circular
    range [[head, tail)]. *)
Definition ring_contents (buf : list T) (h t : Z) : list T :=
  ring_walk buf (Z.to_nat (ring_count (size buf) h t)) h.

(** Well-formed ring: a non-empty vector and both cursors inside it. *)
Definition ring_ok (buf : list T) (h t : Z) : Prop :=
  0 < size buf <= SIZE_MAX /\ 0 <= h < size buf /\ 0 <= t < size buf.
End ring_defs.

(** ** Calls on a queue and what they return

    Both classes have the same three public operations.  [call_dequeue]
    carries the value of the caller's variable passed as out-parameter;
    [dequeue_reply] carries the returned flag and the value of that variable
    after the call. *)

Inductive call (T : Type) : Type :=
| call_enqueue (item : T)
| call_dequeue (item : T)
| call_is_empty.
Arguments call_enqueue {T} item.
Arguments call_dequeue {T} item.
Arguments call_is_empty {T}.

Inductive reply (T : Type) : Type :=
| enqueue_reply (r : bool)
| dequeue_reply (r : bool) (item : T)
| is_empty_reply (r : bool).
Arguments enqueue_reply {T} r.
Arguments dequeue_reply {T} r item.
Arguments is_empty_reply {T} r.

(** A thread issuing calls one after the other on an object of type [Q];
    the first undefined call makes the whole run undefined. *)
Section run_calls.
Context {T Q : Type} (do_call : Q -> call T -> outcome (reply T * Q)).

Fixpoint run_calls (q : Q) (cs : list (call T)) : outcome (list (reply T) * Q) :=
  match cs with
  | [] => mret ([], q)
  | c :: cs' =>
      '(r, q1) ← do_call q c;
      '(rs, q2) ← run_calls q1 cs';
      mret (r :: rs, q2)
  end.
End run_calls.

(** ** SpscQueue (spsc_queue.cc) *)

Module Spsc.
Section spsc.
Context {T : Type} (max_size : Z) (T0 : T).

Record SpscQueue : Type := mkSpscQueue {
  buffer_ : list T;
  head_ : Z;
  tail_ : Z;
  head_cached_ : Z;
  tail_cached_ : Z
}.

(** [SpscQueue(size_t capacity) : buffer_(capacity + 1)], which may throw
    [std::length_error], followed by the guard
    [if (capacity + 1 < 0) throw std::invalid_argument(...)]. *)
Definition SpscQueue_ctor (capacity : Z) : construction SpscQueue :=
  match vector_ctor max_size T0 (size_t (capacity + 1)) with
  | Thrown e => Thrown e
  | Constructed buffer =>
      if size_t (capacity + 1) <? 0 then Thrown invalid_argument
      else Constructed (mkSpscQueue buffer 0 0 0 0)
  end.

(** The tail of [enqueue]: [buffer_[t] = item; tail_.store(next_t)]. *)
Definition enqueue_store (q : SpscQueue) (t next_t : Z) (item : T)
  : outcome (bool * SpscQueue) :=
  buffer ← assign (buffer_ q) t item;
  mret (true, mkSpscQueue buffer (head_ q) next_t
                          (head_cached_ q) (tail_cached_ q)).

Definition enqueue (q : SpscQueue) (item : T) : outcome (bool * SpscQueue) :=
  let t := tail_ q in
  next_t ← rem (size_t (t + 1)) (size (buffer_ q));
  if next_t =? head_cached_ q then
    let q1 := mkSpscQueue (buffer_ q) (head_ q) (tail_ q)
                          (head_ q) (tail_cached_ q) in
    if next_t =? head_cached_ q1 then mret (false, q1)
    else enqueue_store q1 t next_t item
  else enqueue_store q t next_t item.

(** The tail of [dequeue]: [item = buffer_[h]; head_.store((h+1) % size)]. *)
Definition dequeue_load (q : SpscQueue) (h : Z) : outcome (bool * T * SpscQueue) :=
  item ← at_ (buffer_ q) h;
  next_h ← rem (size_t (h + 1)) (size (buffer_ q));
  mret (true, item, mkSpscQueue (buffer_ q) next_h (tail_ q)
                                (head_cached_ q) (tail_cached_ q)).

(** [item] is the out-parameter: its value on entry is returned when the
    call leaves it alone. *)
Definition dequeue (q : SpscQueue) (item : T) : outcome (bool * T * SpscQueue) :=
  let h := head_ q in
  if h =? tail_cached_ q then
    let q1 := mkSpscQueue (buffer_ q) (head_ q) (tail_ q)
                          (head_cached_ q) (tail_ q) in
    if h =? tail_cached_ q1 then mret (false, item, q1)
    else dequeue_load q1 h
  else dequeue_load q h.

Definition is_empty (q : SpscQueue) : bool := head_ q =? tail_ q.

(** *** Sequences of calls by one thread *)
Definition do_call (q : SpscQueue) (c : call T) : outcome (reply T * SpscQueue) :=
  match c with
  | call_enqueue item =>
      '(r, q') ← enqueue q item; mret (enqueue_reply r, q')
  | call_dequeue item =>
      '(r, item', q') ← dequeue q item; mret (dequeue_reply r item', q')
  | call_is_empty => mret (is_empty_reply (is_empty q), q)
  end.

Definition do_calls (q : SpscQueue) (cs : list (call T))
  : outcome (list (reply T) * SpscQueue) :=
  run_calls do_call q cs.

(** *** Abstraction and invariant *)
Definition contents (q : SpscQueue) : list T :=
  ring_contents (buffer_ q) (head_ q) (tail_ q).

(** How many items the queue can hold: one slot stays unused. *)
Definition room (q : SpscQueue) : Z := size (buffer_ q) - 1.

(** The cached mirrors are stale but safe: the free room the producer
    derives from [head_cached_] never exceeds the real free room, and the
    items the consumer derives from [tail_cached_] never exceed the items
    really present. *)
Definition coherent (q : SpscQueue) : Prop :=
  let len := size (buffer_ q) in
  ring_ok (buffer_ q) (head_ q) (tail_ q) /\
  0 <= head_cached_ q < len /\ 0 <= tail_cached_ q < len /\
  ring_count len (tail_ q + 1) (head_cached_ q)
    <= ring_count len (tail_ q + 1) (head_ q) /\
  ring_count len (head_ q) (tail_cached_ q)
    <= ring_count len (head_ q) (tail_ q).

(** The object built from a capacity whose successor wraps to zero: no
    slot at all, every cursor still at its initial value. *)
Definition slotless (q : SpscQueue) : Prop :=
  buffer_ q = [] /\ head_ q = 0 /\ tail_ q = 0 /\
  head_cached_ q = 0 /\ tail_cached_ q = 0.

(** *** Reference versions without the cached mirrors

    Written from the specification's description of the mirrors as a pure
    optimisation: the same two operations, testing the peer's real cursor
    on every call. *)
Definition enqueue_ref (q : SpscQueue) (item : T) : outcome (bool * SpscQueue) :=
  let t := tail_ q in
  next_t ← rem (size_t (t + 1)) (size (buffer_ q));
  if next_t =? head_ q then mret (false, q)
  else enqueue_store q t next_t item.

Definition dequeue_ref (q : SpscQueue) (item : T)
  : outcome (bool * T * SpscQueue) :=
  let h := head_ q in
  if h =? tail_ q then mret (false, item, q)
  else dequeue_load q h.

(** What a caller can tell apart: the flag, the slots and the two
    cursors (and the out-parameter for [dequeue]). *)
Definition enqueue_view (r : outcome (bool * SpscQueue))
  : outcome (bool * (list T * Z * Z)) :=
  '(b, q) ← r; mret (b, (buffer_ q, head_ q, tail_ q)).

Definition dequeue_view (r : outcome (bool * T * SpscQueue))
  : outcome (bool * T * (list T * Z * Z)) :=
  '(b, item, q) ← r; mret (b, item, (buffer_ q, head_ q, tail_ q)).
End spsc.
End Spsc.

(** ** MpscQueue (mpsc_queue_experimental.cpp) *)

Module Mpsc.
Section mpsc.
Context {T : Type} (max_size : Z) (T0 : T).

Record MpscQueue : Type := mkMpscQueue {
  buffer_ : list T;
  head_ : Z;
  tail_ : Z;
  count_ : Z
}.

(** [MpscQueue(size_t capacity) : buffer_(capacity + 1)], which may throw
    [std::length_error], the guard
    [capacity + 1 < 0 && (size & (size - 1)) == 0], then the loop that
    reads every slot into a discarded volatile (no effect on the object). *)
Definition MpscQueue_ctor (capacity : Z) : construction MpscQueue :=
  match vector_ctor max_size T0 (size_t (capacity + 1)) with
  | Thrown e => Thrown e
  | Constructed buffer =>
      if (size_t (capacity + 1) <? 0)
         && (Z.land (size buffer) (size_t (size buffer - 1)) =? 0)
      then Thrown invalid_argument
      else Constructed (mkMpscQueue buffer 0 0 0)
  end.

(** *** enqueue, one shared access per step

    Program points of [enqueue]: the tail load (with the computation of
    [next_t]), the fullness test against the loaded head, the
    compare-exchange on the tail, the slot write, and the return. *)
Inductive enqueue_pc : Type :=
| enq_load_tail
| enq_check_full (t next_t : Z)
| enq_cas (t next_t : Z)
| enq_write (t : Z)
| enq_return (r : bool).

Definition enqueue_step (item : T) (q : MpscQueue) (pc : enqueue_pc)
  : outcome (MpscQueue * enqueue_pc) :=
  match pc with
  | enq_load_tail =>
      let t := tail_ q in
      next_t ← rem (size_t (t + 1)) (size (buffer_ q));
      mret (q, enq_check_full t next_t)
  | enq_check_full t next_t =>
      if next_t =? head_ q then mret (q, enq_return false)
      else mret (q, enq_cas t next_t)
  | enq_cas t next_t =>
      if tail_ q =? t
      then mret (mkMpscQueue (buffer_ q) (head_ q) next_t (count_ q),
                 enq_write t)
      else mret (q, enq_load_tail)
  | enq_write t =>
      buffer ← assign (buffer_ q) t item;
      mret (mkMpscQueue buffer (head_ q) (tail_ q) (count_ q),
            enq_return true)
  | enq_return r => mret (q, enq_return r)
  end.

(** *** dequeue, one shared access per step

    The second component of the thread state is the out-parameter. *)
Inductive dequeue_pc : Type :=
| deq_load_head
| deq_check_empty (h : Z)
| deq_read (h : Z)
| deq_store_head (h : Z)
| deq_return (r : bool).

Definition dequeue_step (q : MpscQueue) (pc : dequeue_pc) (item : T)
  : outcome (MpscQueue * dequeue_pc * T) :=
  match pc with
  | deq_load_head => mret (q, deq_check_empty (head_ q), item)
  | deq_check_empty h =>
      if h =? tail_ q then mret (q, deq_return false, item)
      else mret (q, deq_read h, item)
  | deq_read h =>
      x ← at_ (buffer_ q) h;
      mret (q, deq_store_head h, x)
  | deq_store_head h =>
      next_h ← rem (size_t (h + 1)) (size (buffer_ q));
      mret (mkMpscQueue (buffer_ q) next_h (tail_ q) (count_ q),
            deq_return true, item)
  | deq_return r => mret (q, deq_return r, item)
  end.

(** *** Whole calls: a thread running alone until it returns

    [fuel] bounds the number of shared accesses; a call that has not
    returned within the bound is [Unfinished]. *)
Fixpoint enqueue_run (fuel : nat) (item : T) (q : MpscQueue)
    (pc : enqueue_pc) : outcome (bool * MpscQueue) :=
  match pc with
  | enq_return r => mret (r, q)
  | _ =>
      match fuel with
      | O => Unfinished
      | S fuel' =>
          '(q', pc') ← enqueue_step item q pc;
          enqueue_run fuel' item q' pc'
      end
  end.

Fixpoint dequeue_run (fuel : nat) (q : MpscQueue) (pc : dequeue_pc)
    (item : T) : outcome (bool * T * MpscQueue) :=
  match pc with
  | deq_return r => mret (r, item, q)
  | _ =>
      match fuel with
      | O => Unfinished
      | S fuel' =>
          '(q', pc', item') ← dequeue_step q pc item;
          dequeue_run fuel' q' pc' item'
      end
  end.

(** Alone, the compare-exchange finds the tail it has just loaded, so the
    loop body runs once: four shared accesses at most. *)
Definition enqueue (q : MpscQueue) (item : T) : outcome (bool * MpscQueue) :=
  enqueue_run 4 item q enq_load_tail.

Definition dequeue (q : MpscQueue) (item : T)
  : outcome (bool * T * MpscQueue) :=
  dequeue_run 4 q deq_load_head item.

Definition is_empty (q : MpscQueue) : bool := head_ q =? tail_ q.

(** *** Sequences of calls by one thread *)
Definition do_call (q : MpscQueue) (c : call T) : outcome (reply T * MpscQueue) :=
  match c with
  | call_enqueue item =>
      '(r, q') ← enqueue q item; mret (enqueue_reply r, q')
  | call_dequeue item =>
      '(r, item', q') ← dequeue q item; mret (dequeue_reply r item', q')
  | call_is_empty => mret (is_empty_reply (is_empty q), q)
  end.

Definition do_calls (q : MpscQueue) (cs : list (call T))
  : outcome (list (reply T) * MpscQueue) :=
  run_calls do_call q cs.

Definition contents (q : MpscQueue) : list T :=
  ring_contents (buffer_ q) (head_ q) (tail_ q).

Definition room (q : MpscQueue) : Z := size (buffer_ q) - 1.

Definition well_formed (q : MpscQueue) : Prop :=
  ring_ok (buffer_ q) (head_ q) (tail_ q).

(** *** One call among other threads

    The shared accesses of one [enqueue] call, from a program point to its
    return, each paired with the object as the step found it and as it
    left it.  Between two steps the object may have been changed by other
    threads: consecutive pairs need not match. *)
Inductive enqueue_trace (item : T)
  : enqueue_pc -> list (MpscQueue * MpscQueue) -> bool -> Prop :=
| enqueue_returned r : enqueue_trace item (enq_return r) [] r
| enqueue_stepped pc q q' pc' tr r :
    (forall r0, pc <> enq_return r0) ->
    enqueue_step item q pc = Ret (q', pc') ->
    enqueue_trace item pc' tr r ->
    enqueue_trace item pc ((q, q') :: tr) r.

(** A step that leaves the object as it found it. *)
Definition step_unchanged (p : MpscQueue * MpscQueue) : Prop := p.2 = p.1.

(** The same for one [dequeue] call; the out-parameter is threaded
    through, the last component is its value at the return. *)
Inductive dequeue_trace
  : dequeue_pc -> T -> list (MpscQueue * MpscQueue) -> bool -> T -> Prop :=
| dequeue_returned r item : dequeue_trace (deq_return r) item [] r item
| dequeue_stepped pc item q q' pc' item' tr r item'' :
    (forall r0, pc <> deq_return r0) ->
    dequeue_step q pc item = Ret (q', pc', item') ->
    dequeue_trace pc' item' tr r item'' ->
    dequeue_trace pc item ((q, q') :: tr) r item''.

(** *** Threads sharing one queue

    Any number of producers, each inside one [enqueue] call, and the single
    consumer inside one [dequeue] call.  A schedule lists which thread
    performs its next shared access. *)
Record system : Type := mkSystem {
  shared : MpscQueue;
  producers : list (T * enqueue_pc);
  consumer : dequeue_pc * T
}.

Inductive thread : Type :=
| producer (i : nat)
| the_consumer.

Definition system_step (s : system) (th : thread) : outcome system :=
  match th with
  | producer i =>
      match producers s !! i with
      | Some (item, pc) =>
          '(q', pc') ← enqueue_step item (shared s) pc;
          mret (mkSystem q' (<[i := (item, pc')]> (producers s)) (consumer s))
      | None => mret s
      end
  | the_consumer =>
      '(q', pc', item') ← dequeue_step (shared s) (consumer s).1 (consumer s).2;
      mret (mkSystem q' (producers s) (pc', item'))
  end.

Fixpoint schedule_run (sched : list thread) (s : system) : outcome system :=
  match sched with
  | [] => mret s
  | th :: sched' => s' ← system_step s th; schedule_run sched' s'
  end.
End mpsc.
End Mpsc.


(** ** SpscQueue, one memory access per step

    The same two member functions as in [Spsc], cut at every access to the
    object: the loads and stores of the two atomic cursors, the read or
    write of the slot, and the test of the cached mirror (a plain member
    that only one of the two threads ever touches).  This is what lets the
    calls of the producer and of the consumer be interleaved. *)

Module SpscThreads.
Section steps.
Context {T : Type}.

Inductive enqueue_pc : Type :=
| enq_load_tail
| enq_check_cached (t next_t : Z)
| enq_load_head (t next_t : Z)
| enq_store_slot (t next_t : Z)
| enq_store_tail (next_t : Z)
| enq_return (r : bool).

Definition enqueue_step (item : T) (q : @Spsc.SpscQueue T) (pc : enqueue_pc)
  : outcome (@Spsc.SpscQueue T * enqueue_pc) :=
  match pc with
  | enq_load_tail =>
      let t := Spsc.tail_ q in
      next_t ← rem (size_t (t + 1)) (size (Spsc.buffer_ q));
      mret (q, enq_check_cached t next_t)
  | enq_check_cached t next_t =>
      if next_t =? Spsc.head_cached_ q then mret (q, enq_load_head t next_t)
      else mret (q, enq_store_slot t next_t)
  | enq_load_head t next_t =>
      let q1 := Spsc.mkSpscQueue (Spsc.buffer_ q) (Spsc.head_ q) (Spsc.tail_ q)
                                 (Spsc.head_ q) (Spsc.tail_cached_ q) in
      if next_t =? Spsc.head_cached_ q1 then mret (q1, enq_return false)
      else mret (q1, enq_store_slot t next_t)
  | enq_store_slot t next_t =>
      buffer ← assign (Spsc.buffer_ q) t item;
      mret (Spsc.mkSpscQueue buffer (Spsc.head_ q) (Spsc.tail_ q)
                             (Spsc.head_cached_ q) (Spsc.tail_cached_ q),
            enq_store_tail next_t)
  | enq_store_tail next_t =>
      mret (Spsc.mkSpscQueue (Spsc.buffer_ q) (Spsc.head_ q) next_t
                             (Spsc.head_cached_ q) (Spsc.tail_cached_ q),
            enq_return true)
  | enq_return r => mret (q, enq_return r)
  end.

Inductive dequeue_pc : Type :=
| deq_load_head
| deq_check_cached (h : Z)
| deq_load_tail (h : Z)
| deq_read_slot (h : Z)
| deq_store_head (h : Z)
| deq_return (r : bool).

(** [item] is the out-parameter. *)
Definition dequeue_step (q : @Spsc.SpscQueue T) (pc : dequeue_pc) (item : T)
  : outcome (@Spsc.SpscQueue T * dequeue_pc * T) :=
  match pc with
  | deq_load_head => mret (q, deq_check_cached (Spsc.head_ q), item)
  | deq_check_cached h =>
      if h =? Spsc.tail_cached_ q then mret (q, deq_load_tail h, item)
      else mret (q, deq_read_slot h, item)
  | deq_load_tail h =>
      let q1 := Spsc.mkSpscQueue (Spsc.buffer_ q) (Spsc.head_ q) (Spsc.tail_ q)
                                 (Spsc.head_cached_ q) (Spsc.tail_ q) in
      if h =? Spsc.tail_cached_ q1 then mret (q1, deq_return false, item)
      else mret (q1, deq_read_slot h, item)
  | deq_read_slot h =>
      x ← at_ (Spsc.buffer_ q) h;
      mret (q, deq_store_head h, x)
  | deq_store_head h =>
      next_h ← rem (size_t (h + 1)) (size (Spsc.buffer_ q));
      mret (Spsc.mkSpscQueue (Spsc.buffer_ q) next_h (Spsc.tail_ q)
                             (Spsc.head_cached_ q) (Spsc.tail_cached_ q),
            deq_return true, item)
  | deq_return r => mret (q, deq_return r, item)
  end.

(** A call run alone until it returns, within [fuel] accesses. *)
Fixpoint enqueue_run (fuel : nat) (item : T) (q : @Spsc.SpscQueue T)
    (pc : enqueue_pc) : outcome (bool * @Spsc.SpscQueue T) :=
  match pc with
  | enq_return r => mret (r, q)
  | _ =>
      match fuel with
      | O => Unfinished
      | S fuel' =>
          '(q', pc') ← enqueue_step item q pc;
          enqueue_run fuel' item q' pc'
      end
  end.

Fixpoint dequeue_run (fuel : nat) (q : @Spsc.SpscQueue T) (pc : dequeue_pc)
    (item : T) : outcome (bool * T * @Spsc.SpscQueue T) :=
  match pc with
  | deq_return r => mret (r, item, q)
  | _ =>
      match fuel with
      | O => Unfinished
      | S fuel' =>
          '(q', pc', item') ← dequeue_step q pc item;
          dequeue_run fuel' q' pc' item'
      end
  end.
End steps.

(** *** The two threads of [run_benchmark] (spsc_queue.cc)

    One trial: the main thread enqueues [0 .. elems-1], retrying each
    refused call, then spins until [is_empty()]; the consumer thread dequeues
    [elems] times, retrying each refused call, and leaves through
    [exit(EXIT_FAILURE)] as soon as the value received is not the expected
    one.  Thread pinning, the clock and the output are left out.  The
    counters are C [int]s: incrementing one past [INT_MAX] is undefined. *)

Definition INT_MAX : Z := 2 ^ 31 - 1.

Definition int_incr (i : Z) : outcome Z :=
  if i <? INT_MAX then Ret (i + 1) else Undefined.

Inductive producer_state : Type :=
| producing (i : Z) (pc : enqueue_pc)
| waiting_empty
| producer_done.

Inductive consumer_state : Type :=
| consuming (i : Z) (data : Z) (pc : dequeue_pc)
| consumer_failed (i : Z) (data : Z)
| consumer_done.

(** The test [i < elems] at the head of each [for] loop. *)
Definition producer_loop (elems i : Z) : producer_state :=
  if i <? elems then producing i enq_load_tail else waiting_empty.

Definition consumer_loop (elems i : Z) : consumer_state :=
  if i <? elems then consuming i 0 deq_load_head else consumer_done.

Definition producer_step (elems : Z) (q : @Spsc.SpscQueue Z)
    (st : producer_state) : outcome (@Spsc.SpscQueue Z * producer_state) :=
  match st with
  | producing i (enq_return true) =>
      i' ← int_incr i; mret (q, producer_loop elems i')
  | producing i (enq_return false) => mret (q, producing i enq_load_tail)
  | producing i pc =>
      '(q', pc') ← enqueue_step i q pc; mret (q', producing i pc')
  | waiting_empty =>
      if Spsc.is_empty q then mret (q, producer_done)
      else mret (q, waiting_empty)
  | producer_done => mret (q, producer_done)
  end.

Definition consumer_step (elems : Z) (q : @Spsc.SpscQueue Z)
    (st : consumer_state) : outcome (@Spsc.SpscQueue Z * consumer_state) :=
  match st with
  | consuming i data (deq_return true) =>
      if data =? i then i' ← int_incr i; mret (q, consumer_loop elems i')
      else mret (q, consumer_failed i data)
  | consuming i data (deq_return false) =>
      mret (q, consuming i data deq_load_head)
  | consuming i data pc =>
      '(q', pc', data') ← dequeue_step q pc data;
      mret (q', consuming i data' pc')
  | consumer_failed i data => mret (q, consumer_failed i data)
  | consumer_done => mret (q, consumer_done)
  end.

Record trial : Type := mkTrial {
  queue : @Spsc.SpscQueue Z;
  main_thread : producer_state;
  consumer_thread : consumer_state
}.

Inductive thread : Type := run_main | run_consumer.

Definition trial_step (elems : Z) (b : trial) (th : thread) : outcome trial :=
  match th with
  | run_main =>
      '(q', st') ← producer_step elems (queue b) (main_thread b);
      mret (mkTrial q' st' (consumer_thread b))
  | run_consumer =>
      '(q', st') ← consumer_step elems (queue b) (consumer_thread b);
      mret (mkTrial q' (main_thread b) st')
  end.

Fixpoint trial_run (elems : Z) (sched : list thread) (b : trial)
  : outcome trial :=
  match sched with
  | [] => mret b
  | th :: sched' => b' ← trial_step elems b th; trial_run elems sched' b'
  end.

(** [SpscQueue<int> q(kQueueSize)] and the two loops at their first test;
    [max_size] is that of [std::vector<int>]. *)
Definition trial_start (max_size kQueueSize elems : Z) : construction trial :=
  match Spsc.SpscQueue_ctor max_size 0 kQueueSize with
  | Constructed q =>
      Constructed (mkTrial q (producer_loop elems 0) (consumer_loop elems 0))
  | Thrown e => Thrown e
  end.

(** The constants of the source. *)
Definition kQueueSize : Z := 100000.
Definition elems : Z := 100000000.
End SpscThreads.

(** *** What holds of a trial at every moment

    [produced] and [consumed] count the items whose tail, respectively head,
    store has been done.  The cached mirrors are past values of the peer's
    count: [hc] and [tc] below are those counts, of which the object only
    keeps the remainders. *)

Section trial_invariant.
Import SpscThreads.

Definition produced (elems : Z) (st : producer_state) : Z :=
  match st with
  | producing i (enq_return true) => i + 1
  | producing i _ => i
  | waiting_empty | producer_done => elems
  end.

Definition consumed (elems : Z) (st : consumer_state) : Z :=
  match st with
  | consuming i _ (deq_return true) => i + 1
  | consuming i _ _ => i
  | consumer_failed i _ => i
  | consumer_done => elems
  end.

Definition producer_ok (capacity elems hc : Z) (buf : list Z)
    (st : producer_state) : Prop :=
  let len := capacity + 1 in
  match st with
  | producing i pc =>
      0 <= i < elems /\
      match pc with
      | enq_load_tail | enq_return _ => True
      | enq_check_cached t next_t | enq_load_head t next_t =>
          t = i mod len /\ next_t = (i + 1) mod len
      | enq_store_slot t next_t =>
          t = i mod len /\ next_t = (i + 1) mod len /\ i + 1 - hc <= capacity
      | enq_store_tail next_t =>
          next_t = (i + 1) mod len /\ i + 1 - hc <= capacity /\
          buf !! Z.to_nat (i mod len) = Some i
      end
  | waiting_empty | producer_done => True
  end.

Definition consumer_ok (capacity elems tc : Z) (st : consumer_state) : Prop :=
  let len := capacity + 1 in
  match st with
  | consuming i data pc =>
      0 <= i < elems /\
      match pc with
      | deq_load_head | deq_return false => True
      | deq_check_cached h | deq_load_tail h => h = i mod len
      | deq_read_slot h => h = i mod len /\ i < tc
      | deq_store_head h => h = i mod len /\ i < tc /\ data = i
      | deq_return true => data = i
      end
  | consumer_failed _ _ => False
  | consumer_done => True
  end.

Definition trial_inv (capacity elems : Z) (b : trial) : Prop :=
  exists hc tc : Z,
    let q := queue b in
    let len := capacity + 1 in
    let p := produced elems (main_thread b) in
    let c := consumed elems (consumer_thread b) in
    size (Spsc.buffer_ q) = len /\
    Spsc.tail_ q = p mod len /\ Spsc.head_ q = c mod len /\
    Spsc.head_cached_ q = hc mod len /\ Spsc.tail_cached_ q = tc mod len /\
    0 <= hc <= c /\ c <= tc <= p /\ p <= elems /\ p - hc <= capacity /\
    (forall j, c <= j < p ->
               Spsc.buffer_ q !! Z.to_nat (j mod len) = Some j) /\
    producer_ok capacity elems hc (Spsc.buffer_ q) (main_thread b) /\
    consumer_ok capacity elems tc (consumer_thread b) /\
    (main_thread b = producer_done -> c = elems).
(** Where one step takes a thread: which program point follows which, and
    what a refusal or the end of the spin loop tells about the two counts. *)
Definition main_next (capacity elems c : Z) (st st' : producer_state) : Prop :=
  match st with
  | producing i enq_load_tail =>
      exists t next_t, st' = producing i (enq_check_cached t next_t)
  | producing i (enq_check_cached t next_t) =>
      st' = producing i (enq_load_head t next_t) \/
      st' = producing i (enq_store_slot t next_t)
  | producing i (enq_load_head t next_t) =>
      (st' = producing i (enq_return false) /\ i - c = capacity) \/
      st' = producing i (enq_store_slot t next_t)
  | producing i (enq_store_slot t next_t) =>
      st' = producing i (enq_store_tail next_t)
  | producing i (enq_store_tail next_t) => st' = producing i (enq_return true)
  | producing i (enq_return true) => st' = producer_loop elems (i + 1)
  | producing i (enq_return false) => st' = producing i enq_load_tail
  | waiting_empty =>
      (st' = producer_done /\ c = elems) \/ (st' = waiting_empty /\ c < elems)
  | producer_done => st' = producer_done
  end.

Definition consumer_next (elems p : Z) (st st' : consumer_state) : Prop :=
  match st with
  | consuming i data deq_load_head =>
      exists h, st' = consuming i data (deq_check_cached h)
  | consuming i data (deq_check_cached h) =>
      st' = consuming i data (deq_load_tail h) \/
      st' = consuming i data (deq_read_slot h)
  | consuming i data (deq_load_tail h) =>
      (st' = consuming i data (deq_return false) /\ p = i) \/
      st' = consuming i data (deq_read_slot h)
  | consuming i data (deq_read_slot h) =>
      st' = consuming i i (deq_store_head h)
  | consuming i data (deq_store_head h) =>
      st' = consuming i data (deq_return true)
  | consuming i data (deq_return true) => st' = consumer_loop elems (i + 1)
  | consuming i data (deq_return false) => st' = consuming i data deq_load_head
  | consumer_failed i data => st' = consumer_failed i data
  | consumer_done => st' = consumer_done
  end.

(** The iteration a thread is in, and a bound on the steps left in it. *)
Definition main_index (elems : Z) (st : producer_state) : Z :=
  match st with
  | producing i _ => i
  | waiting_empty | producer_done => elems
  end.

Definition consumer_index (elems : Z) (st : consumer_state) : Z :=
  match st with
  | consuming i _ _ | consumer_failed i _ => i
  | consumer_done => elems
  end.

Definition enqueue_steps_left (pc : enqueue_pc) : nat :=
  match pc with
  | enq_return false => 7
  | enq_load_tail => 6
  | enq_check_cached _ _ => 5
  | enq_load_head _ _ => 4
  | enq_store_slot _ _ => 3
  | enq_store_tail _ => 2
  | enq_return true => 1
  end.

Definition dequeue_steps_left (pc : dequeue_pc) : nat :=
  match pc with
  | deq_return false => 7
  | deq_load_head => 6
  | deq_check_cached _ => 5
  | deq_load_tail _ => 4
  | deq_read_slot _ => 3
  | deq_store_head _ => 2
  | deq_return true => 1
  end.
End trial_invariant.

(** ** MpscQueue threads: what holds at every moment

    [system_ok]: the vector keeps its length and every index a thread holds
    (the cursors, and the values loaded from them into locals) lies inside
    it. *)

Section mpsc_invariants.
Context {T : Type}.

Definition enqueue_pc_ok (len : Z) (pc : Mpsc.enqueue_pc) : Prop :=
  match pc with
  | Mpsc.enq_load_tail | Mpsc.enq_return _ => True
  | Mpsc.enq_check_full t next_t | Mpsc.enq_cas t next_t =>
      0 <= t < len /\ 0 <= next_t < len
  | Mpsc.enq_write t => 0 <= t < len
  end.

Definition dequeue_pc_ok (len : Z) (pc : Mpsc.dequeue_pc) : Prop :=
  match pc with
  | Mpsc.deq_load_head | Mpsc.deq_return _ => True
  | Mpsc.deq_check_empty h | Mpsc.deq_read h | Mpsc.deq_store_head h =>
      0 <= h < len
  end.

Definition system_ok (len : Z) (s : @Mpsc.system T) : Prop :=
  0 < len <= SIZE_MAX /\
  size (Mpsc.buffer_ (Mpsc.shared s)) = len /\
  0 <= Mpsc.head_ (Mpsc.shared s) < len /\
  0 <= Mpsc.tail_ (Mpsc.shared s) < len /\
  Forall (fun p => enqueue_pc_ok len p.2) (Mpsc.producers s) /\
  dequeue_pc_ok len (Mpsc.consumer s).1.

(** Producers racing on a queue that no consumer touches.  [claims] lists,
    in the order the compare-exchanges were won, which producer owns which
    slot: slot [k] belongs to producer [claims !! k].  [racing_ok] says that
    the tail counts the claims, that a producer which has claimed is either
    in front of its write or has written its own item into its own slot,
    and that every other producer is still before its compare-exchange,
    holding a past value of the tail. *)
Definition racing_ok (capacity : Z) (items : list T) (claims : list nat)
    (s : @Mpsc.system T) : Prop :=
  let q := Mpsc.shared s in
  size (Mpsc.buffer_ q) = capacity + 1 /\
  Mpsc.head_ q = 0 /\
  Mpsc.tail_ q = Z.of_nat (length claims) /\
  Z.of_nat (length items) <= capacity < SIZE_MAX /\
  (Mpsc.producers s).*1 = items /\
  NoDup claims /\
  (forall k i, claims !! k = Some i ->
     exists x, items !! i = Some x /\
       (Mpsc.producers s !! i = Some (x, Mpsc.enq_write (Z.of_nat k)) \/
        (Mpsc.producers s !! i = Some (x, Mpsc.enq_return true) /\
         Mpsc.buffer_ q !! k = Some x))) /\
  (forall i x pc, Mpsc.producers s !! i = Some (x, pc) -> i ∉ claims ->
     match pc with
     | Mpsc.enq_load_tail => True
     | Mpsc.enq_check_full t next_t | Mpsc.enq_cas t next_t =>
         0 <= t <= Z.of_nat (length claims) /\ next_t = t + 1
     | Mpsc.enq_write _ | Mpsc.enq_return _ => False
     end).
End mpsc_invariants.

(** ** A bounded first-in first-out list

    The behaviour a user of either class expects from calls made one after
    the other: a list of at most [capacity] items, appended to at the back
    and taken from the front. *)

Section fifo_model.
Context {T : Type}.

Definition fifo_call (capacity : Z) (l : list T) (c : call T)
  : reply T * list T :=
  match c with
  | call_enqueue x =>
      if Z.of_nat (length l) <? capacity then (enqueue_reply true, l ++ [x])
      else (enqueue_reply false, l)
  | call_dequeue item =>
      match l with
      | [] => (dequeue_reply false item, [])
      | x :: l' => (dequeue_reply true x, l')
      end
  | call_is_empty =>
      (is_empty_reply (match l with [] => true | _ => false end), l)
  end.

Fixpoint fifo_calls (capacity : Z) (l : list T) (cs : list (call T))
  : list (reply T) * list T :=
  match cs with
  | [] => ([], l)
  | c :: cs' =>
      let '(r, l1) := fifo_call capacity l c in
      let '(rs, l2) := fifo_calls capacity l1 cs' in
      (r :: rs, l2)
  end.
End fifo_model.

(** ** What the properties below say about a run

    Named here so that a property and the input at which it fails are stated
    with the same words. *)

Section statements.
Context {T : Type} (max_size : Z) (T0 : T).

(** Enqueue [items] on a fresh [SpscQueue] of the given capacity, then
    dequeue as many times: every call returns true and the items come out
    in enqueue order.  [d] is what the consumer's variable holds before
    each [dequeue]. *)
Definition spsc_fifo (capacity : Z) (items : list T) (d : T) : Prop :=
  exists q0 q1,
    Spsc.SpscQueue_ctor max_size T0 capacity = Constructed q0 /\
    Spsc.do_calls q0 (map call_enqueue items
                      ++ replicate (length items) (call_dequeue d))
    = Ret (replicate (length items) (enqueue_reply true)
           ++ map (dequeue_reply true) items, q1).

(** Fill a fresh queue with [items], try one more [enqueue] of [x], then
    drain: the fill is accepted, the extra call is refused and changes
    nothing, the drain returns [items] in order. *)
Definition spsc_full_rejection (capacity : Z) (items : list T) (x d : T)
  : Prop :=
  exists q0 q1 q2,
    Spsc.SpscQueue_ctor max_size T0 capacity = Constructed q0 /\
    Spsc.do_calls q0 (map call_enqueue items)
    = Ret (replicate (length items) (enqueue_reply true), q1) /\
    Spsc.enqueue q1 x = Ret (false, q1) /\
    Spsc.do_calls q1 (replicate (length items) (call_dequeue d))
    = Ret (map (dequeue_reply true) items, q2).

Definition mpsc_full_rejection (capacity : Z) (items : list T) (x d : T)
  : Prop :=
  exists q0 q1 q2,
    Mpsc.MpscQueue_ctor max_size T0 capacity = Constructed q0 /\
    Mpsc.do_calls q0 (map call_enqueue items)
    = Ret (replicate (length items) (enqueue_reply true), q1) /\
    Mpsc.enqueue q1 x = Ret (false, q1) /\
    Mpsc.do_calls q1 (replicate (length items) (call_dequeue d))
    = Ret (map (dequeue_reply true) items, q2).

(** The state invariants of a ring of the given capacity: the length of
    the vector, the range of both cursors, and what empty and full mean in
    terms of the cursors. *)
Definition ring_invariants (capacity : Z) (buf : list T) (h t : Z) : Prop :=
  size buf = capacity + 1 /\
  0 <= h < size buf /\
  0 <= t < size buf /\
  (ring_contents buf h t = [] <-> h = t) /\
  (Z.of_nat (length (ring_contents buf h t)) = capacity
   <-> (t + 1) mod size buf = h).

(** The invariants hold after the given calls on a fresh queue, and the
    operations agree with them: [is_empty] and a refused [dequeue] mean
    empty, a refused [enqueue] means full. *)
Definition spsc_invariants_after (capacity : Z) (cs : list (call T)) : Prop :=
  exists q0 rs q,
    Spsc.SpscQueue_ctor max_size T0 capacity = Constructed q0 /\
    Spsc.do_calls q0 cs = Ret (rs, q) /\
    ring_invariants capacity (Spsc.buffer_ q) (Spsc.head_ q) (Spsc.tail_ q) /\
    (Spsc.is_empty q = true <-> Spsc.contents q = []) /\
    (forall item, Spsc.dequeue q item = Ret (false, item, q)
                  <-> Spsc.contents q = []) /\
    (forall item, Spsc.enqueue q item = Ret (false, q)
                  <-> Z.of_nat (length (Spsc.contents q)) = capacity).

Definition mpsc_invariants_after (capacity : Z) (cs : list (call T)) : Prop :=
  exists q0 rs q,
    Mpsc.MpscQueue_ctor max_size T0 capacity = Constructed q0 /\
    Mpsc.do_calls q0 cs = Ret (rs, q) /\
    ring_invariants capacity (Mpsc.buffer_ q) (Mpsc.head_ q) (Mpsc.tail_ q) /\
    (Mpsc.is_empty q = true <-> Mpsc.contents q = []) /\
    (forall item, Mpsc.dequeue q item = Ret (false, item, q)
                  <-> Mpsc.contents q = []) /\
    (forall item, Mpsc.enqueue q item = Ret (false, q)
                  <-> Z.of_nat (length (Mpsc.contents q)) = capacity).

(** A call of the cached code and of the reference code cannot be told
    apart. *)
Definition spsc_cache_transparent (q : @Spsc.SpscQueue T) (item : T) : Prop :=
  Spsc.enqueue_view (Spsc.enqueue q item)
  = Spsc.enqueue_view (Spsc.enqueue_ref q item) /\
  Spsc.dequeue_view (Spsc.dequeue q item)
  = Spsc.dequeue_view (Spsc.dequeue_ref q item).

(** The reply to a call that finds the queue both empty and full. *)
Definition refusal (c : call T) : reply T :=
  match c with
  | call_enqueue _ => enqueue_reply false
  | call_dequeue item => dequeue_reply false item
  | call_is_empty => is_empty_reply true
  end.
End statements.

(** * Properties *)

(** ** Arithmetic of the ring *)

Lemma size_t_small z : 0 <= z <= SIZE_MAX -> size_t z = z.
Proof. unfold size_t, SIZE_MAX. intros ?. apply Z.mod_small. lia. Qed.

Lemma size_t_nonneg z : 0 <= size_t z.
Proof. unfold size_t. apply Z.mod_pos_bound. lia. Qed.

Lemma size_t_succ_max : size_t (SIZE_MAX + 1) = 0.
Proof. reflexivity. Qed.

Lemma rem_next len i :
0 < len <= SIZE_MAX -> 0 <= i < len ->
rem (size_t (i + 1)) len = Ret (if i + 1 =? len then 0 else i + 1).
Proof.
intros Hlen Hi. unfold rem.
destruct (Z.eqb_spec len 0); [lia|].
rewrite size_t_small by lia. f_equal.
destruct (Z.eqb_spec (i + 1) len) as [->|].
- apply Z.mod_same; lia.
- apply Z.mod_small; lia.
Qed.

Lemma rem_zero a : rem a 0 = Undefined.
Proof. reflexivity. Qed.

Lemma ring_count_cases len h t :
- len <= t - h < len ->
ring_count len h t = if t - h <? 0 then t - h + len else t - h.
Proof.
intros Hr. unfold ring_count.
destruct (Z.ltb_spec (t - h) 0).
- symmetry. apply (Z.mod_unique _ _ (-1)); lia.
- apply Z.mod_small; lia.
Qed.

(** Case analysis on every cursor comparison in sight, then linear
    arithmetic. *)
Ltac ring_arith :=
repeat match goal with
  | H : context [?a =? ?b] |- _ => destruct (Z.eqb_spec a b)
  | |- context [?a =? ?b] => destruct (Z.eqb_spec a b)
  | H : context [ring_count ?l ?a ?b] |- _ =>
      rewrite (ring_count_cases l a b) in H by lia
  | |- context [ring_count ?l ?a ?b] =>
      rewrite (ring_count_cases l a b) by lia
  | H : context [?a <? ?b] |- _ => destruct (Z.ltb_spec a b)
  | |- context [?a <? ?b] => destruct (Z.ltb_spec a b)
  end;
try lia.

Section ring_lemmas.
Context {T : Type}.
Implicit Types (buf : list T) (h t i len : Z) (x : T).

Lemma size_insert buf (n : nat) x : size (<[n := x]> buf) = size buf.
Proof. unfold size. by rewrite length_insert. Qed.

Lemma size_replicate (n : nat) x : size (replicate n x) = Z.of_nat n.
Proof. unfold size. by rewrite length_replicate. Qed.

Lemma at_Ret buf i :
  0 <= i < size buf ->
  exists x, buf !! Z.to_nat i = Some x /\ at_ buf i = Ret x.
Proof.
  intros Hi. unfold at_, size in *.
  destruct (Z.ltb_spec i 0); [lia|].
  destruct (lookup_lt_is_Some_2 buf (Z.to_nat i)) as [x Hx]; [lia|].
  exists x. by rewrite Hx.
Qed.

Lemma assign_Ret buf i x :
  0 <= i < size buf -> assign buf i x = Ret (<[Z.to_nat i := x]> buf).
Proof.
  intros Hi. unfold assign.
  destruct (Z.leb_spec 0 i); [|lia].
  destruct (Z.ltb_spec i (size buf)); [|lia]. done.
Qed.

(** A write outside the slots a walk visits does not change the walk. *)
Lemma ring_walk_insert_outside buf t x (n : nat) i :
  0 <= i < size buf -> 0 <= t < size buf ->
  Z.of_nat n <= ring_count (size buf) i t ->
  ring_walk (<[Z.to_nat t := x]> buf) n i = ring_walk buf n i.
Proof.
  revert i. induction n as [|n IH]; intros i Hi Ht Hn; [done|].
  cbn [ring_walk]. rewrite size_insert.
  assert (i <> t) by ring_arith.
  rewrite list_lookup_insert_ne by lia.
  destruct (buf !! Z.to_nat i); [|done]. f_equal.
  apply IH; [ring_arith|done|]. ring_arith.
Qed.

(** Writing the slot just past a walk extends the walk by that item. *)
Lemma ring_walk_insert_end buf t x (n : nat) i :
  0 <= i < size buf -> 0 <= t < size buf ->
  Z.of_nat n = ring_count (size buf) i t ->
  ring_walk (<[Z.to_nat t := x]> buf) (S n) i = ring_walk buf n i ++ [x].
Proof.
  revert i. induction n as [|n IH]; intros i Hi Ht Hn.
  - assert (i = t) as -> by ring_arith.
    cbn [ring_walk]. unfold size in *.
    rewrite list_lookup_insert_eq by lia. done.
  - assert (i <> t) by ring_arith.
    destruct (at_Ret buf i Hi) as (y & Hy & _).
    cbn [ring_walk] in IH |- *. rewrite size_insert in IH |- *.
    rewrite Hy. rewrite list_lookup_insert_ne, Hy by lia.
    cbn [app]. f_equal.
    apply IH; [ring_arith|done|]. ring_arith.
Qed.

Lemma ring_walk_length buf (n : nat) i :
  0 <= i < size buf -> length (ring_walk buf n i) = n.
Proof.
  revert i. induction n as [|n IH]; intros i Hi; [done|].
  cbn [ring_walk]. destruct (at_Ret buf i Hi) as (y & -> & _).
  cbn [length]. f_equal. apply IH. ring_arith.
Qed.

Lemma ring_contents_length buf h t :
  ring_ok buf h t ->
  Z.of_nat (length (ring_contents buf h t)) = ring_count (size buf) h t.
Proof.
  intros (Hlen & Hh & Ht). unfold ring_contents.
  rewrite ring_walk_length by done.
  assert (0 <= ring_count (size buf) h t) by ring_arith. lia.
Qed.

(** Storing at the tail and advancing it appends the item. *)
Lemma ring_contents_push buf h t x :
  ring_ok buf h t ->
  (if t + 1 =? size buf then 0 else t + 1) <> h ->
  ring_contents (<[Z.to_nat t := x]> buf) h
                (if t + 1 =? size buf then 0 else t + 1)
  = ring_contents buf h t ++ [x].
Proof.
  intros (Hlen & Hh & Ht) Hfull. unfold ring_contents.
  rewrite size_insert.
  replace (Z.to_nat (ring_count (size buf) h
             (if t + 1 =? size buf then 0 else t + 1)))
    with (S (Z.to_nat (ring_count (size buf) h t))) by ring_arith.
  apply ring_walk_insert_end; [done..|].
  assert (0 <= ring_count (size buf) h t) by ring_arith. lia.
Qed.

(** The head slot is the oldest item; advancing the head drops it. *)
Lemma ring_contents_pop buf h t :
  ring_ok buf h t -> h <> t ->
  exists x, buf !! Z.to_nat h = Some x /\
    ring_contents buf h t
    = x :: ring_contents buf (if h + 1 =? size buf then 0 else h + 1) t.
Proof.
  intros (Hlen & Hh & Ht) Hne. unfold ring_contents.
  destruct (at_Ret buf h Hh) as (x & Hx & _). exists x. split; [done|].
  replace (Z.to_nat (ring_count (size buf) h t))
    with (S (Z.to_nat (ring_count (size buf)
               (if h + 1 =? size buf then 0 else h + 1) t))) by ring_arith.
  cbn [ring_walk]. by rewrite Hx.
Qed.

Lemma ring_contents_nil buf h : ring_contents buf h h = [].
Proof. unfold ring_contents, ring_count. by rewrite Z.sub_diag, Zmod_0_l. Qed.
End ring_lemmas.

(** ** SpscQueue: one call at a time *)

Section spsc_lemmas.
Context {T : Type}.
Implicit Types (q : @Spsc.SpscQueue T) (x item : T).

Lemma spsc_contents_length q :
  Spsc.coherent q ->
  Z.of_nat (length (Spsc.contents q))
  = ring_count (size (Spsc.buffer_ q)) (Spsc.head_ q) (Spsc.tail_ q).
Proof. intros (Hok & _). by apply ring_contents_length. Qed.

(** [enqueue] on a queue with room stores the item behind the others. *)
Lemma spsc_enqueue_accept q x :
  Spsc.coherent q ->
  Z.of_nat (length (Spsc.contents q)) < size (Spsc.buffer_ q) - 1 ->
  exists q',
    Spsc.enqueue q x = Ret (true, q') /\
    Spsc.coherent q' /\
    Spsc.contents q' = Spsc.contents q ++ [x] /\
    size (Spsc.buffer_ q') = size (Spsc.buffer_ q).
Proof.
  intros Hco Hroom. rewrite spsc_contents_length in Hroom by done.
  destruct q as [buf h t hc tc].
  destruct Hco as ((Hlen & Hh & Ht) & Hhc & Htc & Hfree & Havail).
  cbn [Spsc.buffer_ Spsc.head_ Spsc.tail_ Spsc.head_cached_
       Spsc.tail_cached_] in *.
  unfold Spsc.enqueue. cbn [Spsc.buffer_ Spsc.head_ Spsc.tail_
    Spsc.head_cached_ Spsc.tail_cached_].
  rewrite rem_next by done. cbn [mbind outcome_bind mret outcome_ret].
  set (nt := if t + 1 =? size buf then 0 else t + 1).
  assert (0 <= nt < size buf) by (subst nt; ring_arith).
  assert (nt <> h) as Hnh by (subst nt; ring_arith).
  assert (forall c, (if nt =? h then mret (false, c)
                     else Spsc.enqueue_store c t nt x)
                    = Spsc.enqueue_store c t nt x) as Hreal.
  { intros c. by destruct (Z.eqb_spec nt h). }
  assert (forall c, Spsc.buffer_ c = buf ->
            Spsc.enqueue_store c t nt x
            = Ret (true, Spsc.mkSpscQueue (<[Z.to_nat t := x]> buf)
                           (Spsc.head_ c) nt (Spsc.head_cached_ c)
                           (Spsc.tail_cached_ c))) as Hstore.
  { intros c Hc. unfold Spsc.enqueue_store. rewrite Hc.
    by rewrite assign_Ret by done. }
  assert (Spsc.contents (Spsc.mkSpscQueue (<[Z.to_nat t := x]> buf) h nt hc tc)
          = Spsc.contents (Spsc.mkSpscQueue buf h t hc tc) ++ [x]) as Hpush.
  { unfold Spsc.contents. cbn. subst nt.
    apply ring_contents_push; [done|]. ring_arith. }
  destruct (Z.eqb_spec nt hc) as [Heq|Hne].
  - cbn [Spsc.head_cached_]. rewrite Hreal, Hstore by done.
    eexists. split; [done|]. cbn.
    split; [|split; [exact Hpush|by rewrite size_insert]].
    unfold Spsc.coherent, ring_ok. cbn. rewrite size_insert.
    repeat split; try lia. subst nt; ring_arith.
  - rewrite Hstore by done.
    eexists. split; [done|]. cbn.
    split; [|split; [exact Hpush|by rewrite size_insert]].
    unfold Spsc.coherent, ring_ok. cbn. rewrite size_insert.
    repeat split; try lia; subst nt; ring_arith.
Qed.

(** [enqueue] on a full queue is refused and leaves the object as it is. *)
Lemma spsc_enqueue_reject q x :
  Spsc.coherent q ->
  Z.of_nat (length (Spsc.contents q)) = size (Spsc.buffer_ q) - 1 ->
  Spsc.enqueue q x = Ret (false, q).
Proof.
  intros Hco Hfull. rewrite spsc_contents_length in Hfull by done.
  destruct q as [buf h t hc tc].
  destruct Hco as ((Hlen & Hh & Ht) & Hhc & Htc & Hfree & Havail).
  cbn [Spsc.buffer_ Spsc.head_ Spsc.tail_ Spsc.head_cached_
       Spsc.tail_cached_] in *.
  unfold Spsc.enqueue. cbn [Spsc.buffer_ Spsc.head_ Spsc.tail_
    Spsc.head_cached_ Spsc.tail_cached_].
  rewrite rem_next by done. cbn [mbind outcome_bind mret outcome_ret].
  set (nt := if t + 1 =? size buf then 0 else t + 1).
  assert (nt = h) as Hnh by (subst nt; ring_arith).
  assert (hc = h) as -> by (subst nt; ring_arith).
  rewrite Hnh, Z.eqb_refl. done.
Qed.

(** [dequeue] on a queue holding items hands out the oldest one. *)
Lemma spsc_dequeue_accept q item x l :
  Spsc.coherent q ->
  Spsc.contents q = x :: l ->
  exists q',
    Spsc.dequeue q item = Ret (true, x, q') /\
    Spsc.coherent q' /\
    Spsc.contents q' = l /\
    size (Spsc.buffer_ q') = size (Spsc.buffer_ q).
Proof.
  intros Hco Hcont.
  destruct q as [buf h t hc tc].
  destruct Hco as (Hok & Hhc & Htc & Hfree & Havail).
  pose proof Hok as (Hlen & Hh & Ht).
  unfold Spsc.contents in Hcont.
  cbn [Spsc.buffer_ Spsc.head_ Spsc.tail_ Spsc.head_cached_
       Spsc.tail_cached_] in *.
  assert (h <> t) as Hne.
  { intros ->. by rewrite ring_contents_nil in Hcont. }
  destruct (ring_contents_pop buf h t Hok Hne) as (y & Hy & Hpop).
  rewrite Hpop in Hcont. injection Hcont as -> Hl.
  set (nh := if h + 1 =? size buf then 0 else h + 1) in *.
  assert (0 <= nh < size buf) by (subst nh; ring_arith).
  assert (forall c, Spsc.buffer_ c = buf ->
            Spsc.dequeue_load c h
            = Ret (true, x, Spsc.mkSpscQueue buf nh (Spsc.tail_ c)
                              (Spsc.head_cached_ c) (Spsc.tail_cached_ c)))
    as Hload.
  { intros c Hc. unfold Spsc.dequeue_load. rewrite Hc.
    destruct (at_Ret buf h Hh) as (x' & Hx' & ->).
    assert (x' = x) as -> by congruence.
    cbn [mbind outcome_bind mret outcome_ret]. by rewrite rem_next by done. }
  unfold Spsc.dequeue. cbn [Spsc.buffer_ Spsc.head_ Spsc.tail_
    Spsc.head_cached_ Spsc.tail_cached_].
  destruct (Z.eqb_spec h tc) as [Heq|Hntc].
  - destruct (Z.eqb_spec h t); [done|]. rewrite Hload by done.
    eexists. split; [done|]. cbn. split; [|done].
    unfold Spsc.coherent, ring_ok. cbn.
    repeat split; try lia; subst nh; ring_arith.
  - rewrite Hload by done.
    eexists. split; [done|]. cbn. split; [|done].
    unfold Spsc.coherent, ring_ok. cbn.
    repeat split; try lia; subst nh; ring_arith.
Qed.

(** [dequeue] on an empty queue is refused and leaves the object and the
    out-parameter as they are. *)
Lemma spsc_dequeue_reject q item :
  Spsc.coherent q ->
  Spsc.contents q = [] ->
  Spsc.dequeue q item = Ret (false, item, q).
Proof.
  intros Hco Hcont.
  pose proof (spsc_contents_length q Hco) as Hlen'. rewrite Hcont in Hlen'.
  destruct q as [buf h t hc tc].
  destruct Hco as ((Hlen & Hh & Ht) & Hhc & Htc & Hfree & Havail).
  cbn [Spsc.buffer_ Spsc.head_ Spsc.tail_ Spsc.head_cached_
       Spsc.tail_cached_ length] in *.
  assert (h = t) as -> by ring_arith.
  assert (tc = t) as -> by ring_arith.
  unfold Spsc.dequeue. cbn [Spsc.buffer_ Spsc.head_ Spsc.tail_
    Spsc.head_cached_ Spsc.tail_cached_].
  by rewrite Z.eqb_refl.
Qed.
End spsc_lemmas.

(** ** MpscQueue: one call at a time, run alone *)

Arguments Mpsc.enqueue_run : simpl never.
Arguments Mpsc.dequeue_run : simpl never.

Section mpsc_lemmas.
Context {T : Type}.
Implicit Types (q : @Mpsc.MpscQueue T) (x item : T).

Lemma mpsc_enqueue_run_return fuel item q r :
  Mpsc.enqueue_run fuel item q (Mpsc.enq_return r) = Ret (r, q).
Proof. by destruct fuel. Qed.

Lemma mpsc_enqueue_run_step fuel item q pc :
  (forall r, pc <> Mpsc.enq_return r) ->
  Mpsc.enqueue_run (S fuel) item q pc
  = '(q', pc') ← Mpsc.enqueue_step item q pc;
    Mpsc.enqueue_run fuel item q' pc'.
Proof. intros Hpc. destruct pc; try done. by destruct (Hpc r). Qed.

Lemma mpsc_dequeue_run_return fuel q item r :
  Mpsc.dequeue_run fuel q (Mpsc.deq_return r) item = Ret (r, item, q).
Proof. by destruct fuel. Qed.

Lemma mpsc_dequeue_run_step fuel q pc item :
  (forall r, pc <> Mpsc.deq_return r) ->
  Mpsc.dequeue_run (S fuel) q pc item
  = '(q', pc', item') ← Mpsc.dequeue_step q pc item;
    Mpsc.dequeue_run fuel q' pc' item'.
Proof. intros Hpc. destruct pc; try done. by destruct (Hpc r). Qed.

Lemma mpsc_contents_length q :
  Mpsc.well_formed q ->
  Z.of_nat (length (Mpsc.contents q))
  = ring_count (size (Mpsc.buffer_ q)) (Mpsc.head_ q) (Mpsc.tail_ q).
Proof. intros Hok. by apply ring_contents_length. Qed.
End mpsc_lemmas.

(** One shared access of a call run alone. *)
Ltac mpsc_step :=
first [ rewrite mpsc_enqueue_run_return
      | rewrite mpsc_dequeue_run_return
      | rewrite mpsc_enqueue_run_step by done
      | rewrite mpsc_dequeue_run_step by done ];
cbn [Mpsc.enqueue_step Mpsc.dequeue_step Mpsc.buffer_ Mpsc.head_
     Mpsc.tail_ Mpsc.count_ mbind outcome_bind mret outcome_ret].

(** A whole call run alone, splitting on every test it meets. *)
Ltac mpsc_run :=
  repeat first
    [ mpsc_step
    | progress cbn [mbind outcome_bind mret outcome_ret andb]
    | rewrite Z.eqb_refl
    | progress unfold rem, assign, at_
    | match goal with
      | |- context [?a =? ?b] => destruct (a =? b)
      | |- context [?a <? ?b] => destruct (a <? b)
      | |- context [?a <=? ?b] => destruct (a <=? b)
      | |- context [?l !! ?i] => destruct (l !! i)
      end ];
  try done.

Section mpsc_calls.
Context {T : Type}.
Implicit Types (q : @Mpsc.MpscQueue T) (x item : T).

Lemma mpsc_enqueue_accept q x :
  Mpsc.well_formed q ->
  Z.of_nat (length (Mpsc.contents q)) < size (Mpsc.buffer_ q) - 1 ->
  exists q',
    Mpsc.enqueue q x = Ret (true, q') /\
    Mpsc.well_formed q' /\
    Mpsc.contents q' = Mpsc.contents q ++ [x] /\
    size (Mpsc.buffer_ q') = size (Mpsc.buffer_ q).
Proof.
  intros Hok Hroom. rewrite mpsc_contents_length in Hroom by done.
  destruct q as [buf h t c]. pose proof Hok as (Hlen & Hh & Ht).
  cbn [Mpsc.buffer_ Mpsc.head_ Mpsc.tail_] in *.
  unfold Mpsc.enqueue. mpsc_step. rewrite rem_next by done.
  cbn [mbind outcome_bind mret outcome_ret].
  set (nt := if t + 1 =? size buf then 0 else t + 1).
  assert (0 <= nt < size buf) by (subst nt; ring_arith).
  assert (nt <> h) as Hnh by (subst nt; ring_arith).
  mpsc_step. destruct (Z.eqb_spec nt h); [done|]. cbn [mbind outcome_bind mret outcome_ret].
  mpsc_step. rewrite Z.eqb_refl. cbn [mbind outcome_bind mret outcome_ret].
  mpsc_step. rewrite assign_Ret by done. cbn [mbind outcome_bind mret outcome_ret].
  mpsc_step.
  eexists. split; [done|].
  unfold Mpsc.well_formed, Mpsc.contents, ring_ok. cbn.
  rewrite size_insert. repeat split; try lia.
  subst nt. by apply ring_contents_push.
Qed.

Lemma mpsc_enqueue_reject q x :
  Mpsc.well_formed q ->
  Z.of_nat (length (Mpsc.contents q)) = size (Mpsc.buffer_ q) - 1 ->
  Mpsc.enqueue q x = Ret (false, q).
Proof.
  intros Hok Hfull. rewrite mpsc_contents_length in Hfull by done.
  destruct q as [buf h t c]. pose proof Hok as (Hlen & Hh & Ht).
  cbn [Mpsc.buffer_ Mpsc.head_ Mpsc.tail_] in *.
  unfold Mpsc.enqueue. mpsc_step. rewrite rem_next by done.
  cbn [mbind outcome_bind mret outcome_ret].
  set (nt := if t + 1 =? size buf then 0 else t + 1).
  assert (nt = h) as -> by (subst nt; ring_arith).
  mpsc_step. rewrite Z.eqb_refl. cbn [mbind outcome_bind mret outcome_ret].
  by mpsc_step.
Qed.

Lemma mpsc_dequeue_accept q item x l :
  Mpsc.well_formed q ->
  Mpsc.contents q = x :: l ->
  exists q',
    Mpsc.dequeue q item = Ret (true, x, q') /\
    Mpsc.well_formed q' /\
    Mpsc.contents q' = l /\
    size (Mpsc.buffer_ q') = size (Mpsc.buffer_ q).
Proof.
  intros Hok Hcont.
  destruct q as [buf h t c]. pose proof Hok as (Hlen & Hh & Ht).
  unfold Mpsc.contents in Hcont.
  cbn [Mpsc.buffer_ Mpsc.head_ Mpsc.tail_] in *.
  assert (h <> t) as Hne.
  { intros ->. by rewrite ring_contents_nil in Hcont. }
  destruct (ring_contents_pop buf h t Hok Hne) as (y & Hy & Hpop).
  rewrite Hpop in Hcont. injection Hcont as -> Hl.
  unfold Mpsc.dequeue. mpsc_step.
  mpsc_step. destruct (Z.eqb_spec h t); [done|]. cbn [mbind outcome_bind mret outcome_ret].
  mpsc_step. destruct (at_Ret buf h Hh) as (x' & Hx' & ->).
  assert (x' = x) as -> by congruence. cbn [mbind outcome_bind mret outcome_ret].
  mpsc_step. rewrite rem_next by done. cbn [mbind outcome_bind mret outcome_ret].
  mpsc_step.
  eexists. split; [done|]. split; [|done].
  unfold Mpsc.well_formed, ring_ok. cbn.
  repeat split; try lia; ring_arith.
Qed.

(** The bound of four accesses is never what ends a call run alone, and
    more fuel changes nothing. *)
Lemma mpsc_enqueue_fuel q x (n : nat) :
  Mpsc.enqueue q x <> Unfinished /\
  Mpsc.enqueue_run (4 + n) x q Mpsc.enq_load_tail = Mpsc.enqueue q x.
Proof.
  destruct q as [buf h t c]. unfold Mpsc.enqueue.
  change (4 + n)%nat with (S (S (S (S n)))).
  split; mpsc_run.
Qed.

Lemma mpsc_dequeue_fuel q item (n : nat) :
  Mpsc.dequeue q item <> Unfinished /\
  Mpsc.dequeue_run (4 + n) q Mpsc.deq_load_head item = Mpsc.dequeue q item.
Proof.
  destruct q as [buf h t c]. unfold Mpsc.dequeue.
  change (4 + n)%nat with (S (S (S (S n)))).
  split; mpsc_run.
Qed.

Lemma mpsc_dequeue_reject q item :
  Mpsc.well_formed q ->
  Mpsc.contents q = [] ->
  Mpsc.dequeue q item = Ret (false, item, q).
Proof.
  intros Hok Hcont.
  pose proof (mpsc_contents_length q Hok) as Hlen'. rewrite Hcont in Hlen'.
  destruct q as [buf h t c]. pose proof Hok as (Hlen & Hh & Ht).
  cbn [Mpsc.buffer_ Mpsc.head_ Mpsc.tail_ length] in *.
  assert (h = t) as -> by ring_arith.
  unfold Mpsc.dequeue. mpsc_step.
  mpsc_step. rewrite Z.eqb_refl. cbn [mbind outcome_bind mret outcome_ret].
  by mpsc_step.
Qed.
End mpsc_calls.

(** ** Runs of calls over any ring queue

    What follows holds for both classes: it only uses how one accepted or
    refused call acts on the items held. *)

Section fifo_runs.
Context {T Q : Type}.
Variable do_call : Q -> call T -> outcome (reply T * Q).
Variable inv : Q -> Prop.
Variable contents : Q -> list T.
Variable room : Q -> Z.

Hypothesis enqueue_accept : forall q x,
  inv q -> Z.of_nat (length (contents q)) < room q ->
  exists q', do_call q (call_enqueue x) = Ret (enqueue_reply true, q') /\
             inv q' /\ contents q' = contents q ++ [x] /\ room q' = room q.
Hypothesis dequeue_accept : forall q item x l,
  inv q -> contents q = x :: l ->
  exists q', do_call q (call_dequeue item) = Ret (dequeue_reply true x, q') /\
             inv q' /\ contents q' = l /\ room q' = room q.

Lemma run_calls_app q cs1 cs2 rs1 q1 :
  run_calls do_call q cs1 = Ret (rs1, q1) ->
  run_calls do_call q (cs1 ++ cs2)
  = '(rs2, q2) ← run_calls do_call q1 cs2; mret (rs1 ++ rs2, q2).
Proof.
  revert q rs1. induction cs1 as [|c cs1 IH]; intros q rs1 Hrun.
  - injection Hrun as <- <-. cbn [app]. by destruct (run_calls _ _ _) as [[]| |].
  - cbn [app run_calls] in *.
    destruct (do_call q c) as [[r q']| |]; try done.
    cbn [mbind outcome_bind] in *.
    destruct (run_calls do_call q' cs1) as [[rs q'']| |] eqn:Hrest; try done.
    injection Hrun as <- <-. rewrite (IH _ _ Hrest).
    by destruct (run_calls _ _ cs2) as [[]| |].
Qed.

(** Enqueueing a batch that fits: every call is accepted and the batch
    ends up behind what was there. *)
Lemma run_enqueues q items :
  inv q ->
  Z.of_nat (length (contents q)) + Z.of_nat (length items) <= room q ->
  exists q',
    run_calls do_call q (map call_enqueue items)
    = Ret (replicate (length items) (enqueue_reply true), q') /\
    inv q' /\ contents q' = contents q ++ items /\ room q' = room q.
Proof.
  revert q. induction items as [|x items IH]; intros q Hinv Hfit.
  - exists q. by rewrite app_nil_r.
  - cbn [length] in Hfit.
    destruct (enqueue_accept q x Hinv) as (q1 & Hcall & Hinv1 & Hc1 & Hr1);
      [lia|].
    destruct (IH q1 Hinv1) as (q2 & Hrun & Hinv2 & Hc2 & Hr2).
    { rewrite Hc1, Hr1, length_app. cbn [length]. lia. }
    exists q2. cbn [map run_calls length replicate]. rewrite Hcall.
    cbn [mbind outcome_bind]. rewrite Hrun.
    split; [done|]. split; [done|].
    split; [|congruence]. by rewrite Hc2, Hc1, <- app_assoc.
Qed.

(** Draining a prefix of the items held: every call is accepted and the
    items come out oldest first. *)
Lemma run_dequeues q item l rest :
  inv q ->
  contents q = l ++ rest ->
  exists q',
    run_calls do_call q (replicate (length l) (call_dequeue item))
    = Ret (map (dequeue_reply true) l, q') /\
    inv q' /\ contents q' = rest /\ room q' = room q.
Proof.
  revert q. induction l as [|x l IH]; intros q Hinv Hcont.
  - by exists q.
  - destruct (dequeue_accept q item x (l ++ rest) Hinv Hcont)
      as (q1 & Hcall & Hinv1 & Hc1 & Hr1).
    destruct (IH q1 Hinv1 Hc1) as (q2 & Hrun & Hinv2 & Hc2 & Hr2).
    exists q2. cbn [map run_calls length replicate]. rewrite Hcall.
    cbn [mbind outcome_bind]. rewrite Hrun.
    split; [done|]. split; [done|]. split; [done|congruence].
Qed.
End fifo_runs.

(** ** Construction *)

Section construction.
Context {T : Type} (max_size : Z) (T0 : T).

(** The guard of either constructor compares an unsigned value with zero:
    it is false for every argument.  What is left is the vector's own
    check of the wrapped length against [max_size()]. *)
Lemma spsc_ctor_cases capacity :
  Spsc.SpscQueue_ctor max_size T0 capacity
  = if max_size <? size_t (capacity + 1) then Thrown length_error
    else Constructed (Spsc.mkSpscQueue
                        (replicate (Z.to_nat (size_t (capacity + 1))) T0)
                        0 0 0 0).
Proof.
  unfold Spsc.SpscQueue_ctor, vector_ctor.
  pose proof (size_t_nonneg (capacity + 1)).
  destruct (max_size <? size_t (capacity + 1)); [done|].
  by destruct (Z.ltb_spec (size_t (capacity + 1)) 0); [lia|].
Qed.

Lemma mpsc_ctor_cases capacity :
  Mpsc.MpscQueue_ctor max_size T0 capacity
  = if max_size <? size_t (capacity + 1) then Thrown length_error
    else Constructed (Mpsc.mkMpscQueue
                        (replicate (Z.to_nat (size_t (capacity + 1))) T0)
                        0 0 0).
Proof.
  unfold Mpsc.MpscQueue_ctor, vector_ctor.
  pose proof (size_t_nonneg (capacity + 1)).
  destruct (max_size <? size_t (capacity + 1)); [done|].
  by destruct (Z.ltb_spec (size_t (capacity + 1)) 0); [lia|].
Qed.

(** Below [max_size] the vector is built with [capacity + 1] slots. *)
Lemma spsc_ctor_constructs capacity :
  0 <= capacity < max_size -> max_size <= SIZE_MAX ->
  Spsc.SpscQueue_ctor max_size T0 capacity
  = Constructed (Spsc.mkSpscQueue
                   (replicate (Z.to_nat (size_t (capacity + 1))) T0) 0 0 0 0).
Proof.
  intros Hc Hm. rewrite spsc_ctor_cases, size_t_small by lia.
  by destruct (Z.ltb_spec max_size (capacity + 1)); [lia|].
Qed.

Lemma mpsc_ctor_constructs capacity :
  0 <= capacity < max_size -> max_size <= SIZE_MAX ->
  Mpsc.MpscQueue_ctor max_size T0 capacity
  = Constructed (Mpsc.mkMpscQueue
                   (replicate (Z.to_nat (size_t (capacity + 1))) T0) 0 0 0).
Proof.
  intros Hc Hm. rewrite mpsc_ctor_cases, size_t_small by lia.
  by destruct (Z.ltb_spec max_size (capacity + 1)); [lia|].
Qed.

(** From [max_size] up to [SIZE_MAX - 1] the vector refuses the length. *)
Lemma spsc_ctor_throws capacity :
  0 <= max_size <= capacity -> capacity < SIZE_MAX ->
  Spsc.SpscQueue_ctor max_size T0 capacity = Thrown length_error.
Proof.
  intros Hc Hm. rewrite spsc_ctor_cases, size_t_small by lia.
  by destruct (Z.ltb_spec max_size (capacity + 1)); [|lia].
Qed.

Lemma mpsc_ctor_throws capacity :
  0 <= max_size <= capacity -> capacity < SIZE_MAX ->
  Mpsc.MpscQueue_ctor max_size T0 capacity = Thrown length_error.
Proof.
  intros Hc Hm. rewrite mpsc_ctor_cases, size_t_small by lia.
  by destruct (Z.ltb_spec max_size (capacity + 1)); [|lia].
Qed.

(** At [SIZE_MAX] the length wraps to zero, which no vector refuses. *)
Lemma spsc_ctor_wraps :
  0 <= max_size ->
  Spsc.SpscQueue_ctor max_size T0 SIZE_MAX
  = Constructed (Spsc.mkSpscQueue [] 0 0 0 0).
Proof.
  intros Hm. rewrite spsc_ctor_cases, size_t_succ_max.
  by destruct (Z.ltb_spec max_size 0); [lia|].
Qed.

Lemma mpsc_ctor_wraps :
  0 <= max_size ->
  Mpsc.MpscQueue_ctor max_size T0 SIZE_MAX
  = Constructed (Mpsc.mkMpscQueue [] 0 0 0).
Proof.
  intros Hm. rewrite mpsc_ctor_cases, size_t_succ_max.
  by destruct (Z.ltb_spec max_size 0); [lia|].
Qed.

(** Whatever the capacity, a constructed object has its cursors and
    mirrors at zero. *)
Lemma spsc_ctor_fresh capacity q0 :
  Spsc.SpscQueue_ctor max_size T0 capacity = Constructed q0 ->
  q0 = Spsc.mkSpscQueue
         (replicate (Z.to_nat (size_t (capacity + 1))) T0) 0 0 0 0.
Proof.
  rewrite spsc_ctor_cases.
  destruct (max_size <? size_t (capacity + 1)); [done|].
  by intros [= <-].
Qed.

Lemma mpsc_ctor_fresh capacity q0 :
  Mpsc.MpscQueue_ctor max_size T0 capacity = Constructed q0 ->
  q0 = Mpsc.mkMpscQueue
         (replicate (Z.to_nat (size_t (capacity + 1))) T0) 0 0 0.
Proof.
  rewrite mpsc_ctor_cases.
  destruct (max_size <? size_t (capacity + 1)); [done|].
  by intros [= <-].
Qed.

Lemma fresh_size capacity :
  0 <= capacity < SIZE_MAX ->
  size (replicate (Z.to_nat (size_t (capacity + 1))) T0) = capacity + 1.
Proof.
  intros Hc. rewrite size_replicate, size_t_small by lia. lia.
Qed.

Lemma spsc_fresh_coherent capacity :
  0 <= capacity < SIZE_MAX ->
  Spsc.coherent (Spsc.mkSpscQueue
                   (replicate (Z.to_nat (size_t (capacity + 1))) T0) 0 0 0 0).
Proof.
  intros Hc. unfold Spsc.coherent, ring_ok. cbn.
  rewrite fresh_size by done. repeat split; lia.
Qed.

Lemma mpsc_fresh_well_formed capacity :
  0 <= capacity < SIZE_MAX ->
  Mpsc.well_formed (Mpsc.mkMpscQueue
                      (replicate (Z.to_nat (size_t (capacity + 1))) T0) 0 0 0).
Proof.
  intros Hc. unfold Mpsc.well_formed, ring_ok. cbn.
  rewrite fresh_size by done. repeat split; lia.
Qed.
End construction.

(** ** Calls as transitions on the items held *)

Section spsc_calls.
Context {T : Type}.
Implicit Types (q : @Spsc.SpscQueue T) (x item : T).

Lemma spsc_contents_bound q :
  Spsc.coherent q -> Z.of_nat (length (Spsc.contents q)) <= Spsc.room q.
Proof.
  intros Hco. rewrite spsc_contents_length by done. unfold Spsc.room.
  destruct Hco as ((Hlen & Hh & Ht) & _). ring_arith.
Qed.

Lemma spsc_call_enqueue_accept q x :
  Spsc.coherent q -> Z.of_nat (length (Spsc.contents q)) < Spsc.room q ->
  exists q', Spsc.do_call q (call_enqueue x) = Ret (enqueue_reply true, q') /\
             Spsc.coherent q' /\
             Spsc.contents q' = Spsc.contents q ++ [x] /\
             Spsc.room q' = Spsc.room q.
Proof.
  intros Hco Hroom.
  destruct (spsc_enqueue_accept q x Hco Hroom) as (q' & He & ? & ? & Hs).
  exists q'. cbn [Spsc.do_call]. rewrite He. unfold Spsc.room. by rewrite Hs.
Qed.

Lemma spsc_call_dequeue_accept q item x l :
  Spsc.coherent q -> Spsc.contents q = x :: l ->
  exists q', Spsc.do_call q (call_dequeue item) = Ret (dequeue_reply true x, q') /\
             Spsc.coherent q' /\ Spsc.contents q' = l /\
             Spsc.room q' = Spsc.room q.
Proof.
  intros Hco Hc.
  destruct (spsc_dequeue_accept q item x l Hco Hc) as (q' & He & ? & ? & Hs).
  exists q'. cbn [Spsc.do_call]. rewrite He. unfold Spsc.room. by rewrite Hs.
Qed.

(** Every call on a coherent queue returns, and the queue stays coherent
    with the same vector length. *)
Lemma spsc_call_total q c :
  Spsc.coherent q ->
  exists r q', Spsc.do_call q c = Ret (r, q') /\
               Spsc.coherent q' /\ Spsc.room q' = Spsc.room q.
Proof.
  intros Hco. destruct c as [x|item|].
  - pose proof (spsc_contents_bound q Hco) as Hb.
    destruct (Z.eq_dec (Z.of_nat (length (Spsc.contents q))) (Spsc.room q))
      as [Hfull|Hnot].
    + exists (enqueue_reply false), q. cbn [Spsc.do_call].
      by rewrite spsc_enqueue_reject.
    + destruct (spsc_call_enqueue_accept q x Hco) as (q' & ? & ? & ? & ?);
        [lia|]. by exists (enqueue_reply true), q'.
  - destruct (Spsc.contents q) as [|x l] eqn:Hc.
    + exists (dequeue_reply false item), q. cbn [Spsc.do_call].
      by rewrite spsc_dequeue_reject.
    + destruct (spsc_call_dequeue_accept q item x l Hco Hc)
        as (q' & ? & ? & ? & ?). by exists (dequeue_reply true x), q'.
  - by exists (is_empty_reply (Spsc.is_empty q)), q.
Qed.
End spsc_calls.

Section mpsc_call_lemmas.
Context {T : Type}.
Implicit Types (q : @Mpsc.MpscQueue T) (x item : T).

Lemma mpsc_contents_bound q :
  Mpsc.well_formed q -> Z.of_nat (length (Mpsc.contents q)) <= Mpsc.room q.
Proof.
  intros Hok. rewrite mpsc_contents_length by done. unfold Mpsc.room.
  destruct Hok as (Hlen & Hh & Ht). ring_arith.
Qed.

Lemma mpsc_call_enqueue_accept q x :
  Mpsc.well_formed q -> Z.of_nat (length (Mpsc.contents q)) < Mpsc.room q ->
  exists q', Mpsc.do_call q (call_enqueue x) = Ret (enqueue_reply true, q') /\
             Mpsc.well_formed q' /\
             Mpsc.contents q' = Mpsc.contents q ++ [x] /\
             Mpsc.room q' = Mpsc.room q.
Proof.
  intros Hok Hroom.
  destruct (mpsc_enqueue_accept q x Hok Hroom) as (q' & He & ? & ? & Hs).
  exists q'. cbn [Mpsc.do_call]. rewrite He. unfold Mpsc.room. by rewrite Hs.
Qed.

Lemma mpsc_call_dequeue_accept q item x l :
  Mpsc.well_formed q -> Mpsc.contents q = x :: l ->
  exists q', Mpsc.do_call q (call_dequeue item) = Ret (dequeue_reply true x, q') /\
             Mpsc.well_formed q' /\ Mpsc.contents q' = l /\
             Mpsc.room q' = Mpsc.room q.
Proof.
  intros Hok Hc.
  destruct (mpsc_dequeue_accept q item x l Hok Hc) as (q' & He & ? & ? & Hs).
  exists q'. cbn [Mpsc.do_call]. rewrite He. unfold Mpsc.room. by rewrite Hs.
Qed.

Lemma mpsc_call_total q c :
  Mpsc.well_formed q ->
  exists r q', Mpsc.do_call q c = Ret (r, q') /\
               Mpsc.well_formed q' /\ Mpsc.room q' = Mpsc.room q.
Proof.
  intros Hok. destruct c as [x|item|].
  - pose proof (mpsc_contents_bound q Hok) as Hb.
    destruct (Z.eq_dec (Z.of_nat (length (Mpsc.contents q))) (Mpsc.room q))
      as [Hfull|Hnot].
    + exists (enqueue_reply false), q. cbn [Mpsc.do_call].
      by rewrite mpsc_enqueue_reject.
    + destruct (mpsc_call_enqueue_accept q x Hok) as (q' & ? & ? & ? & ?);
        [lia|]. by exists (enqueue_reply true), q'.
  - destruct (Mpsc.contents q) as [|x l] eqn:Hc.
    + exists (dequeue_reply false item), q. cbn [Mpsc.do_call].
      by rewrite mpsc_dequeue_reject.
    + destruct (mpsc_call_dequeue_accept q item x l Hok Hc)
        as (q' & ? & ? & ? & ?). by exists (dequeue_reply true x), q'.
  - by exists (is_empty_reply (Mpsc.is_empty q)), q.
Qed.
End mpsc_call_lemmas.

(** * The claims *)

(** ** C1: first in, first out *)

Section largest_capacity.
Context {T : Type}.

(** On the object built from capacity [SIZE_MAX] the first thing either
    [enqueue] does is [(t + 1) % buffer_.size()] with a size of zero. *)
Lemma spsc_slotless_enqueue (x : T) :
  Spsc.enqueue (Spsc.mkSpscQueue [] 0 0 0 0) x = Undefined.
Proof. reflexivity. Qed.

Lemma mpsc_slotless_enqueue (x : T) :
  Mpsc.enqueue (Mpsc.mkMpscQueue [] 0 0 0) x = Undefined.
Proof. reflexivity. Qed.
End largest_capacity.

(** C1: for every capacity [1 <= C] below [max_size()] and every sequence
    of [N <= C] items, enqueueing them on a freshly constructed [SpscQueue]
    and then dequeueing [N] times returns true at every call and yields the
    items in enqueue order.  At capacity [SIZE_MAX] the claim fails:
    [capacity + 1] wraps to zero, the guard meant to refuse a capacity that
    is too big never fires, a queue without any slot is constructed, and
    the first [enqueue] on it takes a remainder by zero. *)
Theorem C1_spsc_fifo {T : Type} (max_size : Z) (T0 : T) (capacity : Z)
  (items : list T) (d : T) :
1 <= capacity < max_size ->
max_size <= SIZE_MAX ->
Z.of_nat (length items) <= capacity ->
spsc_fifo max_size T0 capacity items d /\
(exists q0, Spsc.SpscQueue_ctor max_size T0 SIZE_MAX = Constructed q0 /\
            Spsc.buffer_ q0 = [] /\
            forall x, Spsc.enqueue q0 x = Undefined) /\
~ spsc_fifo max_size T0 SIZE_MAX [d] d.
Proof.
intros Hc Hm Hn. split; [|split].
- unfold spsc_fifo. rewrite spsc_ctor_constructs by lia.
  set (q0 := Spsc.mkSpscQueue _ 0 0 0 0).
  assert (Spsc.coherent q0) as Hco by (apply spsc_fresh_coherent; lia).
  assert (Spsc.contents q0 = []) as Hnil by apply ring_contents_nil.
  assert (Spsc.room q0 = capacity) as Hroom.
  { unfold Spsc.room. cbn. rewrite fresh_size; lia. }
  destruct (run_enqueues Spsc.do_call Spsc.coherent Spsc.contents Spsc.room
              spsc_call_enqueue_accept q0 items Hco)
    as (q1 & Hrun1 & Hco1 & Hc1 & _).
  { rewrite Hnil, Hroom. cbn [length]. lia. }
  rewrite Hnil in Hc1. cbn [app] in Hc1.
  destruct (run_dequeues Spsc.do_call Spsc.coherent Spsc.contents Spsc.room
              spsc_call_dequeue_accept q1 d items [] Hco1)
    as (q2 & Hrun2 & _).
  { by rewrite app_nil_r. }
  exists q0, q2. split; [done|]. unfold Spsc.do_calls.
  rewrite (run_calls_app _ _ _ _ _ _ Hrun1), Hrun2. done.
- rewrite spsc_ctor_wraps by lia. eexists. split; [done|]. split; [done|].
  apply spsc_slotless_enqueue.
- intros (q0 & q1 & Hctor & Hrun).
  rewrite spsc_ctor_wraps in Hctor by lia.
  injection Hctor as <-. discriminate Hrun.
Qed.

Lemma C1_spsc_fifo_witness :
1 <= 3 < 1000 /\ 1000 <= SIZE_MAX /\
Z.of_nat (length [10; 20; 30]) <= 3 /\
spsc_fifo 1000 0 3 [10; 20; 30] 0 /\
(exists q0, Spsc.SpscQueue_ctor 1000 0 SIZE_MAX = Constructed q0 /\
            Spsc.buffer_ q0 = [] /\
            forall x, Spsc.enqueue q0 x = Undefined) /\
~ spsc_fifo 1000 0 SIZE_MAX [0] 0.
Proof.
assert (1 <= 3 < 1000) as H1 by lia.
assert (1000 <= SIZE_MAX) as H2 by (unfold SIZE_MAX; lia).
assert (Z.of_nat (length [10; 20; 30]) <= 3) as H3 by (simpl; lia).
exact (conj H1 (conj H2 (conj H3
         (C1_spsc_fifo 1000 0 3 [10; 20; 30] 0 H1 H2 H3)))).
Defined.

(** ** C3: the full queue refuses *)

Section full_rejection.
Context {T : Type} (max_size : Z) (T0 : T).

Lemma spsc_full_rejection_holds capacity (items : list T) x d :
  1 <= capacity < max_size -> max_size <= SIZE_MAX ->
  Z.of_nat (length items) = capacity ->
  spsc_full_rejection max_size T0 capacity items x d.
Proof.
  intros Hc Hm Hn.
  unfold spsc_full_rejection. rewrite spsc_ctor_constructs by lia.
  set (q0 := Spsc.mkSpscQueue _ 0 0 0 0).
  assert (Spsc.coherent q0) as Hco by (apply spsc_fresh_coherent; lia).
  assert (Spsc.contents q0 = []) as Hnil by apply ring_contents_nil.
  assert (Spsc.room q0 = capacity) as Hroom.
  { unfold Spsc.room. cbn. rewrite fresh_size; lia. }
  destruct (run_enqueues Spsc.do_call Spsc.coherent Spsc.contents Spsc.room
              spsc_call_enqueue_accept q0 items Hco)
    as (q1 & Hrun1 & Hco1 & Hc1 & Hr1).
  { rewrite Hnil, Hroom. cbn [length]. lia. }
  rewrite Hnil in Hc1. cbn [app] in Hc1.
  destruct (run_dequeues Spsc.do_call Spsc.coherent Spsc.contents Spsc.room
              spsc_call_dequeue_accept q1 d items [] Hco1)
    as (q2 & Hrun2 & _).
  { by rewrite app_nil_r. }
  exists q0, q1, q2. repeat split; try done.
  apply spsc_enqueue_reject; [done|].
  fold (Spsc.room q1). rewrite Hc1, Hr1, Hroom. done.
Qed.

Lemma mpsc_full_rejection_holds capacity (items : list T) x d :
  1 <= capacity < max_size -> max_size <= SIZE_MAX ->
  Z.of_nat (length items) = capacity ->
  mpsc_full_rejection max_size T0 capacity items x d.
Proof.
  intros Hc Hm Hn.
  unfold mpsc_full_rejection. rewrite mpsc_ctor_constructs by lia.
  set (q0 := Mpsc.mkMpscQueue _ 0 0 0).
  assert (Mpsc.well_formed q0) as Hco by (apply mpsc_fresh_well_formed; lia).
  assert (Mpsc.contents q0 = []) as Hnil by apply ring_contents_nil.
  assert (Mpsc.room q0 = capacity) as Hroom.
  { unfold Mpsc.room. cbn. rewrite fresh_size; lia. }
  destruct (run_enqueues Mpsc.do_call Mpsc.well_formed Mpsc.contents Mpsc.room
              mpsc_call_enqueue_accept q0 items Hco)
    as (q1 & Hrun1 & Hco1 & Hc1 & Hr1).
  { rewrite Hnil, Hroom. cbn [length]. lia. }
  rewrite Hnil in Hc1. cbn [app] in Hc1.
  destruct (run_dequeues Mpsc.do_call Mpsc.well_formed Mpsc.contents Mpsc.room
              mpsc_call_dequeue_accept q1 d items [] Hco1)
    as (q2 & Hrun2 & _).
  { by rewrite app_nil_r. }
  exists q0, q1, q2. repeat split; try done.
  apply mpsc_enqueue_reject; [done|].
  fold (Mpsc.room q1). rewrite Hc1, Hr1, Hroom. done.
Qed.

(** At capacity [SIZE_MAX] the very first of the [C] enqueues is
    undefined, on either class. *)
Lemma full_rejection_fails_at_SIZE_MAX (x d : T) :
  0 <= max_size ->
  ~ spsc_full_rejection max_size T0 SIZE_MAX
      (replicate (Z.to_nat SIZE_MAX) x) x d /\
  ~ mpsc_full_rejection max_size T0 SIZE_MAX
      (replicate (Z.to_nat SIZE_MAX) x) x d.
Proof.
  intros Hm.
  assert (exists n, Z.to_nat SIZE_MAX = S n) as [n Hn].
  { exists (Z.to_nat (SIZE_MAX - 1)). unfold SIZE_MAX. lia. }
  split.
  - intros (q0 & q1 & q2 & Hctor & Hrun & _).
    rewrite spsc_ctor_wraps in Hctor by done. injection Hctor as <-.
    rewrite Hn in Hrun. discriminate Hrun.
  - intros (q0 & q1 & q2 & Hctor & Hrun & _).
    rewrite mpsc_ctor_wraps in Hctor by done. injection Hctor as <-.
    rewrite Hn in Hrun. discriminate Hrun.
Qed.
End full_rejection.

(** C3: for every capacity [1 <= C] below [max_size()], on a freshly
    constructed queue of either class, [C] enqueues return true, one more
    returns false and leaves the whole object unchanged, and [C] dequeues
    then return the [C] items in their enqueue order.  At capacity
    [SIZE_MAX] the claim fails for both classes: the guard meant to refuse
    such a capacity never fires, the constructed queue has no slot, and the
    first of the [C] enqueues takes a remainder by zero. *)
Theorem C3_full_rejection {T : Type} (max_size : Z) (T0 : T) (capacity : Z)
  (items : list T) (x d : T) :
1 <= capacity < max_size ->
max_size <= SIZE_MAX ->
Z.of_nat (length items) = capacity ->
(spsc_full_rejection max_size T0 capacity items x d /\
 mpsc_full_rejection max_size T0 capacity items x d) /\
(exists q0, Spsc.SpscQueue_ctor max_size T0 SIZE_MAX = Constructed q0 /\
            forall y, Spsc.enqueue q0 y = Undefined) /\
(exists q0, Mpsc.MpscQueue_ctor max_size T0 SIZE_MAX = Constructed q0 /\
            forall y, Mpsc.enqueue q0 y = Undefined) /\
~ spsc_full_rejection max_size T0 SIZE_MAX
    (replicate (Z.to_nat SIZE_MAX) x) x d /\
~ mpsc_full_rejection max_size T0 SIZE_MAX
    (replicate (Z.to_nat SIZE_MAX) x) x d.
Proof.
intros Hc Hm Hn. split; [split|split; [|split]].
- by apply spsc_full_rejection_holds.
- by apply mpsc_full_rejection_holds.
- rewrite spsc_ctor_wraps by lia. eexists. split; [done|].
  apply spsc_slotless_enqueue.
- rewrite mpsc_ctor_wraps by lia. eexists. split; [done|].
  apply mpsc_slotless_enqueue.
- apply full_rejection_fails_at_SIZE_MAX. lia.
Qed.

Lemma C3_full_rejection_witness :
1 <= 2 < 1000 /\ 1000 <= SIZE_MAX /\ Z.of_nat (length [10; 20]) = 2 /\
(spsc_full_rejection 1000 0 2 [10; 20] 30 0 /\
 mpsc_full_rejection 1000 0 2 [10; 20] 30 0) /\
(exists q0, Spsc.SpscQueue_ctor 1000 0 SIZE_MAX = Constructed q0 /\
            forall y, Spsc.enqueue q0 y = Undefined) /\
(exists q0, Mpsc.MpscQueue_ctor 1000 0 SIZE_MAX = Constructed q0 /\
            forall y, Mpsc.enqueue q0 y = Undefined) /\
~ spsc_full_rejection 1000 0 SIZE_MAX (replicate (Z.to_nat SIZE_MAX) 30) 30 0 /\
~ mpsc_full_rejection 1000 0 SIZE_MAX (replicate (Z.to_nat SIZE_MAX) 30) 30 0.
Proof.
assert (1 <= 2 < 1000) as H1 by lia.
assert (1000 <= SIZE_MAX) as H2 by (unfold SIZE_MAX; lia).
assert (Z.of_nat (length [10; 20]) = 2) as H3 by reflexivity.
exact (conj H1 (conj H2 (conj H3
         (C3_full_rejection 1000 0 2 [10; 20] 30 0 H1 H2 H3)))).
Defined.

(** ** C4: a fresh queue is empty *)

(** C4: for every capacity [C >= 1], right after a construction of either
    queue that succeeded, [is_empty()] returns true and a [dequeue] returns
    false, leaving the out-parameter and the whole object as they were; and
    construction does succeed for every capacity below [max_size()]. *)
Theorem C4_fresh_queue_is_empty {T : Type} (max_size : Z) (T0 : T)
  (capacity : Z) (item : T) :
1 <= capacity ->
(forall q0, Spsc.SpscQueue_ctor max_size T0 capacity = Constructed q0 ->
            Spsc.is_empty q0 = true /\
            Spsc.dequeue q0 item = Ret (false, item, q0)) /\
(forall q0, Mpsc.MpscQueue_ctor max_size T0 capacity = Constructed q0 ->
            Mpsc.is_empty q0 = true /\
            Mpsc.dequeue q0 item = Ret (false, item, q0)) /\
(capacity < max_size -> max_size <= SIZE_MAX ->
 (exists q0, Spsc.SpscQueue_ctor max_size T0 capacity = Constructed q0) /\
 (exists q0, Mpsc.MpscQueue_ctor max_size T0 capacity = Constructed q0)).
Proof.
intros Hc. split; [|split].
- intros q0 Hctor. by rewrite (spsc_ctor_fresh _ _ _ _ Hctor).
- intros q0 Hctor. by rewrite (mpsc_ctor_fresh _ _ _ _ Hctor).
- intros Hlt Hm.
  rewrite spsc_ctor_constructs, mpsc_ctor_constructs by lia. eauto.
Qed.

Lemma C4_fresh_queue_is_empty_witness :
1 <= 4 /\
(exists q0, Spsc.SpscQueue_ctor 1000 0 4 = Constructed q0 /\
            Spsc.is_empty q0 = true /\
            Spsc.dequeue q0 99 = Ret (false, 99, q0)) /\
(exists q0, Mpsc.MpscQueue_ctor 1000 0 4 = Constructed q0 /\
            Mpsc.is_empty q0 = true /\
            Mpsc.dequeue q0 99 = Ret (false, 99, q0)).
Proof.
assert (1 <= 4) as H1 by lia.
assert (4 < 1000) as H2 by lia.
assert (1000 <= SIZE_MAX) as H3 by (unfold SIZE_MAX; lia).
destruct (C4_fresh_queue_is_empty 1000 0 4 99 H1) as (Hs & Hm & Hex).
destruct (Hex H2 H3) as ((qs & Hqs) & (qm & Hqm)).
split; [exact H1|]. split.
- exists qs. split; [exact Hqs|]. exact (Hs qs Hqs).
- exists qm. split; [exact Hqm|]. exact (Hm qm Hqm).
Defined.

(** ** C5: wrap-around *)

(** C5: on a queue of capacity 4 of either class (a vector of 5 slots,
    which [max_size()] must allow), enqueue 1, 2, 3, 4, dequeue twice (1
    and 2 come out), enqueue 5 and 6 (the tail wraps past the end of the
    vector), dequeue four times: 3, 4, 5, 6 come out, and every one of
    these calls returns true. *)
Theorem C5_wrap_around (max_size : Z) :
5 <= max_size ->
(exists q0 q,
   Spsc.SpscQueue_ctor max_size 0 4 = Constructed q0 /\
   Spsc.do_calls q0
     [call_enqueue 1; call_enqueue 2; call_enqueue 3; call_enqueue 4;
      call_dequeue 0; call_dequeue 0;
      call_enqueue 5; call_enqueue 6;
      call_dequeue 0; call_dequeue 0; call_dequeue 0; call_dequeue 0]
   = Ret ([enqueue_reply true; enqueue_reply true; enqueue_reply true;
           enqueue_reply true;
           dequeue_reply true 1; dequeue_reply true 2;
           enqueue_reply true; enqueue_reply true;
           dequeue_reply true 3; dequeue_reply true 4;
           dequeue_reply true 5; dequeue_reply true 6], q)) /\
(exists q0 q,
   Mpsc.MpscQueue_ctor max_size 0 4 = Constructed q0 /\
   Mpsc.do_calls q0
     [call_enqueue 1; call_enqueue 2; call_enqueue 3; call_enqueue 4;
      call_dequeue 0; call_dequeue 0;
      call_enqueue 5; call_enqueue 6;
      call_dequeue 0; call_dequeue 0; call_dequeue 0; call_dequeue 0]
   = Ret ([enqueue_reply true; enqueue_reply true; enqueue_reply true;
           enqueue_reply true;
           dequeue_reply true 1; dequeue_reply true 2;
           enqueue_reply true; enqueue_reply true;
           dequeue_reply true 3; dequeue_reply true 4;
           dequeue_reply true 5; dequeue_reply true 6], q)).
Proof.
intros Hm.
rewrite spsc_ctor_cases, mpsc_ctor_cases.
change (size_t (4 + 1)) with 5.
destruct (Z.ltb_spec max_size 5); [lia|].
split; do 2 eexists; (split; [reflexivity|]); vm_compute; reflexivity.
Qed.

Lemma C5_wrap_around_witness :
5 <= 5 /\
(exists q0 q,
   Spsc.SpscQueue_ctor 5 0 4 = Constructed q0 /\
   Spsc.do_calls q0
     [call_enqueue 1; call_enqueue 2; call_enqueue 3; call_enqueue 4;
      call_dequeue 0; call_dequeue 0;
      call_enqueue 5; call_enqueue 6;
      call_dequeue 0; call_dequeue 0; call_dequeue 0; call_dequeue 0]
   = Ret ([enqueue_reply true; enqueue_reply true; enqueue_reply true;
           enqueue_reply true;
           dequeue_reply true 1; dequeue_reply true 2;
           enqueue_reply true; enqueue_reply true;
           dequeue_reply true 3; dequeue_reply true 4;
           dequeue_reply true 5; dequeue_reply true 6], q)) /\
(exists q0 q,
   Mpsc.MpscQueue_ctor 5 0 4 = Constructed q0 /\
   Mpsc.do_calls q0
     [call_enqueue 1; call_enqueue 2; call_enqueue 3; call_enqueue 4;
      call_dequeue 0; call_dequeue 0;
      call_enqueue 5; call_enqueue 6;
      call_dequeue 0; call_dequeue 0; call_dequeue 0; call_dequeue 0]
   = Ret ([enqueue_reply true; enqueue_reply true; enqueue_reply true;
           enqueue_reply true;
           dequeue_reply true 1; dequeue_reply true 2;
           enqueue_reply true; enqueue_reply true;
           dequeue_reply true 3; dequeue_reply true 4;
           dequeue_reply true 5; dequeue_reply true 6], q)).
Proof.
assert (5 <= 5) as H1 by lia.
exact (conj H1 (C5_wrap_around 5 H1)).
Defined.

(** ** C2: the capacity check *)

(** C2 (what the code does at the input the claim names): neither
    constructor ever throws [std::invalid_argument], whatever the
    capacity.  In particular capacity 0 is accepted wherever a vector of
    one element can be built, and so is [SIZE_MAX], the one capacity whose
    successor overflows. *)
Theorem C2_invalid_capacity_never_raised {T : Type} (max_size : Z) (T0 : T)
  (capacity : Z) :
1 <= max_size ->
Spsc.SpscQueue_ctor max_size T0 capacity <> Thrown invalid_argument /\
Mpsc.MpscQueue_ctor max_size T0 capacity <> Thrown invalid_argument /\
(exists q, Spsc.SpscQueue_ctor max_size T0 0 = Constructed q) /\
(exists q, Mpsc.MpscQueue_ctor max_size T0 0 = Constructed q) /\
(exists q, Spsc.SpscQueue_ctor max_size T0 SIZE_MAX = Constructed q /\
           Spsc.buffer_ q = []).
Proof.
intros Hm.
rewrite (spsc_ctor_wraps max_size T0) by lia.
rewrite !spsc_ctor_cases, !mpsc_ctor_cases.
change (size_t (0 + 1)) with 1.
destruct (Z.ltb_spec max_size 1); [lia|].
destruct (max_size <? size_t (capacity + 1)).
- repeat split; try done; eauto.
- repeat split; try done; eauto.
Qed.

Lemma C2_invalid_capacity_never_raised_witness :
1 <= 1000 /\
Spsc.SpscQueue_ctor 1000 0 0 <> Thrown invalid_argument /\
Mpsc.MpscQueue_ctor 1000 0 0 <> Thrown invalid_argument /\
(exists q, Spsc.SpscQueue_ctor 1000 0 0 = Constructed q) /\
(exists q, Mpsc.MpscQueue_ctor 1000 0 0 = Constructed q) /\
(exists q, Spsc.SpscQueue_ctor 1000 0 SIZE_MAX = Constructed q /\
           Spsc.buffer_ q = []).
Proof.
assert (1 <= 1000) as H1 by lia.
exact (conj H1 (C2_invalid_capacity_never_raised 1000 0 0 H1)).
Defined.

(** ** C10: capacity zero *)

Section capacity_zero.
Context {T : Type} (T0 : T).

Lemma spsc_capacity_zero_call (c : call T) :
  Spsc.do_call (Spsc.mkSpscQueue [T0] 0 0 0 0) c
  = Ret (refusal c, Spsc.mkSpscQueue [T0] 0 0 0 0).
Proof. by destruct c. Qed.

Lemma mpsc_capacity_zero_call (c : call T) :
  Mpsc.do_call (Mpsc.mkMpscQueue [T0] 0 0 0) c
  = Ret (refusal c, Mpsc.mkMpscQueue [T0] 0 0 0).
Proof. by destruct c. Qed.
End capacity_zero.

(** C10: constructing either queue with capacity 0 does not fail (wherever
    a vector of one element can be built); the vector has length 1; from
    then on every [enqueue] returns false, every [dequeue] returns false
    without touching the out-parameter, every [is_empty()] returns true,
    and the object never changes. *)
Theorem C10_capacity_zero {T : Type} (max_size : Z) (T0 : T)
  (cs : list (call T)) :
1 <= max_size ->
(exists q0, Spsc.SpscQueue_ctor max_size T0 0 = Constructed q0 /\
            size (Spsc.buffer_ q0) = 1 /\
            Spsc.do_calls q0 cs = Ret (map refusal cs, q0)) /\
(exists q0, Mpsc.MpscQueue_ctor max_size T0 0 = Constructed q0 /\
            size (Mpsc.buffer_ q0) = 1 /\
            Mpsc.do_calls q0 cs = Ret (map refusal cs, q0)).
Proof.
intros Hm.
rewrite spsc_ctor_cases, mpsc_ctor_cases.
change (size_t (0 + 1)) with 1.
destruct (Z.ltb_spec max_size 1); [lia|].
split.
- exists (Spsc.mkSpscQueue [T0] 0 0 0 0). split; [done|]. split; [done|].
  unfold Spsc.do_calls. induction cs as [|c cs IH]; [done|].
  cbn [run_calls map]. rewrite spsc_capacity_zero_call.
  cbn [mbind outcome_bind]. by rewrite IH.
- exists (Mpsc.mkMpscQueue [T0] 0 0 0). split; [done|]. split; [done|].
  unfold Mpsc.do_calls. induction cs as [|c cs IH]; [done|].
  cbn [run_calls map]. rewrite mpsc_capacity_zero_call.
  cbn [mbind outcome_bind]. by rewrite IH.
Qed.

Lemma C10_capacity_zero_witness :
1 <= 1000 /\
(exists q0, Spsc.SpscQueue_ctor 1000 0 0 = Constructed q0 /\
            size (Spsc.buffer_ q0) = 1 /\
            Spsc.do_calls q0 [call_enqueue 7; call_dequeue 9; call_is_empty]
            = Ret (map refusal [call_enqueue 7; call_dequeue 9;
                                call_is_empty], q0)) /\
(exists q0, Mpsc.MpscQueue_ctor 1000 0 0 = Constructed q0 /\
            size (Mpsc.buffer_ q0) = 1 /\
            Mpsc.do_calls q0 [call_enqueue 7; call_dequeue 9; call_is_empty]
            = Ret (map refusal [call_enqueue 7; call_dequeue 9;
                                call_is_empty], q0)).
Proof.
assert (1 <= 1000) as H1 by lia.
exact (conj H1 (C10_capacity_zero 1000 0
                  [call_enqueue 7; call_dequeue 9; call_is_empty] H1)).
Defined.

(** ** C6: state invariants *)

Section total_runs.
Context {T Q : Type}.
Variable do_call : Q -> call T -> outcome (reply T * Q).
Variable inv : Q -> Prop.
Variable room : Q -> Z.

Hypothesis call_total : forall q c,
  inv q ->
  exists r q', do_call q c = Ret (r, q') /\ inv q' /\ room q' = room q.

(** Whatever calls are made, each returns and the invariant is kept. *)
Lemma run_calls_total q cs :
  inv q ->
  exists rs q', run_calls do_call q cs = Ret (rs, q') /\
                inv q' /\ room q' = room q.
Proof.
  revert q. induction cs as [|c cs IH]; intros q Hinv.
  - by exists [], q.
  - destruct (call_total q c Hinv) as (r & q1 & Hcall & Hinv1 & Hr1).
    destruct (IH q1 Hinv1) as (rs & q2 & Hrun & Hinv2 & Hr2).
    exists (r :: rs), q2. cbn [run_calls]. rewrite Hcall.
    cbn [mbind outcome_bind]. rewrite Hrun.
    split; [done|]. split; [done|congruence].
Qed.
End total_runs.

Section invariants.
Context {T : Type}.
Implicit Types (buf : list T) (h t : Z).

Lemma ring_ok_invariants capacity buf h t :
  ring_ok buf h t ->
  size buf = capacity + 1 ->
  ring_invariants capacity buf h t.
Proof.
  intros Hok Hsize. pose proof Hok as (Hlen & Hh & Ht).
  pose proof (ring_contents_length buf h t Hok) as Hcount.
  assert ((t + 1) mod size buf = if t + 1 =? size buf then 0 else t + 1)
    as Hnext.
  { destruct (Z.eqb_spec (t + 1) (size buf)) as [->|].
    - apply Z.mod_same; lia.
    - apply Z.mod_small; lia. }
  unfold ring_invariants. rewrite Hnext, Hcount.
  repeat split; try lia.
  - intros Hnil. rewrite Hnil in Hcount. cbn [length] in Hcount. ring_arith.
  - intros ->. apply ring_contents_nil.
  - intros Hfull. ring_arith.
  - intros Hfull. ring_arith.
Qed.

Lemma spsc_coherent_invariants capacity (q : @Spsc.SpscQueue T) :
  Spsc.coherent q ->
  Spsc.room q = capacity ->
  ring_invariants capacity (Spsc.buffer_ q) (Spsc.head_ q) (Spsc.tail_ q) /\
  (Spsc.is_empty q = true <-> Spsc.contents q = []) /\
  (forall item, Spsc.dequeue q item = Ret (false, item, q)
                <-> Spsc.contents q = []) /\
  (forall item, Spsc.enqueue q item = Ret (false, q)
                <-> Z.of_nat (length (Spsc.contents q)) = capacity).
Proof.
  intros Hco Hroom. pose proof Hco as (Hok & _).
  assert (ring_invariants capacity (Spsc.buffer_ q) (Spsc.head_ q)
            (Spsc.tail_ q)) as Hinv.
  { apply ring_ok_invariants; [done|]. unfold Spsc.room in Hroom. lia. }
  split; [done|]. destruct Hinv as (_ & _ & _ & Hempty & _).
  split; [|split].
  - unfold Spsc.is_empty. fold (Spsc.contents q) in Hempty.
    rewrite Hempty. apply Z.eqb_eq.
  - intros item. split.
    + intros Hdeq. destruct (Spsc.contents q) as [|x l] eqn:Hc; [done|].
      destruct (spsc_dequeue_accept q item x l Hco Hc) as (q' & Hacc & _).
      congruence.
    + by apply spsc_dequeue_reject.
  - intros item. split.
    + intros Henq. pose proof (spsc_contents_bound q Hco) as Hb.
      destruct (Z.eq_dec (Z.of_nat (length (Spsc.contents q))) capacity)
        as [|Hne]; [done|].
      destruct (spsc_enqueue_accept q item Hco) as (q' & Hacc & _).
      { unfold Spsc.room in *. lia. }
      congruence.
    + intros Hfull. apply spsc_enqueue_reject; [done|].
      unfold Spsc.room in *. lia.
Qed.

Lemma mpsc_well_formed_invariants capacity (q : @Mpsc.MpscQueue T) :
  Mpsc.well_formed q ->
  Mpsc.room q = capacity ->
  ring_invariants capacity (Mpsc.buffer_ q) (Mpsc.head_ q) (Mpsc.tail_ q) /\
  (Mpsc.is_empty q = true <-> Mpsc.contents q = []) /\
  (forall item, Mpsc.dequeue q item = Ret (false, item, q)
                <-> Mpsc.contents q = []) /\
  (forall item, Mpsc.enqueue q item = Ret (false, q)
                <-> Z.of_nat (length (Mpsc.contents q)) = capacity).
Proof.
  intros Hok Hroom.
  assert (ring_invariants capacity (Mpsc.buffer_ q) (Mpsc.head_ q)
            (Mpsc.tail_ q)) as Hinv.
  { apply ring_ok_invariants; [done|]. unfold Mpsc.room in Hroom. lia. }
  split; [done|]. destruct Hinv as (_ & _ & _ & Hempty & _).
  split; [|split].
  - unfold Mpsc.is_empty. fold (Mpsc.contents q) in Hempty.
    rewrite Hempty. apply Z.eqb_eq.
  - intros item. split.
    + intros Hdeq. destruct (Mpsc.contents q) as [|x l] eqn:Hc; [done|].
      destruct (mpsc_dequeue_accept q item x l Hok Hc) as (q' & Hacc & _).
      congruence.
    + by apply mpsc_dequeue_reject.
  - intros item. split.
    + intros Henq. pose proof (mpsc_contents_bound q Hok) as Hb.
      destruct (Z.eq_dec (Z.of_nat (length (Mpsc.contents q))) capacity)
        as [|Hne]; [done|].
      destruct (mpsc_enqueue_accept q item Hok) as (q' & Hacc & _).
      { unfold Mpsc.room in *. lia. }
      congruence.
    + intros Hfull. apply mpsc_enqueue_reject; [done|].
      unfold Mpsc.room in *. lia.
Qed.
End invariants.

(** C6: for a queue of either class constructed with a capacity
    [0 <= C] below [max_size()], after any sequence of calls the vector
    length is [C + 1], both cursors lie in [[0, C + 1)], the queue holds no
    item exactly when [head == tail] and holds [C] items exactly when
    [(tail + 1) mod length == head]; [is_empty], a refused [dequeue] and a
    refused [enqueue] report exactly these two conditions.  At capacity
    [SIZE_MAX] the claim fails for both classes: the guard meant to refuse
    such a capacity never fires and the constructed object has a vector of
    length 0, not [capacity + 1], in which no cursor value lies. *)
Theorem C6_state_invariants {T : Type} (max_size : Z) (T0 : T)
  (capacity : Z) (cs : list (call T)) :
0 <= capacity < max_size ->
max_size <= SIZE_MAX ->
(spsc_invariants_after max_size T0 capacity cs /\
 mpsc_invariants_after max_size T0 capacity cs) /\
(exists q0, Spsc.SpscQueue_ctor max_size T0 SIZE_MAX = Constructed q0 /\
            size (Spsc.buffer_ q0) = 0 /\
            Spsc.head_ q0 = 0 /\ Spsc.tail_ q0 = 0) /\
(exists q0, Mpsc.MpscQueue_ctor max_size T0 SIZE_MAX = Constructed q0 /\
            size (Mpsc.buffer_ q0) = 0 /\
            Mpsc.head_ q0 = 0 /\ Mpsc.tail_ q0 = 0) /\
~ spsc_invariants_after max_size T0 SIZE_MAX [] /\
~ mpsc_invariants_after max_size T0 SIZE_MAX [].
Proof.
intros Hc Hm. split; [split|split; [|split; [|split]]].
- unfold spsc_invariants_after. rewrite spsc_ctor_constructs by lia.
  set (q0 := Spsc.mkSpscQueue _ 0 0 0 0).
  assert (Spsc.coherent q0) as Hco by (apply spsc_fresh_coherent; lia).
  assert (Spsc.room q0 = capacity) as Hroom.
  { unfold Spsc.room. cbn. rewrite fresh_size; lia. }
  destruct (run_calls_total Spsc.do_call Spsc.coherent Spsc.room
              spsc_call_total q0 cs Hco) as (rs & q & Hrun & Hco' & Hr).
  exists q0, rs, q. split; [done|]. split; [done|].
  apply spsc_coherent_invariants; [done|congruence].
- unfold mpsc_invariants_after. rewrite mpsc_ctor_constructs by lia.
  set (q0 := Mpsc.mkMpscQueue _ 0 0 0).
  assert (Mpsc.well_formed q0) as Hco
    by (apply mpsc_fresh_well_formed; lia).
  assert (Mpsc.room q0 = capacity) as Hroom.
  { unfold Mpsc.room. cbn. rewrite fresh_size; lia. }
  destruct (run_calls_total Mpsc.do_call Mpsc.well_formed Mpsc.room
              mpsc_call_total q0 cs Hco) as (rs & q & Hrun & Hco' & Hr).
  exists q0, rs, q. split; [done|]. split; [done|].
  apply mpsc_well_formed_invariants; [done|congruence].
- rewrite spsc_ctor_wraps by lia. by eexists.
- rewrite mpsc_ctor_wraps by lia. by eexists.
- intros (q0 & rs & q & Hctor & Hrun & Hinv & _).
  rewrite spsc_ctor_wraps in Hctor by lia.
  injection Hctor as <-. injection Hrun as _ <-.
  destruct Hinv as (_ & Hhead & _). cbn in Hhead. unfold size in Hhead.
  cbn in Hhead. lia.
- intros (q0 & rs & q & Hctor & Hrun & Hinv & _).
  rewrite mpsc_ctor_wraps in Hctor by lia.
  injection Hctor as <-. injection Hrun as _ <-.
  destruct Hinv as (_ & Hhead & _). cbn in Hhead. unfold size in Hhead.
  cbn in Hhead. lia.
Qed.

Lemma C6_state_invariants_witness :
0 <= 2 < 1000 /\ 1000 <= SIZE_MAX /\
(spsc_invariants_after 1000 0 2
   [call_enqueue 5; call_dequeue 0; call_enqueue 6] /\
 mpsc_invariants_after 1000 0 2
   [call_enqueue 5; call_dequeue 0; call_enqueue 6]) /\
(exists q0, Spsc.SpscQueue_ctor 1000 0 SIZE_MAX = Constructed q0 /\
            size (Spsc.buffer_ q0) = 0 /\
            Spsc.head_ q0 = 0 /\ Spsc.tail_ q0 = 0) /\
(exists q0, Mpsc.MpscQueue_ctor 1000 0 SIZE_MAX = Constructed q0 /\
            size (Mpsc.buffer_ q0) = 0 /\
            Mpsc.head_ q0 = 0 /\ Mpsc.tail_ q0 = 0) /\
~ spsc_invariants_after 1000 0 SIZE_MAX [] /\
~ mpsc_invariants_after 1000 0 SIZE_MAX [].
Proof.
assert (0 <= 2 < 1000) as H1 by lia.
assert (1000 <= SIZE_MAX) as H2 by (unfold SIZE_MAX; lia).
exact (conj H1 (conj H2 (C6_state_invariants 1000 0 2
                  [call_enqueue 5; call_dequeue 0; call_enqueue 6] H1 H2))).
Defined.

(** ** C7: the cached mirrors *)

Section cache.
Context {T : Type}.
Implicit Types (q : @Spsc.SpscQueue T) (item : T).

(** On a coherent queue the cached test and the direct test agree. *)
Lemma spsc_coherent_transparent q item :
  Spsc.coherent q -> spsc_cache_transparent q item.
Proof.
  intros Hco. destruct q as [buf h t hc tc].
  destruct Hco as ((Hlen & Hh & Ht) & Hhc & Htc & Hfree & Havail).
  cbn [Spsc.buffer_ Spsc.head_ Spsc.tail_ Spsc.head_cached_
       Spsc.tail_cached_] in *.
  split.
  - unfold Spsc.enqueue, Spsc.enqueue_ref, Spsc.enqueue_store.
    cbn [Spsc.buffer_ Spsc.head_ Spsc.tail_ Spsc.head_cached_
         Spsc.tail_cached_].
    rewrite rem_next by done. cbn [mbind outcome_bind].
    rewrite assign_Ret by done.
    set (nt := if t + 1 =? size buf then 0 else t + 1).
    destruct (Z.eqb_spec nt hc), (Z.eqb_spec nt h); try done.
    exfalso. subst nt. ring_arith.
  - unfold Spsc.dequeue, Spsc.dequeue_ref, Spsc.dequeue_load.
    cbn [Spsc.buffer_ Spsc.head_ Spsc.tail_ Spsc.head_cached_
         Spsc.tail_cached_].
    destruct (at_Ret buf h Hh) as (x & _ & ->).
    rewrite rem_next by done.
    destruct (Z.eqb_spec h tc), (Z.eqb_spec h t); try done.
    exfalso. ring_arith.
Qed.

Lemma spsc_slotless_transparent q item :
  Spsc.slotless q -> spsc_cache_transparent q item.
Proof.
  destruct q as [buf h t hc tc]. intros (Hb & Hh & Ht & Hhc & Htc).
  cbn in *. subst. done.
Qed.

Lemma spsc_slotless_call q c r q' :
  Spsc.slotless q -> Spsc.do_call q c = Ret (r, q') -> q' = q.
Proof.
  destruct q as [buf h t hc tc]. intros (Hb & Hh & Ht & Hhc & Htc).
  cbn in *. subst.
  destruct c; cbn; unfold mret, outcome_ret; intros Hcall; try done;
    congruence.
Qed.

(** Coherence, or the absence of any slot, survives every run of calls. *)
Lemma spsc_run_keeps_coherence cs q rs q' :
  Spsc.coherent q \/ Spsc.slotless q ->
  Spsc.do_calls q cs = Ret (rs, q') ->
  Spsc.coherent q' \/ Spsc.slotless q'.
Proof.
  unfold Spsc.do_calls. revert q rs.
  induction cs as [|c cs IH]; intros q rs Hq Hrun.
  - by injection Hrun as _ <-.
  - cbn [run_calls] in Hrun.
    destruct (Spsc.do_call q c) as [[r q1]| |] eqn:Hcall; try done.
    cbn [mbind outcome_bind] in Hrun.
    destruct (run_calls Spsc.do_call q1 cs) as [[rs1 q2]| |] eqn:Hrest;
      try done.
    injection Hrun as _ <-. apply (IH q1 rs1); [|done].
    destruct Hq as [Hco|Hsl].
    + destruct (spsc_call_total q c Hco) as (r' & q1' & Hcall' & Hco' & _).
      left. congruence.
    + right. by rewrite (spsc_slotless_call q c r q1 Hsl Hcall).
Qed.

Lemma spsc_fresh_coherent_or_slotless (T0 : T) capacity :
  let q0 := Spsc.mkSpscQueue
              (replicate (Z.to_nat (size_t (capacity + 1))) T0) 0 0 0 0 in
  Spsc.coherent q0 \/ Spsc.slotless q0.
Proof.
  intros q0. subst q0.
  pose proof (size_t_nonneg (capacity + 1)) as Hn.
  assert (size_t (capacity + 1) <= SIZE_MAX) as Hmax.
  { unfold size_t, SIZE_MAX.
    pose proof (Z.mod_pos_bound (capacity + 1) (2 ^ 64)). lia. }
  destruct (Z.eq_dec (size_t (capacity + 1)) 0) as [->|Hne].
  - right. done.
  - left. unfold Spsc.coherent, ring_ok. cbn. rewrite size_replicate.
    repeat split; lia.
Qed.

(** In particular in every state a thread reaches from a construction
    that succeeded, by any sequence of calls. *)
Lemma spsc_reached_transparent max_size (T0 : T) capacity cs q0 q rs item :
  Spsc.SpscQueue_ctor max_size T0 capacity = Constructed q0 ->
  Spsc.do_calls q0 cs = Ret (rs, q) ->
  spsc_cache_transparent q item.
Proof.
  intros Hctor Hrun. rewrite (spsc_ctor_fresh _ _ _ _ Hctor) in Hrun.
  destruct (spsc_run_keeps_coherence cs _ rs q
              (spsc_fresh_coherent_or_slotless T0 capacity) Hrun).
  - by apply spsc_coherent_transparent.
  - by apply spsc_slotless_transparent.
Qed.
End cache.

(** C7: whatever values the cached mirrors hold, as long as each is a
    value its peer's cursor has had and the real cursor has not moved
    further from it than the ring allows ([Spsc.coherent], which the
    constructor establishes and every call preserves), [enqueue] and
    [dequeue] return the same flag and leave the same slots and cursors
    (and the same out-parameter) as the reference versions that test the
    peer's real cursor on every call; and the state they leave is again
    coherent. *)
Theorem C7_cache_transparent {T : Type} (q : @Spsc.SpscQueue T) (item : T) :
Spsc.coherent q ->
spsc_cache_transparent q item /\
(forall c r q', Spsc.do_call q c = Ret (r, q') -> Spsc.coherent q').
Proof.
intros Hco. split; [by apply spsc_coherent_transparent|].
intros c r q' Hcall.
destruct (spsc_call_total q c Hco) as (r' & q1 & Hcall' & Hco' & _).
congruence.
Qed.

(** Three slots, one item held in slot 1; both mirrors are stale: the
    producer's copy of the head still says 0 and the consumer's copy of
    the tail still says 1.  The producer's [next_t] is 0, equal to its
    stale mirror, so the cached [enqueue] must refresh it before it can
    accept. *)
Lemma C7_cache_transparent_witness :
Spsc.coherent (Spsc.mkSpscQueue [10; 20; 0] 1 2 0 1) /\
Spsc.enqueue (Spsc.mkSpscQueue [10; 20; 0] 1 2 0 1) 30
= Ret (true, Spsc.mkSpscQueue [10; 20; 30] 1 0 1 1) /\
Spsc.enqueue_ref (Spsc.mkSpscQueue [10; 20; 0] 1 2 0 1) 30
= Ret (true, Spsc.mkSpscQueue [10; 20; 30] 1 0 0 1) /\
Spsc.dequeue (Spsc.mkSpscQueue [10; 20; 0] 1 2 0 1) 99
= Ret (true, 20, Spsc.mkSpscQueue [10; 20; 0] 2 2 0 2) /\
spsc_cache_transparent (Spsc.mkSpscQueue [10; 20; 0] 1 2 0 1) 30 /\
(forall c r q',
    Spsc.do_call (Spsc.mkSpscQueue [10; 20; 0] 1 2 0 1) c = Ret (r, q') ->
    Spsc.coherent q').
Proof.
assert (Spsc.coherent (Spsc.mkSpscQueue [10; 20; 0] 1 2 0 1)) as H1.
{ vm_compute. repeat split; (reflexivity || (intros Hgt; discriminate Hgt)). }
split; [exact H1|]. split; [reflexivity|]. split; [reflexivity|].
split; [reflexivity|].
exact (C7_cache_transparent (Spsc.mkSpscQueue [10; 20; 0] 1 2 0 1) 30 H1).
Defined.

(** ** C8: a refused call changes nothing *)

Section rejection.
Context {T : Type}.

Lemma spsc_enqueue_false (q q' : @Spsc.SpscQueue T) item :
  Spsc.enqueue q item = Ret (false, q') -> q' = q.
Proof.
  destruct q as [buf h t hc tc].
  unfold Spsc.enqueue, Spsc.enqueue_store.
  cbn [Spsc.buffer_ Spsc.head_ Spsc.tail_ Spsc.head_cached_ Spsc.tail_cached_].
  destruct (rem (size_t (t + 1)) (size buf)) as [nt| |]; try done.
  cbn [mbind outcome_bind mret outcome_ret].
  destruct (Z.eqb_spec nt hc) as [Hhc|_].
  - destruct (Z.eqb_spec nt h) as [Hh|_].
    + intros [= <-]. congruence.
    + by destruct (assign buf t item).
  - by destruct (assign buf t item).
Qed.

Lemma spsc_dequeue_false (q q' : @Spsc.SpscQueue T) item item' :
  Spsc.dequeue q item = Ret (false, item', q') -> item' = item /\ q' = q.
Proof.
  destruct q as [buf h t hc tc].
  unfold Spsc.dequeue, Spsc.dequeue_load.
  cbn [Spsc.buffer_ Spsc.head_ Spsc.tail_ Spsc.head_cached_ Spsc.tail_cached_].
  destruct (Z.eqb_spec h tc) as [Htc|_].
  - destruct (Z.eqb_spec h t) as [Ht|_].
    + intros [= <- <-]. split; congruence.
    + destruct (at_ buf h); try done. cbn [mbind outcome_bind].
      by destruct (rem _ _).
  - destruct (at_ buf h); try done. cbn [mbind outcome_bind].
    by destruct (rem _ _).
Qed.

Lemma mpsc_enqueue_false (q q' : @Mpsc.MpscQueue T) item :
  Mpsc.enqueue q item = Ret (false, q') -> q' = q.
Proof.
  destruct q as [buf h t c]. unfold Mpsc.enqueue. mpsc_step.
  destruct (rem (size_t (t + 1)) (size buf)) as [nt| |]; try done.
  cbn [mbind outcome_bind mret outcome_ret]. mpsc_step.
  destruct (Z.eqb_spec nt h) as [Hh|_]; cbn [mbind outcome_bind mret outcome_ret].
  - mpsc_step. by intros [= <-].
  - mpsc_step. rewrite Z.eqb_refl. cbn [mbind outcome_bind mret outcome_ret].
    mpsc_step. by destruct (assign buf t item).
Qed.

Lemma mpsc_dequeue_false (q q' : @Mpsc.MpscQueue T) item item' :
  Mpsc.dequeue q item = Ret (false, item', q') -> item' = item /\ q' = q.
Proof.
  destruct q as [buf h t c]. unfold Mpsc.dequeue. mpsc_step. mpsc_step.
  destruct (Z.eqb_spec h t) as [Ht|_]; cbn [mbind outcome_bind mret outcome_ret].
  - mpsc_step. by intros [= <- <-].
  - mpsc_step. destruct (at_ buf h); try done.
    cbn [mbind outcome_bind mret outcome_ret]. mpsc_step.
    by destruct (rem _ _).
Qed.

(** Once the slot write is the next step, the call can only return true. *)
Lemma mpsc_enqueue_trace_write (item : T) t tr r :
  Mpsc.enqueue_trace item (Mpsc.enq_write t) tr r -> r = true.
Proof.
  intros Htr. inversion Htr as [|pc q q' pc' tr' r' _ Hstep Hrest]; subst.
  cbn [Mpsc.enqueue_step] in Hstep.
  destruct (assign (Mpsc.buffer_ q) t item); try done.
  injection Hstep as _ <-.
  inversion Hrest as [|? ? ? ? ? ? Hpc]; subst; [done|]. by destruct (Hpc true).
Qed.

(** A call that returns false has written nothing, whatever other threads
    did between its steps. *)
Lemma mpsc_enqueue_trace_false (item : T) pc tr r :
  Mpsc.enqueue_trace item pc tr r -> r = false -> Forall Mpsc.step_unchanged tr.
Proof.
  induction 1 as [|pc q q' pc' tr r Hpc Hstep Hrest IH]; intros Hr; [done|].
  constructor; [|by apply IH]. cbn [fst snd]. subst r.
  destruct pc as [|t nt|t nt|t|r0]; cbn [Mpsc.enqueue_step] in Hstep.
  - destruct (rem _ _); try done. by injection Hstep as <- _.
  - destruct (nt =? Mpsc.head_ q); by injection Hstep as <- _.
  - destruct (Mpsc.tail_ q =? t); [|by injection Hstep as <- _].
    injection Hstep as _ <-. by apply mpsc_enqueue_trace_write in Hrest.
  - destruct (assign _ _ _); try done. injection Hstep as _ <-.
    inversion Hrest as [|? ? ? ? ? ? Hpc']; subst. by destruct (Hpc' true).
  - by destruct (Hpc r0).
Qed.

Lemma mpsc_dequeue_trace_store pc (item : T) tr r item' :
  Mpsc.dequeue_trace pc item tr r item' ->
  (exists h, pc = Mpsc.deq_read h \/ pc = Mpsc.deq_store_head h) \/
  pc = Mpsc.deq_return true ->
  r = true.
Proof.
  induction 1 as [r item|pc item q q' pc' item' tr r item'' Hpc Hstep Hrest IH].
  - intros [(h & [|])|]; congruence.
  - intros [(h & [->| ->])|Hret]; cbn [Mpsc.dequeue_step] in Hstep.
    + destruct (at_ _ _); try done. injection Hstep as _ <- _.
      apply IH. left. eauto.
    + destruct (rem _ _); try done. injection Hstep as _ <- _.
      apply IH. by right.
    + by destruct (Hpc true).
Qed.

Lemma mpsc_dequeue_trace_false pc (item : T) tr r item' :
  Mpsc.dequeue_trace pc item tr r item' -> r = false ->
  item' = item /\ Forall Mpsc.step_unchanged tr.
Proof.
  induction 1 as [r item|pc item q q' pc' item' tr r item'' Hpc Hstep Hrest IH];
    intros Hr; [done|]. subst r.
  pose proof (Mpsc.dequeue_stepped _ _ _ _ _ _ _ _ _ Hpc Hstep Hrest) as Htr.
  destruct pc as [|h|h|h|r0]; cbn [Mpsc.dequeue_step] in Hstep.
  - injection Hstep as <- <- <-. destruct IH as [-> ?]; [done|].
    split; [done|]. by constructor.
  - destruct (h =? Mpsc.tail_ q); injection Hstep as <- <- <-;
      (destruct IH as [-> ?]; [done|]); (split; [done|]); by constructor.
  - by apply mpsc_dequeue_trace_store in Htr; [|left; eauto].
  - by apply mpsc_dequeue_trace_store in Htr; [|left; eauto].
  - by destruct (Hpc r0).
Qed.
End rejection.

(** C8: for both queues, whenever [enqueue] or [dequeue] returns false the
    call has returned normally and the object is exactly as before the call:
    both cursors, every slot, the cached mirrors, and the out-parameter of
    [dequeue].  For [MpscQueue] this also holds step by step when other
    threads run in between: no step of a refused call writes. *)
Theorem C8_rejection_atomic {T : Type} (sq : Spsc.SpscQueue)
    (mq : Mpsc.MpscQueue) (item : T) :
  (forall q', Spsc.enqueue sq item = Ret (false, q') -> q' = sq) /\
  (forall item' q', Spsc.dequeue sq item = Ret (false, item', q') ->
                    item' = item /\ q' = sq) /\
  (forall q', Mpsc.enqueue mq item = Ret (false, q') -> q' = mq) /\
  (forall item' q', Mpsc.dequeue mq item = Ret (false, item', q') ->
                    item' = item /\ q' = mq) /\
  (forall tr, Mpsc.enqueue_trace item Mpsc.enq_load_tail tr false ->
              Forall Mpsc.step_unchanged tr) /\
  (forall tr item', Mpsc.dequeue_trace Mpsc.deq_load_head item tr false item' ->
                    item' = item /\ Forall Mpsc.step_unchanged tr).
Proof.
  split; [|split; [|split; [|split; [|split]]]].
  - intros q'. apply spsc_enqueue_false.
  - intros item' q'. apply spsc_dequeue_false.
  - intros q'. apply mpsc_enqueue_false.
  - intros item' q'. apply mpsc_dequeue_false.
  - intros tr Htr. by apply (mpsc_enqueue_trace_false _ _ _ _ Htr).
  - intros tr item' Htr. by apply (mpsc_dequeue_trace_false _ _ _ _ _ Htr).
Qed.

(** A full and an empty queue of capacity 1 of each class: the refused calls
    happen, and leave them unchanged. *)
Lemma C8_rejection_atomic_witness :
  Spsc.enqueue (Spsc.mkSpscQueue [10; 20] 1 0 1 1) 30
  = Ret (false, Spsc.mkSpscQueue [10; 20] 1 0 1 1) /\
  Spsc.dequeue (Spsc.mkSpscQueue [10; 20] 1 1 1 1) 30
  = Ret (false, 30, Spsc.mkSpscQueue [10; 20] 1 1 1 1) /\
  Mpsc.enqueue (Mpsc.mkMpscQueue [10; 20] 1 0 0) 30
  = Ret (false, Mpsc.mkMpscQueue [10; 20] 1 0 0) /\
  Mpsc.dequeue (Mpsc.mkMpscQueue [10; 20] 1 1 0) 30
  = Ret (false, 30, Mpsc.mkMpscQueue [10; 20] 1 1 0) /\
  Mpsc.enqueue_trace 30 Mpsc.enq_load_tail
    [(Mpsc.mkMpscQueue [10; 20] 1 0 0, Mpsc.mkMpscQueue [10; 20] 1 0 0);
     (Mpsc.mkMpscQueue [10; 20] 1 0 0, Mpsc.mkMpscQueue [10; 20] 1 0 0)]
    false /\
  Forall Mpsc.step_unchanged
    [(Mpsc.mkMpscQueue [10; 20] 1 0 0, Mpsc.mkMpscQueue [10; 20] 1 0 0);
     (Mpsc.mkMpscQueue [10; 20] 1 0 0, Mpsc.mkMpscQueue [10; 20] 1 0 0)].
Proof.
  assert (Mpsc.enqueue_trace 30 Mpsc.enq_load_tail
    [(Mpsc.mkMpscQueue [10; 20] 1 0 0, Mpsc.mkMpscQueue [10; 20] 1 0 0);
     (Mpsc.mkMpscQueue [10; 20] 1 0 0, Mpsc.mkMpscQueue [10; 20] 1 0 0)]
    false) as Htr.
  { eapply Mpsc.enqueue_stepped; [discriminate|reflexivity|].
    eapply Mpsc.enqueue_stepped; [discriminate|reflexivity|].
    apply Mpsc.enqueue_returned. }
  pose proof (C8_rejection_atomic (Spsc.mkSpscQueue [10; 20] 1 0 1 1)
                (Mpsc.mkMpscQueue [10; 20] 1 0 0) 30)
    as (_ & _ & _ & _ & Hsteps & _).
  repeat split; try reflexivity; [exact Htr|exact (Hsteps _ Htr)].
Defined.

(** ** C9: the slot write comes after the tail is published *)

Section visibility.
Context {T : Type}.

(** Only the step at the write program point changes a slot. *)
Lemma mpsc_enqueue_step_writes (item : T) q pc q' pc' :
  Mpsc.enqueue_step item q pc = Ret (q', pc') ->
  Mpsc.buffer_ q' <> Mpsc.buffer_ q ->
  exists t, pc = Mpsc.enq_write t.
Proof.
  destruct pc as [|t nt|t nt|t|r]; cbn [Mpsc.enqueue_step]; intros Hstep Hbuf.
  - destruct (rem _ _); try done. injection Hstep as <- _. done.
  - destruct (nt =? Mpsc.head_ q); injection Hstep as <- _; done.
  - destruct (Mpsc.tail_ q =? t); injection Hstep as <- _; done.
  - by exists t.
  - injection Hstep as <- _. done.
Qed.

(** The write program point is entered only by winning the
    compare-exchange, which has then already advanced the tail. *)
Lemma mpsc_enqueue_step_claims (item : T) q pc q' t :
  Mpsc.enqueue_step item q pc = Ret (q', Mpsc.enq_write t) ->
  exists next_t,
    pc = Mpsc.enq_cas t next_t /\ Mpsc.tail_ q = t /\
    Mpsc.tail_ q' = next_t /\ Mpsc.buffer_ q' = Mpsc.buffer_ q /\
    Mpsc.head_ q' = Mpsc.head_ q.
Proof.
  destruct pc as [|t0 nt|t0 nt|t0|r]; cbn [Mpsc.enqueue_step]; intros Hstep.
  - by destruct (rem _ _).
  - by destruct (nt =? Mpsc.head_ q).
  - destruct (Z.eqb_spec (Mpsc.tail_ q) t0); [|done].
    injection Hstep as <- <-. by exists nt.
  - by destruct (assign _ _ _).
  - done.
Qed.
(** The step at the write program point stores the caller's item in the
    claimed slot, touches neither cursor, and is the last before the
    return of [true]. *)
Lemma mpsc_enqueue_step_stores (item : T) q t q' pc' :
  Mpsc.enqueue_step item q (Mpsc.enq_write t) = Ret (q', pc') ->
  pc' = Mpsc.enq_return true /\
  0 <= t < size (Mpsc.buffer_ q) /\
  Mpsc.buffer_ q' = <[Z.to_nat t := item]> (Mpsc.buffer_ q) /\
  Mpsc.head_ q' = Mpsc.head_ q /\ Mpsc.tail_ q' = Mpsc.tail_ q.
Proof.
  cbn [Mpsc.enqueue_step]. unfold assign.
  destruct (Z.leb_spec 0 t); [|done].
  destruct (Z.ltb_spec t (size (Mpsc.buffer_ q))); [|done].
  cbn. unfold mret, outcome_ret. intros [= <- <-]. repeat split; lia.
Qed.
End visibility.

(** C9: in [MpscQueue::enqueue] the item is written into the claimed slot,
    and only there, by the step that comes after the winning
    compare-exchange has advanced the tail.  So there is an interleaving,
    here on a fresh queue of any capacity [1 <= C] below [max_size()] with
    one producer enqueueing [x], in which the consumer sees the advanced
    tail, takes the slot as deliverable and returns true with the slot's
    initial content [T0], while the producer is still in front of its write
    and no slot has been written.  When the producer then performs its
    write and returns true, [x] sits in slot 0 of a queue whose head and
    tail are both 1: the queue is empty and [x] was never delivered. *)
Theorem C9_visibility_gap {T : Type} (max_size : Z) (T0 x d : T)
    (capacity : Z) :
  1 <= capacity < max_size ->
  max_size <= SIZE_MAX ->
  (forall item q pc q' pc',
     Mpsc.enqueue_step (T:=T) item q pc = Ret (q', pc') ->
     Mpsc.buffer_ q' <> Mpsc.buffer_ q ->
     exists t, pc = Mpsc.enq_write t) /\
  (forall item q pc q' t,
     Mpsc.enqueue_step (T:=T) item q pc = Ret (q', Mpsc.enq_write t) ->
     exists next_t,
       pc = Mpsc.enq_cas t next_t /\ Mpsc.tail_ q = t /\
       Mpsc.tail_ q' = next_t /\ Mpsc.buffer_ q' = Mpsc.buffer_ q /\
       Mpsc.head_ q' = Mpsc.head_ q) /\
  (forall item q t q' pc',
     Mpsc.enqueue_step (T:=T) item q (Mpsc.enq_write t) = Ret (q', pc') ->
     pc' = Mpsc.enq_return true /\
     0 <= t < size (Mpsc.buffer_ q) /\
     Mpsc.buffer_ q' = <[Z.to_nat t := item]> (Mpsc.buffer_ q) /\
     Mpsc.head_ q' = Mpsc.head_ q /\ Mpsc.tail_ q' = Mpsc.tail_ q) /\
  exists q0 s s',
    Mpsc.MpscQueue_ctor max_size T0 capacity = Constructed q0 /\
    Mpsc.schedule_run
      [Mpsc.producer 0; Mpsc.producer 0; Mpsc.producer 0;
       Mpsc.the_consumer; Mpsc.the_consumer; Mpsc.the_consumer;
       Mpsc.the_consumer]
      (Mpsc.mkSystem q0 [(x, Mpsc.enq_load_tail)] (Mpsc.deq_load_head, d))
    = Ret s /\
    Mpsc.producers s = [(x, Mpsc.enq_write 0)] /\
    Mpsc.consumer s = (Mpsc.deq_return true, T0) /\
    Mpsc.buffer_ (Mpsc.shared s) = Mpsc.buffer_ q0 /\
    Mpsc.tail_ (Mpsc.shared s) = 1 /\
    Mpsc.head_ (Mpsc.shared s) = 1 /\
    Mpsc.system_step s (Mpsc.producer 0) = Ret s' /\
    Mpsc.producers s' = [(x, Mpsc.enq_return true)] /\
    Mpsc.consumer s' = (Mpsc.deq_return true, T0) /\
    Mpsc.buffer_ (Mpsc.shared s') = <[0%nat := x]> (Mpsc.buffer_ q0) /\
    Mpsc.buffer_ (Mpsc.shared s') !! 0%nat = Some x /\
    Mpsc.is_empty (Mpsc.shared s') = true.
Proof.
  intros Hc Hm. split; [apply @mpsc_enqueue_step_writes|].
  split; [apply @mpsc_enqueue_step_claims|].
  split; [apply @mpsc_enqueue_step_stores|].
  rewrite mpsc_ctor_constructs by lia.
  set (buf := replicate (Z.to_nat (size_t (capacity + 1))) T0).
  assert (size buf = capacity + 1) as Hsize by (apply fresh_size; lia).
  assert (at_ buf 0 = Ret T0) as Hat.
  { unfold at_. cbn. subst buf. rewrite lookup_replicate_2; [done|].
    rewrite size_t_small by lia. lia. }
  assert (rem (size_t (0 + 1)) (size buf) = Ret 1) as Hrem.
  { rewrite rem_next by lia. by destruct (Z.eqb_spec (0 + 1) (size buf)); [lia|]. }
  assert (assign buf 0 x = Ret (<[0%nat := x]> buf)) as Hassign.
  { by rewrite assign_Ret by lia. }
  exists (Mpsc.mkMpscQueue buf 0 0 0),
         (Mpsc.mkSystem (Mpsc.mkMpscQueue buf 1 1 0)
            [(x, Mpsc.enq_write 0)] (Mpsc.deq_return true, T0)),
         (Mpsc.mkSystem (Mpsc.mkMpscQueue (<[0%nat := x]> buf) 1 1 0)
            [(x, Mpsc.enq_return true)] (Mpsc.deq_return true, T0)).
  split; [done|]. split.
  { cbn -[rem at_ size_t Z.add]. rewrite Hrem.
    cbn -[rem at_ size_t Z.add]. rewrite Hat.
    cbn -[rem at_ size_t Z.add]. rewrite Hrem. done. }
  do 5 (split; [done|]). split.
  { cbn -[assign]. rewrite Hassign. done. }
  do 3 (split; [done|]). split; [|done].
  cbn. apply list_lookup_insert_eq. unfold size in Hsize. lia.
Qed.

Lemma C9_visibility_gap_witness :
  1 <= 1 < 1000 /\ 1000 <= SIZE_MAX /\
  exists s s',
    Mpsc.schedule_run
      [Mpsc.producer 0; Mpsc.producer 0; Mpsc.producer 0;
       Mpsc.the_consumer; Mpsc.the_consumer; Mpsc.the_consumer;
       Mpsc.the_consumer]
      (Mpsc.mkSystem (Mpsc.mkMpscQueue [0; 0] 0 0 0)
         [(42, Mpsc.enq_load_tail)] (Mpsc.deq_load_head, 99))
    = Ret s /\
    Mpsc.producers s = [(42, Mpsc.enq_write 0)] /\
    Mpsc.consumer s = (Mpsc.deq_return true, 0) /\
    Mpsc.buffer_ (Mpsc.shared s) = [0; 0] /\
    Mpsc.system_step s (Mpsc.producer 0) = Ret s' /\
    Mpsc.producers s' = [(42, Mpsc.enq_return true)] /\
    Mpsc.buffer_ (Mpsc.shared s') = [42; 0] /\
    Mpsc.is_empty (Mpsc.shared s') = true.
Proof.
  assert (1 <= 1 < 1000) as H1 by lia.
  assert (1000 <= SIZE_MAX) as H2 by (unfold SIZE_MAX; lia).
  split; [exact H1|]. split; [exact H2|].
  destruct (C9_visibility_gap 1000 0 42 99 1 H1 H2)
    as (_ & _ & _ & q0 & s & s' & Hctor & Hrun & Hprod & Hcons & Hbuf & _
        & _ & Hstep & Hprod' & _ & Hbuf' & _ & Hempty).
  injection Hctor as <-. exists s, s'. repeat split; assumption.
Defined.

(** * Beyond the claims *)

(** ** The step-level SpscQueue agrees with the call-level one *)

Arguments SpscThreads.enqueue_run : simpl never.
Arguments SpscThreads.dequeue_run : simpl never.

Section spsc_steps.
Context {T : Type}.
Implicit Types (q : @Spsc.SpscQueue T) (item : T).

Lemma spsc_enqueue_run_return fuel item q r :
  SpscThreads.enqueue_run fuel item q (SpscThreads.enq_return r) = Ret (r, q).
Proof. by destruct fuel. Qed.

Lemma spsc_enqueue_run_step fuel item q pc :
  (forall r, pc <> SpscThreads.enq_return r) ->
  SpscThreads.enqueue_run (S fuel) item q pc
  = '(q', pc') ← SpscThreads.enqueue_step item q pc;
    SpscThreads.enqueue_run fuel item q' pc'.
Proof. intros Hpc. destruct pc; try done. by destruct (Hpc r). Qed.

Lemma spsc_dequeue_run_return fuel q item r :
  SpscThreads.dequeue_run fuel q (SpscThreads.deq_return r) item
  = Ret (r, item, q).
Proof. by destruct fuel. Qed.

Lemma spsc_dequeue_run_step fuel q pc item :
  (forall r, pc <> SpscThreads.deq_return r) ->
  SpscThreads.dequeue_run (S fuel) q pc item
  = '(q', pc', item') ← SpscThreads.dequeue_step q pc item;
    SpscThreads.dequeue_run fuel q' pc' item'.
Proof. intros Hpc. destruct pc; try done. by destruct (Hpc r). Qed.
End spsc_steps.

Ltac spsc_step :=
  first [ rewrite spsc_enqueue_run_return
        | rewrite spsc_dequeue_run_return
        | rewrite spsc_enqueue_run_step by done
        | rewrite spsc_dequeue_run_step by done ];
  cbn [SpscThreads.enqueue_step SpscThreads.dequeue_step Spsc.buffer_
       Spsc.head_ Spsc.tail_ Spsc.head_cached_ Spsc.tail_cached_
       mbind outcome_bind mret outcome_ret].

Ltac spsc_run :=
  repeat first
    [ spsc_step
    | progress cbn [mbind outcome_bind mret outcome_ret andb]
    | progress unfold rem, assign, at_
    | match goal with
      | H : ?e = _ |- context [?e] => rewrite H
      | |- context [?a =? ?b] => destruct (a =? b) eqn:?
      | |- context [?a <? ?b] => destruct (a <? b) eqn:?
      | |- context [?a <=? ?b] => destruct (a <=? b) eqn:?
      | |- context [?l !! ?i] => destruct (l !! i) eqn:?
      end ];
  try done.

(** X1: a call of [SpscQueue::enqueue] or [SpscQueue::dequeue] run alone,
    one memory access at a time, needs at most five accesses and gives, on
    every object, exactly what the call-level function gives: the same flag,
    the same object, the same undefined behaviour. *)
Theorem X1_spsc_steps_agree {T : Type} (q : @Spsc.SpscQueue T) (item : T)
    (n : nat) :
  SpscThreads.enqueue_run (5 + n) item q SpscThreads.enq_load_tail
  = Spsc.enqueue q item /\
  SpscThreads.dequeue_run (5 + n) q SpscThreads.deq_load_head item
  = Spsc.dequeue q item.
Proof.
  destruct q as [buf h t hc tc].
  change (5 + n)%nat with (S (S (S (S (S n))))).
  unfold Spsc.enqueue, Spsc.dequeue, Spsc.enqueue_store, Spsc.dequeue_load.
  cbn [Spsc.buffer_ Spsc.head_ Spsc.tail_ Spsc.head_cached_ Spsc.tail_cached_].
  split; spsc_run.
Qed.

(** ** Calls made one after the other behave as a bounded list *)

Section fifo_refinement.
Context {T Q : Type}.
Variable do_call : Q -> call T -> outcome (reply T * Q).
Variable inv : Q -> Prop.
Variable contents : Q -> list T.
Variable room : Q -> Z.

Hypothesis contents_bound : forall q,
  inv q -> Z.of_nat (length (contents q)) <= room q.
Hypothesis enqueue_accept : forall q x,
  inv q -> Z.of_nat (length (contents q)) < room q ->
  exists q', do_call q (call_enqueue x) = Ret (enqueue_reply true, q') /\
             inv q' /\ contents q' = contents q ++ [x] /\ room q' = room q.
Hypothesis enqueue_reject : forall q x,
  inv q -> Z.of_nat (length (contents q)) = room q ->
  do_call q (call_enqueue x) = Ret (enqueue_reply false, q).
Hypothesis dequeue_accept : forall q item x l,
  inv q -> contents q = x :: l ->
  exists q', do_call q (call_dequeue item) = Ret (dequeue_reply true x, q') /\
             inv q' /\ contents q' = l /\ room q' = room q.
Hypothesis dequeue_reject : forall q item,
  inv q -> contents q = [] ->
  do_call q (call_dequeue item) = Ret (dequeue_reply false item, q).
Hypothesis is_empty_call : forall q,
  inv q ->
  do_call q call_is_empty
  = Ret (is_empty_reply (match contents q with [] => true | _ => false end), q).

Lemma call_refines_fifo q c :
  inv q ->
  exists q', do_call q c = Ret ((fifo_call (room q) (contents q) c).1, q') /\
             inv q' /\ room q' = room q /\
             contents q' = (fifo_call (room q) (contents q) c).2.
Proof.
  intros Hinv. pose proof (contents_bound q Hinv) as Hb.
  destruct c as [x|item|]; cbn [fifo_call].
  - destruct (Z.ltb_spec (Z.of_nat (length (contents q))) (room q)).
    + destruct (enqueue_accept q x Hinv) as (q' & ? & ? & ? & ?); [done|].
      by exists q'.
    + exists q. rewrite enqueue_reject by (done || lia). done.
  - destruct (contents q) as [|x l] eqn:Hc.
    + exists q. by rewrite dequeue_reject.
    + destruct (dequeue_accept q item x l Hinv Hc) as (q' & ? & ? & ? & ?).
      by exists q'.
  - exists q. by rewrite is_empty_call.
Qed.

Lemma run_refines_fifo q cs :
  inv q ->
  exists q', run_calls do_call q cs
             = Ret ((fifo_calls (room q) (contents q) cs).1, q') /\
             inv q' /\ room q' = room q /\
             contents q' = (fifo_calls (room q) (contents q) cs).2.
Proof.
  revert q. induction cs as [|c cs IH]; intros q Hinv.
  - by exists q.
  - destruct (call_refines_fifo q c Hinv) as (q1 & Hcall & Hinv1 & Hr1 & Hc1).
    destruct (IH q1 Hinv1) as (q2 & Hrun & Hinv2 & Hr2 & Hc2).
    exists q2. cbn [run_calls fifo_calls]. rewrite Hcall.
    cbn [mbind outcome_bind]. rewrite Hrun, Hr1, Hc1.
    destruct (fifo_call (room q) (contents q) c) as [r l1].
    cbn [fst snd] in *. rewrite Hr1, Hc1 in Hc2.
    destruct (fifo_calls (room q) l1 cs) as [rs l2].
    cbn [fst snd] in *. split; [done|]. split; [done|]. split; [congruence|done].
Qed.
End fifo_refinement.

Section is_empty_calls.
Context {T : Type}.

Lemma spsc_is_empty_call (q : @Spsc.SpscQueue T) :
  Spsc.coherent q ->
  Spsc.do_call q call_is_empty
  = Ret (is_empty_reply (match Spsc.contents q with [] => true | _ => false end),
         q).
Proof.
  intros Hco. cbn [Spsc.do_call]. do 3 f_equal.
  destruct (spsc_coherent_invariants (Spsc.room q) q Hco eq_refl)
    as (_ & Hempty & _).
  destruct (Spsc.contents q); destruct (Spsc.is_empty q); try done.
  - by apply Hempty.
  - by destruct Hempty as [Hnil _]; specialize (Hnil eq_refl).
Qed.

Lemma mpsc_is_empty_call (q : @Mpsc.MpscQueue T) :
  Mpsc.well_formed q ->
  Mpsc.do_call q call_is_empty
  = Ret (is_empty_reply (match Mpsc.contents q with [] => true | _ => false end),
         q).
Proof.
  intros Hok. cbn [Mpsc.do_call]. do 3 f_equal.
  destruct (mpsc_well_formed_invariants (Mpsc.room q) q Hok eq_refl)
    as (_ & Hempty & _).
  destruct (Mpsc.contents q); destruct (Mpsc.is_empty q); try done.
  - by apply Hempty.
  - by destruct Hempty as [Hnil _]; specialize (Hnil eq_refl).
Qed.

Lemma spsc_call_enqueue_reject (q : @Spsc.SpscQueue T) x :
  Spsc.coherent q -> Z.of_nat (length (Spsc.contents q)) = Spsc.room q ->
  Spsc.do_call q (call_enqueue x) = Ret (enqueue_reply false, q).
Proof. intros. cbn [Spsc.do_call]. by rewrite spsc_enqueue_reject. Qed.

Lemma spsc_call_dequeue_reject (q : @Spsc.SpscQueue T) item :
  Spsc.coherent q -> Spsc.contents q = [] ->
  Spsc.do_call q (call_dequeue item) = Ret (dequeue_reply false item, q).
Proof. intros. cbn [Spsc.do_call]. by rewrite spsc_dequeue_reject. Qed.

Lemma mpsc_call_enqueue_reject (q : @Mpsc.MpscQueue T) x :
  Mpsc.well_formed q -> Z.of_nat (length (Mpsc.contents q)) = Mpsc.room q ->
  Mpsc.do_call q (call_enqueue x) = Ret (enqueue_reply false, q).
Proof. intros. cbn [Mpsc.do_call]. by rewrite mpsc_enqueue_reject. Qed.

Lemma mpsc_call_dequeue_reject (q : @Mpsc.MpscQueue T) item :
  Mpsc.well_formed q -> Mpsc.contents q = [] ->
  Mpsc.do_call q (call_dequeue item) = Ret (dequeue_reply false item, q).
Proof. intros. cbn [Mpsc.do_call]. by rewrite mpsc_dequeue_reject. Qed.
End is_empty_calls.

(** X2: for every capacity [0 <= C] below [max_size()] and every sequence
    of [enqueue], [dequeue] and [is_empty] calls made one after the other on
    a freshly constructed [SpscQueue], every call returns, and the replies are
    those of a first-in first-out list bounded by [C]: [enqueue] is refused
    exactly when [C] items are held, [dequeue] hands out the oldest item and
    is refused exactly when none is held, [is_empty] tells whether none is
    held. *)
Theorem X2_spsc_refines_fifo {T : Type} (max_size : Z) (T0 : T)
    (capacity : Z) (cs : list (call T)) :
  0 <= capacity < max_size ->
  max_size <= SIZE_MAX ->
  exists q0 q,
    Spsc.SpscQueue_ctor max_size T0 capacity = Constructed q0 /\
    Spsc.do_calls q0 cs = Ret ((fifo_calls capacity [] cs).1, q) /\
    Spsc.contents q = (fifo_calls capacity [] cs).2.
Proof.
  intros Hc Hm. rewrite spsc_ctor_constructs by lia.
  set (q0 := Spsc.mkSpscQueue _ 0 0 0 0).
  assert (Spsc.coherent q0) as Hco by (apply spsc_fresh_coherent; lia).
  assert (Spsc.contents q0 = []) as Hnil by apply ring_contents_nil.
  assert (Spsc.room q0 = capacity) as Hroom.
  { unfold Spsc.room. cbn. rewrite fresh_size; lia. }
  destruct (run_refines_fifo Spsc.do_call Spsc.coherent Spsc.contents
              Spsc.room spsc_contents_bound spsc_call_enqueue_accept
              spsc_call_enqueue_reject spsc_call_dequeue_accept
              spsc_call_dequeue_reject spsc_is_empty_call q0 cs Hco)
    as (q & Hrun & _ & _ & Hcont).
  rewrite Hnil, Hroom in Hrun, Hcont. by exists q0, q.
Qed.

Lemma X2_spsc_refines_fifo_witness :
  0 <= 2 < 1000 /\ 1000 <= SIZE_MAX /\
  exists q0 q,
    Spsc.SpscQueue_ctor 1000 0 2 = Constructed q0 /\
    Spsc.do_calls q0 [call_enqueue 7; call_enqueue 8; call_enqueue 9;
                      call_dequeue 0; call_is_empty]
    = Ret ((fifo_calls 2 [] [call_enqueue 7; call_enqueue 8; call_enqueue 9;
                             call_dequeue 0; call_is_empty]).1, q) /\
    Spsc.contents q
    = (fifo_calls 2 [] [call_enqueue 7; call_enqueue 8; call_enqueue 9;
                        call_dequeue 0; call_is_empty]).2.
Proof.
  assert (0 <= 2 < 1000) as H1 by lia.
  assert (1000 <= SIZE_MAX) as H2 by (unfold SIZE_MAX; lia).
  exact (conj H1 (conj H2 (X2_spsc_refines_fifo 1000 0 2 _ H1 H2))).
Defined.

(** X3: the same for [MpscQueue] when its calls do not overlap in time:
    after construction with [0 <= C] below [max_size()], any sequence of
    calls made
    one after the other (by whichever threads) returns the replies of a
    first-in first-out list bounded by [C]. *)
Theorem X3_mpsc_refines_fifo {T : Type} (max_size : Z) (T0 : T)
    (capacity : Z) (cs : list (call T)) :
  0 <= capacity < max_size ->
  max_size <= SIZE_MAX ->
  exists q0 q,
    Mpsc.MpscQueue_ctor max_size T0 capacity = Constructed q0 /\
    Mpsc.do_calls q0 cs = Ret ((fifo_calls capacity [] cs).1, q) /\
    Mpsc.contents q = (fifo_calls capacity [] cs).2.
Proof.
  intros Hc Hm. rewrite mpsc_ctor_constructs by lia.
  set (q0 := Mpsc.mkMpscQueue _ 0 0 0).
  assert (Mpsc.well_formed q0) as Hco
    by (apply mpsc_fresh_well_formed; lia).
  assert (Mpsc.contents q0 = []) as Hnil by apply ring_contents_nil.
  assert (Mpsc.room q0 = capacity) as Hroom.
  { unfold Mpsc.room. cbn. rewrite fresh_size; lia. }
  destruct (run_refines_fifo Mpsc.do_call Mpsc.well_formed Mpsc.contents
              Mpsc.room mpsc_contents_bound mpsc_call_enqueue_accept
              mpsc_call_enqueue_reject mpsc_call_dequeue_accept
              mpsc_call_dequeue_reject mpsc_is_empty_call q0 cs Hco)
    as (q & Hrun & _ & _ & Hcont).
  rewrite Hnil, Hroom in Hrun, Hcont. by exists q0, q.
Qed.

Lemma X3_mpsc_refines_fifo_witness :
  0 <= 2 < 1000 /\ 1000 <= SIZE_MAX /\
  exists q0 q,
    Mpsc.MpscQueue_ctor 1000 0 2 = Constructed q0 /\
    Mpsc.do_calls q0 [call_enqueue 7; call_enqueue 8; call_enqueue 9;
                      call_dequeue 0; call_is_empty]
    = Ret ((fifo_calls 2 [] [call_enqueue 7; call_enqueue 8; call_enqueue 9;
                             call_dequeue 0; call_is_empty]).1, q) /\
    Mpsc.contents q
    = (fifo_calls 2 [] [call_enqueue 7; call_enqueue 8; call_enqueue 9;
                        call_dequeue 0; call_is_empty]).2.
Proof.
  assert (0 <= 2 < 1000) as H1 by lia.
  assert (1000 <= SIZE_MAX) as H2 by (unfold SIZE_MAX; lia).
  exact (conj H1 (conj H2 (X3_mpsc_refines_fifo 1000 0 2 _ H1 H2))).
Defined.

(** ** The producer and the consumer running together *)

Section mod_lemmas.
Implicit Types (len a b : Z).

Lemma mod_in_range len a : 0 < len -> 0 <= a mod len < len.
Proof. intros. apply Z.mod_pos_bound. lia. Qed.

Lemma rem_succ_mod len a :
  0 < len <= SIZE_MAX ->
  rem (size_t (a mod len + 1)) len = Ret ((a + 1) mod len).
Proof.
  intros Hlen. pose proof (mod_in_range len a). unfold rem.
  destruct (Z.eqb_spec len 0); [lia|].
  rewrite size_t_small by lia. f_equal. apply Zplus_mod_idemp_l.
Qed.

Lemma mod_eq_near len a b :
  0 < len -> 0 <= a - b < len -> a mod len = b mod len -> a = b.
Proof.
  intros Hlen Hr Heq.
  assert ((a - b) mod len = 0) as H0.
  { rewrite Zminus_mod, Heq, Z.sub_diag. apply Zmod_0_l. }
  rewrite Z.mod_small in H0 by lia. lia.
Qed.

Lemma mod_eq_far len a b : a - b = len -> a mod len = b mod len.
Proof.
  intros H. replace a with (b + 1 * len) by lia. apply Z_mod_plus_full.
Qed.

(** Two counts at most [len] apart have the same remainder exactly when
    they are equal or [len] apart. *)
Lemma mod_eqb_room len a b :
  0 < len -> 0 <= a - b <= len ->
  (a mod len =? b mod len) = (a - b =? 0) || (a - b =? len).
Proof.
  intros Hlen Hr.
  destruct (Z.eqb_spec (a - b) 0) as [H0|H0].
  - replace a with b by lia. by rewrite Z.eqb_refl.
  - destruct (Z.eqb_spec (a - b) len) as [Hl|Hl]; cbn [orb].
    + rewrite (mod_eq_far len a b Hl). apply Z.eqb_refl.
    + apply Z.eqb_neq. intros Heq. apply H0.
      assert (a = b) by (apply (mod_eq_near len); [done|lia|done]). lia.
Qed.




Lemma slot_insert_other (buf : list Z) len i j x :
  0 < len -> i mod len <> j mod len ->
  <[Z.to_nat (i mod len) := x]> buf !! Z.to_nat (j mod len)
  = buf !! Z.to_nat (j mod len).
Proof.
  intros Hlen Hne. apply list_lookup_insert_ne.
  pose proof (mod_in_range len i Hlen). pose proof (mod_in_range len j Hlen).
  lia.
Qed.

Lemma slot_insert_same (buf : list Z) len i x :
  0 < len -> size buf = len ->
  <[Z.to_nat (i mod len) := x]> buf !! Z.to_nat (i mod len) = Some x.
Proof.
  intros Hlen Hsize. apply list_lookup_insert_eq.
  pose proof (mod_in_range len i Hlen). unfold size in Hsize. lia.
Qed.
End mod_lemmas.

(** Unfolds the clauses of the invariant on a given state. *)
Ltac trial_clauses :=
  cbn [SpscThreads.queue SpscThreads.main_thread SpscThreads.consumer_thread
       Spsc.buffer_ Spsc.head_ Spsc.tail_ Spsc.head_cached_
       Spsc.tail_cached_ produced consumed producer_ok consumer_ok
       main_next consumer_next].

(** Closes the description of where a step went. *)
Ltac trial_next :=
  trial_clauses;
  first [ done | by eauto | by left | by right
        | left; split; [done|lia] | right; split; [done|lia] ].

Section trial_safety.
Import SpscThreads.
Variables capacity elems : Z.
Hypothesis capacity_ok : 0 <= capacity < SIZE_MAX.
Hypothesis elems_ok : 0 <= elems <= INT_MAX.

Lemma int_incr_below i : i < elems -> int_incr i = Ret (i + 1).
Proof. intros. unfold int_incr. by destruct (Z.ltb_spec i INT_MAX); [|lia]. Qed.

Lemma produced_loop i :
  0 <= i < elems -> produced elems (producer_loop elems (i + 1)) = i + 1.
Proof.
  intros Hi. unfold producer_loop.
  destruct (Z.ltb_spec (i + 1) elems); cbn [produced]; lia.
Qed.

Lemma consumed_loop i :
  0 <= i < elems -> consumed elems (consumer_loop elems (i + 1)) = i + 1.
Proof.
  intros Hi. unfold consumer_loop.
  destruct (Z.ltb_spec (i + 1) elems); cbn [consumed]; lia.
Qed.

(** A step of the main thread never goes wrong and keeps the invariant. *)
Lemma trial_main_step b :
  trial_inv capacity elems b ->
  exists b', trial_step elems b run_main = Ret b' /\
             trial_inv capacity elems b' /\
             consumer_thread b' = consumer_thread b /\
             main_next capacity elems (consumed elems (consumer_thread b))
                       (main_thread b) (main_thread b').
Proof.
  intros (hc & tc & Hsz & Htl & Hhd & Hhc & Htc & Hhcc & Htcc & Hpe & Hroom
          & Hslots & Hprod & Hcons & Hdone).
  destruct b as [[buf h t hcv tcv] mt ct].
  cbn [queue main_thread consumer_thread Spsc.buffer_ Spsc.head_ Spsc.tail_
       Spsc.head_cached_ Spsc.tail_cached_] in *.
  set (c := consumed elems ct) in *.
  assert (0 < capacity + 1 <= SIZE_MAX) as Hlen by lia.
  unfold trial_inv.
  destruct mt as [i pc| |]; [destruct pc as [|t0 nt|t0 nt|t0 nt|nt|[|]]|..];
    cbn [produced producer_ok] in *;
    cbn [trial_step producer_step enqueue_step queue main_thread
         consumer_thread Spsc.buffer_ Spsc.head_ Spsc.tail_
         Spsc.head_cached_ Spsc.tail_cached_].
  - (* load tail *)
    rewrite Htl, Hsz, rem_succ_mod by done.
    cbn [mbind outcome_bind mret outcome_ret].
    eexists. split; [done|]. split; [|split; [done|trial_next]].
    exists hc, tc. trial_clauses. repeat split; try done; lia.
  - (* test against the cached head *)
    destruct Hprod as (Hi & -> & ->). rewrite Hhc.
    rewrite mod_eqb_room by lia.
    destruct (Z.eqb_spec (i + 1 - hc) 0); [lia|].
    destruct (Z.eqb_spec (i + 1 - hc) (capacity + 1)); cbn [orb];
      (eexists; split; [done|]); (split; [|split; [done|trial_next]]);
      exists hc, tc; trial_clauses; repeat split; try done; lia.
  - (* load the real head *)
    destruct Hprod as (Hi & -> & ->).
    cbn [Spsc.head_cached_]. rewrite Hhd.
    rewrite mod_eqb_room by lia.
    destruct (Z.eqb_spec (i + 1 - c) 0); [lia|].
    destruct (Z.eqb_spec (i + 1 - c) (capacity + 1)); cbn [orb];
      (eexists; split; [done|]); (split; [|split; [done|trial_next]]);
      exists c, tc; trial_clauses; repeat split; try done; lia.
  - (* write the slot *)
    destruct Hprod as (Hi & -> & -> & Hfree).
    pose proof (mod_in_range (capacity + 1) i ltac:(lia)).
    rewrite assign_Ret by lia. cbn [mbind outcome_bind mret outcome_ret].
    eexists. split; [done|]. split; [|split; [done|trial_next]].
    exists hc, tc. trial_clauses. repeat split; try done; try lia.
    + by rewrite size_insert.
    + intros j Hj. rewrite slot_insert_other; [by apply Hslots|lia|].
      intros Heq. apply (mod_eq_near (capacity + 1)) in Heq; lia.
    + apply slot_insert_same; [lia|done].
  - (* publish the tail *)
    destruct Hprod as (Hi & -> & Hfree & Hslot).
    eexists. split; [done|]. split; [|split; [done|trial_next]].
    exists hc, tc. trial_clauses. repeat split; try done; try lia.
    intros j Hj. destruct (Z.eq_dec j i) as [->|]; [done|].
    apply Hslots. lia.
  - (* accepted: next iteration *)
    destruct Hprod as (Hi & _). rewrite int_incr_below by lia.
    cbn [mbind outcome_bind mret outcome_ret].
    eexists. split; [done|]. split; [|split; [done|trial_next]].
    exists hc, tc. trial_clauses. rewrite produced_loop by done.
    repeat split; try done; try lia.
    + unfold producer_loop. destruct (Z.ltb_spec (i + 1) elems); cbn; lia.
    + unfold producer_loop. by destruct (Z.ltb_spec (i + 1) elems).
  - (* refused: retry *)
    destruct Hprod as (Hi & _).
    eexists. split; [done|]. split; [|split; [done|trial_next]].
    exists hc, tc. trial_clauses. repeat split; try done; lia.
  - (* spinning on is_empty *)
    unfold Spsc.is_empty. cbn [Spsc.head_ Spsc.tail_].
    rewrite Hhd, Htl, Z.eqb_sym, mod_eqb_room by lia.
    destruct (Z.eqb_spec (elems - c) 0); cbn [orb].
    + eexists. split; [done|]. split; [|split; [done|trial_next]].
      exists hc, tc. trial_clauses. repeat split; try done; lia.
    + destruct (Z.eqb_spec (elems - c) (capacity + 1)); [lia|].
      eexists. split; [done|]. split; [|split; [done|trial_next]].
      exists hc, tc. trial_clauses. repeat split; try done; lia.
  - eexists. split; [done|]. split; [|split; [done|trial_next]].
    exists hc, tc. trial_clauses. repeat split; try done; lia.
Qed.

(** A step of the consumer never goes wrong, never fails its check, and
    keeps the invariant. *)
Lemma trial_consumer_step b :
  trial_inv capacity elems b ->
  exists b', trial_step elems b run_consumer = Ret b' /\
             trial_inv capacity elems b' /\
             main_thread b' = main_thread b /\
             consumer_next elems (produced elems (main_thread b))
                           (consumer_thread b) (consumer_thread b').
Proof.
  intros (hc & tc & Hsz & Htl & Hhd & Hhc & Htc & Hhcc & Htcc & Hpe & Hroom
          & Hslots & Hprod & Hcons & Hdone).
  destruct b as [[buf h t hcv tcv] mt ct].
  cbn [queue main_thread consumer_thread Spsc.buffer_ Spsc.head_ Spsc.tail_
       Spsc.head_cached_ Spsc.tail_cached_] in *.
  set (p := produced elems mt) in *.
  assert (0 < capacity + 1 <= SIZE_MAX) as Hlen by lia.
  unfold trial_inv.
  destruct ct as [i data pc|i data|]; [destruct pc as [|h0|h0|h0|h0|[|]]|..];
    cbn [consumed consumer_ok] in *;
    cbn [trial_step consumer_step dequeue_step queue main_thread
         consumer_thread Spsc.buffer_ Spsc.head_ Spsc.tail_
         Spsc.head_cached_ Spsc.tail_cached_].
  - (* load head *)
    destruct Hcons as (Hi & _).
    eexists. split; [done|]. split; [|split; [done|trial_next]].
    exists hc, tc. trial_clauses. fold p. repeat split; try done; lia.
  - (* test against the cached tail *)
    destruct Hcons as (Hi & ->). rewrite Htc.
    rewrite Z.eqb_sym, mod_eqb_room by lia.
    destruct (Z.eqb_spec (tc - i) 0); cbn [orb].
    + eexists. split; [done|]. split; [|split; [done|trial_next]].
      exists hc, tc. trial_clauses. fold p. repeat split; try done; lia.
    + destruct (Z.eqb_spec (tc - i) (capacity + 1)); [lia|].
      eexists. split; [done|]. split; [|split; [done|trial_next]].
      exists hc, tc. trial_clauses. fold p. repeat split; try done; lia.
  - (* load the real tail *)
    destruct Hcons as (Hi & ->).
    cbn [Spsc.tail_cached_]. rewrite Htl.
    rewrite Z.eqb_sym, mod_eqb_room by lia.
    destruct (Z.eqb_spec (p - i) 0); cbn [orb].
    + eexists. split; [done|]. split; [|split; [done|trial_next]].
      exists hc, p. trial_clauses. fold p. repeat split; try done; lia.
    + destruct (Z.eqb_spec (p - i) (capacity + 1)); [lia|].
      eexists. split; [done|]. split; [|split; [done|trial_next]].
      exists hc, p. trial_clauses. fold p. repeat split; try done; lia.
  - (* read the slot *)
    destruct Hcons as (Hi & -> & Hlt).
    pose proof (mod_in_range (capacity + 1) i ltac:(lia)).
    unfold at_. destruct (Z.ltb_spec (i mod (capacity + 1)) 0); [lia|].
    rewrite Hslots by lia. cbn [mbind outcome_bind mret outcome_ret].
    eexists. split; [done|]. split; [|split; [done|trial_next]].
    exists hc, tc. trial_clauses. fold p. repeat split; try done; lia.
  - (* publish the head *)
    destruct Hcons as (Hi & -> & Hlt & ->).
    rewrite Hsz, rem_succ_mod by done.
    cbn [mbind outcome_bind mret outcome_ret].
    eexists. split; [done|]. split; [|split; [done|trial_next]].
    exists hc, tc. trial_clauses. fold p.
    repeat split; try done; try lia.
    + intros j Hj. apply Hslots. lia.
    + intros Hd. specialize (Hdone Hd). lia.
  - (* accepted: the check, then the next iteration *)
    destruct Hcons as (Hi & ->). rewrite Z.eqb_refl.
    rewrite int_incr_below by lia. cbn [mbind outcome_bind mret outcome_ret].
    eexists. split; [done|]. split; [|split; [done|trial_next]].
    exists hc, tc. trial_clauses. fold p. rewrite consumed_loop by done.
    repeat split; try done; try lia.
    unfold consumer_loop. destruct (Z.ltb_spec (i + 1) elems); cbn; lia.
  - (* refused: retry *)
    destruct Hcons as (Hi & _).
    eexists. split; [done|]. split; [|split; [done|trial_next]].
    exists hc, tc. trial_clauses. fold p. repeat split; try done; lia.
  - done.
  - eexists. split; [done|]. split; [|split; [done|trial_next]].
    exists hc, tc. trial_clauses. fold p. repeat split; try done; lia.
Qed.
Lemma trial_step_inv b th :
  trial_inv capacity elems b ->
  exists b', trial_step elems b th = Ret b' /\ trial_inv capacity elems b'.
Proof.
  intros Hinv. destruct th.
  - destruct (trial_main_step b Hinv) as (b' & ? & ? & _). by exists b'.
  - destruct (trial_consumer_step b Hinv) as (b' & ? & ? & _). by exists b'.
Qed.

(** Whatever the interleaving, the run goes on and the invariant holds. *)
Lemma trial_run_inv sched b :
  trial_inv capacity elems b ->
  exists b', trial_run elems sched b = Ret b' /\ trial_inv capacity elems b'.
Proof.
  revert b. induction sched as [|th sched IH]; intros b Hinv.
  - by exists b.
  - destruct (trial_step_inv b th Hinv) as (b1 & Hstep & Hinv1).
    destruct (IH b1 Hinv1) as (b2 & Hrun & Hinv2).
    exists b2. cbn [trial_run]. rewrite Hstep. done.
Qed.

Lemma trial_run_app sched1 sched2 b b1 :
  trial_run elems sched1 b = Ret b1 ->
  trial_run elems (sched1 ++ sched2) b = trial_run elems sched2 b1.
Proof.
  revert b. induction sched1 as [|th sched1 IH]; intros b Hrun.
  - by injection Hrun as ->.
  - cbn [app trial_run] in *.
    destruct (trial_step elems b th) as [b'| |]; try done.
    cbn [mbind outcome_bind] in *. by apply IH.
Qed.

(** A trial whose queue could be constructed starts inside the
    invariant; below [max_size] the queue can be constructed. *)
Lemma trial_started_inv max_size b0 :
  trial_start max_size capacity elems = Constructed b0 ->
  trial_inv capacity elems b0.
Proof.
  unfold trial_start.
  destruct (Spsc.SpscQueue_ctor max_size 0 capacity) as [q|e] eqn:Hctor;
    [|done].
  intros [= <-]. rewrite (spsc_ctor_fresh _ _ _ _ Hctor).
  exists 0, 0. trial_clauses.
  rewrite fresh_size by done. rewrite Zmod_0_l.
  unfold producer_loop, consumer_loop.
  destruct (Z.ltb_spec 0 elems); trial_clauses;
    repeat split; try done; try lia;
    by replace elems with 0 by lia.
Qed.

Lemma trial_start_inv max_size :
  capacity < max_size -> max_size <= SIZE_MAX ->
  exists b0, trial_start max_size capacity elems = Constructed b0 /\
             trial_inv capacity elems b0.
Proof.
  intros Hlt Hm.
  assert (exists b0, trial_start max_size capacity elems = Constructed b0)
    as [b0 Hstart].
  { unfold trial_start. rewrite spsc_ctor_constructs by lia. by eexists. }
  exists b0. split; [done|]. by apply (trial_started_inv max_size).
Qed.


Lemma trial_inv_counts b :
  trial_inv capacity elems b ->
  0 <= consumed elems (consumer_thread b)
    <= produced elems (main_thread b) /\
  produced elems (main_thread b) <= elems /\
  produced elems (main_thread b) - consumed elems (consumer_thread b)
    <= capacity.
Proof. intros (hc & tc & H). cbn zeta in H. lia. Qed.

Lemma trial_inv_main b i pc :
  trial_inv capacity elems b -> main_thread b = producing i pc ->
  0 <= i < elems.
Proof.
  intros (hc & tc & H) Hst. cbn zeta in H. rewrite Hst in H.
  cbn [producer_ok] in H. lia.
Qed.

Lemma trial_inv_consumer b :
  trial_inv capacity elems b ->
  match consumer_thread b with
  | consuming i _ _ => 0 <= i < elems
  | consumer_failed _ _ => False
  | consumer_done => True
  end.
Proof.
  intros (hc & tc & H). cbn zeta in H.
  destruct (consumer_thread b); cbn [consumer_ok] in H; try done; lia.
Qed.

(** With room for one more item, the main thread left alone gets through
    its current [enqueue] and to its next iteration. *)
Lemma main_call_completes (m : nat) b i pc :
  trial_inv capacity elems b ->
  main_thread b = producing i pc ->
  pc = enq_return true \/ i - consumed elems (consumer_thread b) < capacity ->
  (enqueue_steps_left pc <= m)%nat ->
  exists n b',
    trial_run elems (replicate n run_main) b = Ret b' /\
    trial_inv capacity elems b' /\
    main_thread b' = producer_loop elems (i + 1) /\
    consumer_thread b' = consumer_thread b.
Proof.
  revert b pc. induction m as [|m IH]; intros b pc Hinv Hst Hroom Hm.
  { destruct pc as [| | | | |[|]]; cbn in Hm; lia. }
  destruct (trial_main_step b Hinv) as (b1 & Hstep & Hinv1 & Hcons & Hnext).
  rewrite Hst in Hnext.
  assert (forall pc',
            main_thread b1 = producing i pc' ->
            (pc' = enq_return true \/
             i - consumed elems (consumer_thread b) < capacity) ->
            (enqueue_steps_left pc' <= m)%nat ->
            exists n b',
              trial_run elems (replicate n run_main) b = Ret b' /\
              trial_inv capacity elems b' /\
              main_thread b' = producer_loop elems (i + 1) /\
              consumer_thread b' = consumer_thread b) as Hgo.
  { intros pc' Hst' Hroom' Hm'.
    destruct (IH b1 pc' Hinv1 Hst') as (n & b' & Hrun & ? & ? & ?);
      [by rewrite Hcons|done|].
    exists (S n), b'. cbn [replicate trial_run]. rewrite Hstep.
    split; [done|]. split; [done|]. split; [done|congruence]. }
  destruct pc as [|t nt|t nt|t nt|nt|[|]]; cbn [main_next] in Hnext;
    cbn [enqueue_steps_left] in Hm.
  - destruct Hnext as (t & nt & Hst'). apply (Hgo _ Hst'); [|cbn; lia].
    destruct Hroom; [done|by right].
  - destruct Hroom as [|Hroom]; [done|].
    destruct Hnext as [Hst'|Hst']; apply (Hgo _ Hst'); (by right) || (cbn; lia).
  - destruct Hroom as [|Hroom]; [done|].
    destruct Hnext as [[_ Hfull]|Hst']; [lia|].
    apply (Hgo _ Hst'); [by right|cbn; lia].
  - destruct Hroom as [|Hroom]; [done|].
    apply (Hgo _ Hnext); [by right|cbn; lia].
  - apply (Hgo _ Hnext); [by left|cbn; lia].
  - exists 1%nat, b1. cbn [replicate trial_run]. rewrite Hstep. done.
  - destruct Hroom as [|Hroom]; [done|].
    apply (Hgo _ Hnext); [by right|cbn; lia].
Qed.

(** With an item to take, the consumer left alone gets through its current
    [dequeue], passes its check and reaches its next iteration. *)
Lemma consumer_call_completes (m : nat) b i data pc :
  trial_inv capacity elems b ->
  consumer_thread b = consuming i data pc ->
  i < produced elems (main_thread b) ->
  (dequeue_steps_left pc <= m)%nat ->
  exists n b',
    trial_run elems (replicate n run_consumer) b = Ret b' /\
    trial_inv capacity elems b' /\
    consumer_thread b' = consumer_loop elems (i + 1) /\
    main_thread b' = main_thread b.
Proof.
  revert b data pc. induction m as [|m IH]; intros b data pc Hinv Hst Hitem Hm.
  { destruct pc as [| | | | |[|]]; cbn in Hm; lia. }
  destruct (trial_consumer_step b Hinv) as (b1 & Hstep & Hinv1 & Hmain & Hnext).
  rewrite Hst in Hnext.
  assert (forall data' pc',
            consumer_thread b1 = consuming i data' pc' ->
            (dequeue_steps_left pc' <= m)%nat ->
            exists n b',
              trial_run elems (replicate n run_consumer) b = Ret b' /\
              trial_inv capacity elems b' /\
              consumer_thread b' = consumer_loop elems (i + 1) /\
              main_thread b' = main_thread b) as Hgo.
  { intros data' pc' Hst' Hm'.
    destruct (IH b1 data' pc' Hinv1 Hst') as (n & b' & Hrun & ? & ? & ?);
      [by rewrite Hmain|done|].
    exists (S n), b'. cbn [replicate trial_run]. rewrite Hstep.
    split; [done|]. split; [done|]. split; [done|congruence]. }
  destruct pc as [|h|h|h|h|[|]]; cbn [consumer_next] in Hnext;
    cbn [dequeue_steps_left] in Hm.
  - destruct Hnext as (h & Hst'). apply (Hgo _ _ Hst'). cbn; lia.
  - destruct Hnext as [Hst'|Hst']; apply (Hgo _ _ Hst'); cbn; lia.
  - destruct Hnext as [[_ Hempty]|Hst']; [lia|]. apply (Hgo _ _ Hst'). cbn; lia.
  - apply (Hgo _ _ Hnext). cbn; lia.
  - apply (Hgo _ _ Hnext). cbn; lia.
  - exists 1%nat, b1. cbn [replicate trial_run]. rewrite Hstep. done.
  - apply (Hgo _ _ Hnext). cbn; lia.
Qed.

Lemma main_index_loop i :
  0 <= i < elems -> main_index elems (producer_loop elems (i + 1)) = i + 1.
Proof.
  intros Hi. unfold producer_loop.
  destruct (Z.ltb_spec (i + 1) elems); cbn [main_index]; lia.
Qed.

Lemma consumer_index_loop i :
  0 <= i < elems -> consumer_index elems (consumer_loop elems (i + 1)) = i + 1.
Proof.
  intros Hi. unfold consumer_loop.
  destruct (Z.ltb_spec (i + 1) elems); cbn [consumer_index]; lia.
Qed.

(** From any state the invariant allows, some scheduling of the two threads
    brings the trial to its end. *)
Lemma trial_can_finish (m : nat) b :
  1 <= capacity ->
  trial_inv capacity elems b ->
  2 * elems - main_index elems (main_thread b)
    - consumer_index elems (consumer_thread b) <= Z.of_nat m ->
  exists sched b',
    trial_run elems sched b = Ret b' /\
    trial_inv capacity elems b' /\
    main_thread b' = producer_done /\ consumer_thread b' = consumer_done.
Proof.
  intros Hcap. revert b. induction m as [m IH] using lt_wf_ind.
  intros b Hinv Hm.
  pose proof (trial_inv_counts b Hinv) as (Hcp & Hpe & Hroom).
  pose proof (trial_inv_consumer b Hinv) as Hc.
  assert (forall n b1,
            trial_run elems (replicate n run_consumer) b = Ret b1 \/
            trial_run elems (replicate n run_main) b = Ret b1 ->
            trial_inv capacity elems b1 ->
            2 * elems - main_index elems (main_thread b1)
              - consumer_index elems (consumer_thread b1)
            < 2 * elems - main_index elems (main_thread b)
              - consumer_index elems (consumer_thread b) ->
            0 <= 2 * elems - main_index elems (main_thread b1)
                 - consumer_index elems (consumer_thread b1) ->
            exists sched b',
              trial_run elems sched b = Ret b' /\
              trial_inv capacity elems b' /\
              main_thread b' = producer_done /\
              consumer_thread b' = consumer_done) as Hgo.
  { intros n b1 Hrun Hinv1 Hless Hpos.
    destruct (IH (Z.to_nat (2 * elems - main_index elems (main_thread b1)
                            - consumer_index elems (consumer_thread b1))))
      with (b := b1) as (sched & b2 & Hrun2 & ? & ? & ?); [lia|done|lia|].
    destruct Hrun as [Hrun|Hrun].
    - exists (replicate n run_consumer ++ sched), b2.
      by rewrite (trial_run_app _ _ _ _ Hrun).
    - exists (replicate n run_main ++ sched), b2.
      by rewrite (trial_run_app _ _ _ _ Hrun). }
  assert (forall j pc',
            main_thread b = producing j pc' ->
            pc' = enq_return true \/
              j - consumed elems (consumer_thread b) < capacity ->
            0 <= 2 * elems - (j + 1)
                 - consumer_index elems (consumer_thread b) ->
            exists sched b',
              trial_run elems sched b = Ret b' /\
              trial_inv capacity elems b' /\
              main_thread b' = producer_done /\
              consumer_thread b' = consumer_done) as Hmain.
  { intros j pc' Hmt Hfree Hpos.
    pose proof (trial_inv_main b j pc' Hinv Hmt) as Hj.
    destruct (main_call_completes _ b j pc' Hinv Hmt Hfree (le_n _))
      as (n & b1 & Hrun & Hinv1 & Hm1 & Hc1).
    apply (Hgo n b1); [by right|done|..];
      rewrite ?Hc1, ?Hm1, ?Hmt; rewrite ?main_index_loop by done;
      cbn [main_index]; lia. }
  destruct (consumer_thread b) as [i data pc|i data|] eqn:Hct; [|done|].
  - (* the consumer is inside its loop *)
    destruct (Z_lt_dec i (produced elems (main_thread b))) as [Hitem|Hnone].
    + destruct (consumer_call_completes _ b i data pc Hinv Hct Hitem (le_n _))
        as (n & b1 & Hrun & Hinv1 & Hc1 & Hm1).
      assert (main_index elems (main_thread b) <= elems) as Hmi.
      { destruct (main_thread b) as [j pc'| |] eqn:Hmt; cbn [main_index];
          [|lia..]. pose proof (trial_inv_main b j pc' Hinv Hmt). lia. }
      apply (Hgo n b1); [by left|done|..];
        rewrite ?Hc1, ?Hm1, ?Hct; rewrite ?consumer_index_loop by done;
        cbn [consumer_index]; lia.
    + destruct (main_thread b) as [j pc'| |] eqn:Hmt;
        cbn [produced] in *; [|lia..].
      pose proof (trial_inv_main b j pc' Hinv Hmt) as Hj.
      apply (Hmain j pc'); [done| |cbn [consumer_index]; lia].
      destruct pc' as [| | | | |[|]], pc as [| | | | |[|]];
        cbn [produced consumed] in *; (by left) || (right; lia).
  - (* the consumer is through *)
    destruct (main_thread b) as [j pc'| |] eqn:Hmt.
    + pose proof (trial_inv_main b j pc' Hinv Hmt) as Hj.
      apply (Hmain j pc'); [done| |cbn [consumer_index]; lia].
      destruct pc' as [| | | | |[|]]; cbn [produced consumed] in *;
        (by left) || (right; lia).
    + destruct (trial_main_step b Hinv) as (b1 & Hstep & Hinv1 & Hc1 & Hn).
      rewrite Hmt, Hct in Hn. cbn [main_next consumed] in Hn.
      destruct Hn as [[Hst' _]|[_ ?]]; [|lia].
      exists [run_main], b1. cbn [trial_run]. rewrite Hstep.
      split; [done|]. split; [done|]. split; [done|congruence].
    + by exists [], b.
Qed.
End trial_safety.

(** X4: in a trial of [run_benchmark] (spsc_queue.cc), with a queue of
    capacity [0 <= C] below [max_size()] and [0 <= elems <= INT_MAX] items,
    however the memory accesses of the main thread and of the consumer
    thread are interleaved, no step is undefined (no remainder by zero, no
    slot outside the vector, no counter overflow) and the consumer never
    takes the [exit(EXIT_FAILURE)] branch: every value it receives is the
    one it expects. *)
Theorem X4_spsc_trial_safe (max_size capacity elems : Z)
    (sched : list SpscThreads.thread) :
  0 <= capacity < max_size ->
  max_size <= SIZE_MAX ->
  0 <= elems <= SpscThreads.INT_MAX ->
  exists b0 b,
    SpscThreads.trial_start max_size capacity elems = Constructed b0 /\
    SpscThreads.trial_run elems sched b0 = Ret b /\
    forall i data,
      SpscThreads.consumer_thread b <> SpscThreads.consumer_failed i data.
Proof.
  intros Hc Hm He.
  assert (0 <= capacity < SIZE_MAX) as Hc' by lia.
  destruct (trial_start_inv capacity elems Hc' He max_size)
    as (b0 & Hstart & Hinv0); [lia|done|].
  destruct (trial_run_inv capacity elems Hc' He sched b0 Hinv0)
    as (b & Hrun & Hinv).
  exists b0, b. split; [done|]. split; [done|]. intros i data Hfail.
  pose proof (trial_inv_consumer capacity elems b Hinv) as Hcons.
  by rewrite Hfail in Hcons.
Qed.

(** A whole trial of two items through a queue of capacity 1, the two
    threads taking turns: the consumer receives 0 and 1, passes both
    tests and ends its loop. *)
Lemma X4_spsc_trial_safe_witness :
  0 <= 1 < 1000 /\ 1000 <= SIZE_MAX /\ 0 <= 2 <= SpscThreads.INT_MAX /\
  exists b0 b,
    SpscThreads.trial_start 1000 1 2 = Constructed b0 /\
    SpscThreads.trial_run 2
      (concat (replicate 20
                 [SpscThreads.run_main; SpscThreads.run_consumer])) b0
    = Ret b /\
    SpscThreads.consumer_thread b = SpscThreads.consumer_done /\
    SpscThreads.main_thread b = SpscThreads.producer_done /\
    forall i data,
      SpscThreads.consumer_thread b <> SpscThreads.consumer_failed i data.
Proof.
  assert (0 <= 1 < 1000) as H1 by lia.
  assert (1000 <= SIZE_MAX) as H2 by (unfold SIZE_MAX; lia).
  assert (0 <= 2 <= SpscThreads.INT_MAX) as H3
    by (unfold SpscThreads.INT_MAX; lia).
  split; [exact H1|]. split; [exact H2|]. split; [exact H3|].
  destruct (X4_spsc_trial_safe 1000 1 2
              (concat (replicate 20
                         [SpscThreads.run_main; SpscThreads.run_consumer]))
              H1 H2 H3) as (b0 & b & Hstart & Hrun & Hsafe).
  exists b0, b. split; [exact Hstart|]. split; [exact Hrun|].
  vm_compute in Hstart. injection Hstart as <-.
  vm_compute in Hrun. injection Hrun as <-.
  split; [reflexivity|]. split; [reflexivity|]. exact Hsafe.
Defined.

(** X5: at every moment of such a trial the consumer has taken no more
    items than the main thread has published, and the main thread is at most
    [C] items ahead: [0 <= consumed <= produced <= elems] and
    [produced - consumed <= C]; every item published and not yet taken sits
    in the slot its index maps to. *)
Theorem X5_spsc_trial_flow (max_size capacity elems : Z)
    (sched : list SpscThreads.thread) :
  0 <= capacity < max_size ->
  max_size <= SIZE_MAX ->
  0 <= elems <= SpscThreads.INT_MAX ->
  exists b0 b,
    SpscThreads.trial_start max_size capacity elems = Constructed b0 /\
    SpscThreads.trial_run elems sched b0 = Ret b /\
    let p := produced elems (SpscThreads.main_thread b) in
    let c := consumed elems (SpscThreads.consumer_thread b) in
    0 <= c <= p /\ p <= elems /\ p - c <= capacity /\
    Spsc.tail_ (SpscThreads.queue b) = p mod (capacity + 1) /\
    Spsc.head_ (SpscThreads.queue b) = c mod (capacity + 1) /\
    forall j, c <= j < p ->
      Spsc.buffer_ (SpscThreads.queue b) !! Z.to_nat (j mod (capacity + 1))
      = Some j.
Proof.
  intros Hc Hm He.
  assert (0 <= capacity < SIZE_MAX) as Hc' by lia.
  destruct (trial_start_inv capacity elems Hc' He max_size)
    as (b0 & Hstart & Hinv0); [lia|done|].
  destruct (trial_run_inv capacity elems Hc' He sched b0 Hinv0)
    as (b & Hrun & Hinv).
  exists b0, b. split; [done|]. split; [done|].
  destruct Hinv as (hc & tc & H). cbn zeta in *.
  repeat split; try apply H; lia.
Qed.

(** Three items through a queue of capacity 2: the main thread runs until
    it has published items 0 and 1 and is inside the call for item 2, then
    the consumer runs until it has taken item 0 and is inside the call for
    item 1.  Two published, one taken, item 1 in slot 1. *)
Lemma X5_spsc_trial_flow_witness :
  0 <= 2 < 1000 /\ 1000 <= SIZE_MAX /\ 0 <= 3 <= SpscThreads.INT_MAX /\
  exists b0 b,
    SpscThreads.trial_start 1000 2 3 = Constructed b0 /\
    SpscThreads.trial_run 3
      (replicate 12 SpscThreads.run_main
       ++ replicate 7 SpscThreads.run_consumer) b0
    = Ret b /\
    produced 3 (SpscThreads.main_thread b) = 2 /\
    consumed 3 (SpscThreads.consumer_thread b) = 1 /\
    Spsc.buffer_ (SpscThreads.queue b) = [0; 1; 0] /\
    let p := produced 3 (SpscThreads.main_thread b) in
    let c := consumed 3 (SpscThreads.consumer_thread b) in
    0 <= c <= p /\ p <= 3 /\ p - c <= 2 /\
    Spsc.tail_ (SpscThreads.queue b) = p mod (2 + 1) /\
    Spsc.head_ (SpscThreads.queue b) = c mod (2 + 1) /\
    forall j, c <= j < p ->
      Spsc.buffer_ (SpscThreads.queue b) !! Z.to_nat (j mod (2 + 1)) = Some j.
Proof.
  assert (0 <= 2 < 1000) as H1 by lia.
  assert (1000 <= SIZE_MAX) as H2 by (unfold SIZE_MAX; lia).
  assert (0 <= 3 <= SpscThreads.INT_MAX) as H3
    by (unfold SpscThreads.INT_MAX; lia).
  split; [exact H1|]. split; [exact H2|]. split; [exact H3|].
  destruct (X5_spsc_trial_flow 1000 2 3
              (replicate 12 SpscThreads.run_main
               ++ replicate 7 SpscThreads.run_consumer)
              H1 H2 H3) as (b0 & b & Hstart & Hrun & Hflow).
  exists b0, b. split; [exact Hstart|]. split; [exact Hrun|].
  split; [|split; [|split; [|exact Hflow]]];
    vm_compute in Hstart; injection Hstart as <-;
    vm_compute in Hrun; injection Hrun as <-; reflexivity.
Defined.

(** X6: when the main thread has left its final loop
    [while (!q.is_empty()) {}], the consumer has taken all [elems] items and
    the queue is empty: the interval the benchmark measures covers the whole
    drain. *)
Theorem X6_spsc_trial_drained (max_size capacity elems : Z)
    (sched : list SpscThreads.thread) (b0 b : SpscThreads.trial) :
  0 <= capacity < SIZE_MAX ->
  0 <= elems <= SpscThreads.INT_MAX ->
  SpscThreads.trial_start max_size capacity elems = Constructed b0 ->
  SpscThreads.trial_run elems sched b0 = Ret b ->
  SpscThreads.main_thread b = SpscThreads.producer_done ->
  consumed elems (SpscThreads.consumer_thread b) = elems /\
  Spsc.is_empty (SpscThreads.queue b) = true.
Proof.
  intros Hc He Hstart Hrun Hdone.
  pose proof (trial_started_inv capacity elems Hc He max_size b0 Hstart)
    as Hinv0.
  destruct (trial_run_inv capacity elems Hc He sched b0 Hinv0)
    as (b' & Hrun' & Hinv).
  assert (b' = b) as -> by congruence.
  destruct Hinv as (hc & tc & H). cbn zeta in H.
  destruct H as (_ & Htl & Hhd & _ & _ & _ & _ & _ & _ & _ & _ & _ & Hd).
  specialize (Hd Hdone). split; [done|].
  unfold Spsc.is_empty. rewrite Hhd, Htl, Hd, Hdone. cbn [produced].
  apply Z.eqb_refl.
Qed.

(** The whole trial of two items through a queue of capacity 1, the
    threads taking turns: after forty steps the main thread has left its
    final loop, both items have gone through and the cursors meet. *)
Lemma X6_spsc_trial_drained_witness :
  0 <= 1 < SIZE_MAX /\ 0 <= 2 <= SpscThreads.INT_MAX /\
  SpscThreads.trial_start 1000 1 2
  = Constructed (SpscThreads.mkTrial (Spsc.mkSpscQueue [0; 0] 0 0 0 0)
                   (SpscThreads.producing 0 SpscThreads.enq_load_tail)
                   (SpscThreads.consuming 0 0 SpscThreads.deq_load_head)) /\
  SpscThreads.trial_run 2
    (concat (replicate 20 [SpscThreads.run_main; SpscThreads.run_consumer]))
    (SpscThreads.mkTrial (Spsc.mkSpscQueue [0; 0] 0 0 0 0)
       (SpscThreads.producing 0 SpscThreads.enq_load_tail)
       (SpscThreads.consuming 0 0 SpscThreads.deq_load_head))
  = Ret (SpscThreads.mkTrial (Spsc.mkSpscQueue [0; 1] 0 0 1 0)
           SpscThreads.producer_done SpscThreads.consumer_done) /\
  consumed 2 SpscThreads.consumer_done = 2 /\
  Spsc.is_empty (Spsc.mkSpscQueue [0; 1] 0 0 1 0) = true.
Proof.
  assert (0 <= 1 < SIZE_MAX) as H1 by (unfold SIZE_MAX; lia).
  assert (0 <= 2 <= SpscThreads.INT_MAX) as H2
    by (unfold SpscThreads.INT_MAX; lia).
  assert (SpscThreads.trial_start 1000 1 2
          = Constructed
              (SpscThreads.mkTrial (Spsc.mkSpscQueue [0; 0] 0 0 0 0)
                 (SpscThreads.producing 0 SpscThreads.enq_load_tail)
                 (SpscThreads.consuming 0 0 SpscThreads.deq_load_head)))
    as H3 by reflexivity.
  assert (SpscThreads.trial_run 2
            (concat (replicate 20
                       [SpscThreads.run_main; SpscThreads.run_consumer]))
            (SpscThreads.mkTrial (Spsc.mkSpscQueue [0; 0] 0 0 0 0)
               (SpscThreads.producing 0 SpscThreads.enq_load_tail)
               (SpscThreads.consuming 0 0 SpscThreads.deq_load_head))
          = Ret (SpscThreads.mkTrial (Spsc.mkSpscQueue [0; 1] 0 0 1 0)
                   SpscThreads.producer_done SpscThreads.consumer_done))
    as H4 by (vm_compute; reflexivity).
  split; [exact H1|]. split; [exact H2|]. split; [exact H3|].
  split; [exact H4|].
  exact (X6_spsc_trial_drained 1000 1 2 _ _ _ H1 H2 H3 H4 eq_refl).
Defined.



(** X7: with a capacity [1 <= C] below [max_size()], after any
    interleaving whatsoever the trial can still be brought to its end: some
    further scheduling of the two threads makes the consumer pass all
    [elems] checks and the main thread leave its final loop, with the queue
    empty.  The two retry loops cannot trap each other. *)
Theorem X7_spsc_trial_can_finish (max_size capacity elems : Z)
    (sched : list SpscThreads.thread) :
  1 <= capacity < max_size ->
  max_size <= SIZE_MAX ->
  0 <= elems <= SpscThreads.INT_MAX ->
  exists b0 b1 sched' b2,
    SpscThreads.trial_start max_size capacity elems = Constructed b0 /\
    SpscThreads.trial_run elems sched b0 = Ret b1 /\
    SpscThreads.trial_run elems sched' b1 = Ret b2 /\
    SpscThreads.main_thread b2 = SpscThreads.producer_done /\
    SpscThreads.consumer_thread b2 = SpscThreads.consumer_done /\
    Spsc.is_empty (SpscThreads.queue b2) = true.
Proof.
  intros Hc Hmax He.
  assert (0 <= capacity < SIZE_MAX) as Hc' by lia.
  destruct (trial_start_inv capacity elems Hc' He max_size)
    as (b0 & Hstart & Hinv0); [lia|done|].
  destruct (trial_run_inv capacity elems Hc' He sched b0 Hinv0)
    as (b1 & Hrun & Hinv1).
  pose proof (trial_inv_counts capacity elems b1 Hinv1) as (Hcp & Hpe & _).
  destruct (trial_can_finish capacity elems Hc' He
              (Z.to_nat (2 * elems
                         - main_index elems (SpscThreads.main_thread b1)
                         - consumer_index elems
                             (SpscThreads.consumer_thread b1)))
              b1 ltac:(lia) Hinv1) as (sched' & b2 & Hrun2 & Hinv2 & Hm & Hcn).
  { pose proof (trial_inv_consumer capacity elems b1 Hinv1) as Hcons.
    destruct (SpscThreads.main_thread b1) as [j pc| |] eqn:Hmt;
      destruct (SpscThreads.consumer_thread b1) as [i data pc'|i data|];
      cbn [main_index consumer_index]; try done;
      try pose proof (trial_inv_main capacity elems b1 j pc Hinv1 Hmt);
      lia. }
  exists b0, b1, sched', b2. repeat split; try done.
  destruct Hinv2 as (hc & tc & H). cbn zeta in H.
  destruct H as (_ & Htl & Hhd & _).
  unfold Spsc.is_empty. rewrite Hhd, Htl, Hm, Hcn. cbn [produced consumed].
  apply Z.eqb_refl.
Qed.

(** From the moment the main thread is inside its first call and the
    consumer has found the queue empty once. *)
Lemma X7_spsc_trial_can_finish_witness :
  1 <= 1 < 1000 /\ 1000 <= SIZE_MAX /\ 0 <= 2 <= SpscThreads.INT_MAX /\
  exists b0 b1 sched' b2,
    SpscThreads.trial_start 1000 1 2 = Constructed b0 /\
    SpscThreads.trial_run 2
      [SpscThreads.run_main; SpscThreads.run_consumer; SpscThreads.run_main]
      b0 = Ret b1 /\
    SpscThreads.trial_run 2 sched' b1 = Ret b2 /\
    SpscThreads.main_thread b2 = SpscThreads.producer_done /\
    SpscThreads.consumer_thread b2 = SpscThreads.consumer_done /\
    Spsc.is_empty (SpscThreads.queue b2) = true.
Proof.
  assert (1 <= 1 < 1000) as H1 by lia.
  assert (1000 <= SIZE_MAX) as H2 by (unfold SIZE_MAX; lia).
  assert (0 <= 2 <= SpscThreads.INT_MAX) as H3
    by (unfold SpscThreads.INT_MAX; lia).
  exact (conj H1 (conj H2 (conj H3
           (X7_spsc_trial_can_finish 1000 1 2 _ H1 H2 H3)))).
Defined.

(** ** MpscQueue under any interleaving: indices stay inside the vector *)

Section mpsc_system_safety.
Context {T : Type}.
Implicit Types (s : @Mpsc.system T).

Lemma mpsc_system_step_ok len s th :
  system_ok len s ->
  exists s', Mpsc.system_step s th = Ret s' /\ system_ok len s'.
Proof.
  intros (Hlen & Hsz & Hh & Ht & Hps & Hc).
  destruct s as [[buf h t c] ps [cpc citem]].
  cbn [Mpsc.shared Mpsc.producers Mpsc.consumer Mpsc.buffer_ Mpsc.head_
       Mpsc.tail_ fst snd] in *.
  unfold system_ok. destruct th as [i|]; cbn [Mpsc.system_step Mpsc.shared
    Mpsc.producers Mpsc.consumer Mpsc.buffer_ Mpsc.head_ Mpsc.tail_ fst snd].
  - destruct (ps !! i) as [[x pc]|] eqn:Hi; [|by eexists].
    pose proof (Forall_lookup_1 _ _ _ _ Hps Hi) as Hpc. cbn [snd] in Hpc.
    destruct pc as [|t0 nt|t0 nt|t0|r];
      cbn [Mpsc.enqueue_step Mpsc.buffer_ Mpsc.head_ Mpsc.tail_ Mpsc.count_
           enqueue_pc_ok] in *.
    + rewrite Hsz, rem_next by done. cbn [mbind outcome_bind mret outcome_ret].
      eexists. split; [done|]. cbn. repeat split; try done; try lia.
      apply Forall_insert; [done|]. cbn. ring_arith.
    + destruct (nt =? h); cbn [mbind outcome_bind mret outcome_ret];
        (eexists; split; [done|]); cbn; repeat split; try done; try lia;
        (apply Forall_insert; [done|cbn; (done || lia)]).
    + destruct (t =? t0); cbn [mbind outcome_bind mret outcome_ret];
        (eexists; split; [done|]); cbn; repeat split; try done; try lia;
        (apply Forall_insert; [done|cbn; (done || lia)]).
    + rewrite assign_Ret by lia. cbn [mbind outcome_bind mret outcome_ret].
      eexists. split; [done|]. cbn. rewrite size_insert.
      repeat split; try done; try lia. (apply Forall_insert; [done|cbn; (done || lia)]).
    + eexists. split; [done|]. cbn. repeat split; try done; try lia.
      (apply Forall_insert; [done|cbn; (done || lia)]).
  - destruct cpc as [|h0|h0|h0|r];
      cbn [Mpsc.dequeue_step Mpsc.buffer_ Mpsc.head_ Mpsc.tail_ Mpsc.count_
           dequeue_pc_ok mbind outcome_bind mret outcome_ret] in *.
    + eexists. split; [done|]. cbn. repeat split; try done; lia.
    + destruct (h0 =? t); cbn [mbind outcome_bind mret outcome_ret];
        (eexists; split; [done|]); cbn; repeat split; try done; lia.
    + destruct (at_Ret buf h0 ltac:(lia)) as (x & _ & ->).
      cbn [mbind outcome_bind mret outcome_ret].
      eexists. split; [done|]. cbn. repeat split; try done; lia.
    + rewrite Hsz, rem_next by done. cbn [mbind outcome_bind mret outcome_ret].
      eexists. split; [done|]. cbn. repeat split; try done; try lia;
        ring_arith.
    + eexists. split; [done|]. cbn. repeat split; try done; lia.
Qed.

Lemma mpsc_schedule_run_ok len sched s :
  system_ok len s ->
  exists s', Mpsc.schedule_run sched s = Ret s' /\ system_ok len s'.
Proof.
  revert s. induction sched as [|th sched IH]; intros s Hok.
  - by exists s.
  - destruct (mpsc_system_step_ok len s th Hok) as (s1 & Hstep & Hok1).
    destruct (IH s1 Hok1) as (s2 & Hrun & Hok2).
    exists s2. cbn [Mpsc.schedule_run]. rewrite Hstep. done.
Qed.
End mpsc_system_safety.

(** X8: take an [MpscQueue] whose vector has length [len] and whose
    cursors lie in [[0, len)], any number of producer threads each at any
    point of an [enqueue] call and the consumer at any point of a [dequeue]
    call, every index they hold lying in [[0, len)].  Then however their
    memory accesses are interleaved, no access is undefined (no remainder
    by zero, no slot outside the vector), the vector keeps its length and
    all those indices stay in [[0, len)]. *)
Theorem X8_mpsc_interleaving_safe {T : Type} (len : Z) (s : @Mpsc.system T)
    (sched : list Mpsc.thread) :
  system_ok len s ->
  exists s', Mpsc.schedule_run sched s = Ret s' /\ system_ok len s'.
Proof. apply mpsc_schedule_run_ok. Qed.

Lemma X8_mpsc_interleaving_safe_witness :
  system_ok 3 (Mpsc.mkSystem (Mpsc.mkMpscQueue [0; 0; 0] 0 0 0)
                 [(7, Mpsc.enq_load_tail); (8, Mpsc.enq_load_tail)]
                 (Mpsc.deq_load_head, 99)) /\
  exists s',
    Mpsc.schedule_run
      [Mpsc.producer 0; Mpsc.producer 1; Mpsc.producer 0; Mpsc.producer 1;
       Mpsc.producer 0; Mpsc.the_consumer; Mpsc.producer 1;
       Mpsc.the_consumer; Mpsc.the_consumer; Mpsc.the_consumer]
      (Mpsc.mkSystem (Mpsc.mkMpscQueue [0; 0; 0] 0 0 0)
         [(7, Mpsc.enq_load_tail); (8, Mpsc.enq_load_tail)]
         (Mpsc.deq_load_head, 99)) = Ret s' /\
    system_ok 3 s'.
Proof.
  assert (system_ok 3 (Mpsc.mkSystem (Mpsc.mkMpscQueue [0; 0; 0] 0 0 0)
                 [(7, Mpsc.enq_load_tail); (8, Mpsc.enq_load_tail)]
                 (Mpsc.deq_load_head, 99))) as H1.
  { unfold system_ok, SIZE_MAX. cbn.
    repeat split; try lia; try done. repeat constructor. }
  exact (conj H1 (X8_mpsc_interleaving_safe 3 _ _ H1)).
Defined.

(** The state after construction, every thread about to start a call. *)
Lemma mpsc_fresh_system_ok {T : Type} (max_size : Z) (T0 : T)
    (capacity : Z) (items : list T) (d : T) :
  0 <= capacity < max_size ->
  max_size <= SIZE_MAX ->
  exists q0,
    Mpsc.MpscQueue_ctor max_size T0 capacity = Constructed q0 /\
    system_ok (capacity + 1)
      (Mpsc.mkSystem q0 (map (fun x => (x, Mpsc.enq_load_tail)) items)
         (Mpsc.deq_load_head, d)).
Proof.
  intros Hc Hm. rewrite mpsc_ctor_constructs by lia.
  eexists. split; [done|].
  unfold system_ok. cbn. rewrite fresh_size by lia.
  repeat split; try lia. apply Forall_forall. intros p Hp.
  apply list_elem_of_fmap in Hp as (x & -> & _). done.
Qed.

(** ** Producers racing for slots *)

Section mpsc_racing.
Context {T : Type}.
Implicit Types (s : @Mpsc.system T) (items : list T) (claims : list nat).

Lemma racing_item capacity items claims s i x pc :
  racing_ok capacity items claims s ->
  Mpsc.producers s !! i = Some (x, pc) ->
  items !! i = Some x.
Proof.
  intros (_ & _ & _ & _ & Hitems & _) Hi.
  by rewrite <- Hitems, list_lookup_fmap, Hi.
Qed.

(** No more slots are claimed than there are producers, and fewer while
    some producer has not claimed. *)
Lemma racing_claims_bound capacity items claims s :
  racing_ok capacity items claims s ->
  (length claims <= length items)%nat /\
  forall i, (i < length items)%nat -> i ∉ claims ->
            (length claims < length items)%nat.
Proof.
  intros (_ & _ & _ & _ & _ & Hnd & Hcl & _).
  assert (forall i, i ∈ claims -> i ∈ seq 0 (length items)) as Hsub.
  { intros i Hi. apply list_elem_of_lookup in Hi as (k & Hk).
    destruct (Hcl k i Hk) as (x & Hx & _).
    apply elem_of_seq. apply lookup_lt_Some in Hx. lia. }
  split.
  - rewrite <- (length_seq (length items) 0).
    apply submseteq_length, NoDup_submseteq; done.
  - intros i Hi Hni.
    assert (length (i :: claims) <= length (seq 0 (length items)))%nat as Hle.
    { apply submseteq_length, NoDup_submseteq.
      - by constructor.
      - intros j [->|Hj]%elem_of_cons; [|by apply Hsub].
        apply elem_of_seq. lia. }
    rewrite length_seq in Hle. cbn [length] in Hle. lia.
Qed.

(** Moving a producer that has not claimed to another point before its
    compare-exchange changes nothing for the others. *)
Lemma racing_update_free capacity items claims q ps cons i x pc pc' :
  racing_ok capacity items claims (Mpsc.mkSystem q ps cons) ->
  ps !! i = Some (x, pc) ->
  i ∉ claims ->
  match pc' with
  | Mpsc.enq_load_tail => True
  | Mpsc.enq_check_full t next_t | Mpsc.enq_cas t next_t =>
      0 <= t <= Z.of_nat (length claims) /\ next_t = t + 1
  | Mpsc.enq_write _ | Mpsc.enq_return _ => False
  end ->
  racing_ok capacity items claims
    (Mpsc.mkSystem q (<[i := (x, pc')]> ps) cons).
Proof.
  intros Hok Hi Hni Hpc'.
  pose proof (racing_item _ _ _ _ _ _ _ Hok Hi) as Hx.
  destruct Hok as (Hsz & Hh & Ht & Hcap & Hitems & Hnd & Hcl & Hfree).
  unfold racing_ok. cbn [Mpsc.shared Mpsc.producers] in *.
  repeat split; try done; try lia.
  - rewrite list_fmap_insert, Hitems. by apply list_insert_id.
  - intros k j Hk. destruct (Hcl k j Hk) as (y & Hy & Hst).
    assert (j <> i) as Hne.
    { intros ->. apply Hni. apply list_elem_of_lookup. eauto. }
    exists y. split; [done|]. by rewrite list_lookup_insert_ne.
  - intros j y pcj Hj Hnj. destruct (decide (j = i)) as [->|Hne].
    + rewrite list_lookup_insert_eq in Hj by (by eapply lookup_lt_Some).
      by injection Hj as <- <-.
    + rewrite list_lookup_insert_ne in Hj by done. by apply (Hfree j y).
Qed.

(** One step of a producer keeps [racing_ok], with the claim list extended
    when the step is a won compare-exchange. *)
Lemma racing_step capacity items claims s i :
  racing_ok capacity items claims s ->
  exists s' claims',
    Mpsc.system_step s (Mpsc.producer i) = Ret s' /\
    racing_ok capacity items claims' s'.
Proof.
  intros Hok.
  pose proof (racing_claims_bound _ _ _ _ Hok) as (Hbound & Hstrict).
  destruct s as [[buf h t c] ps cons].
  cbn [Mpsc.system_step Mpsc.shared Mpsc.producers Mpsc.consumer].
  destruct (ps !! i) as [[x pc]|] eqn:Hi; [|by eexists _, claims].
  pose proof (racing_item _ _ _ _ _ _ _ Hok Hi) as Hx.
  pose proof (lookup_lt_Some _ _ _ Hi) as Hilt.
  pose proof (lookup_lt_Some _ _ _ Hx) as Hilt'.
  pose proof Hok as (Hsz & Hh & Ht & Hcap & Hitems & Hnd & Hcl & Hfree).
  cbn [Mpsc.shared Mpsc.producers Mpsc.buffer_ Mpsc.head_ Mpsc.tail_] in *.
  destruct (decide (i ∈ claims)) as [Hin|Hni].
  - (* the producer has claimed a slot *)
    apply list_elem_of_lookup in Hin as (k & Hk).
    pose proof (lookup_lt_Some _ _ _ Hk) as Hklt.
    destruct (Hcl k i Hk) as (y & Hy & [Hst|[Hst Hslot]]);
      rewrite Hi in Hst; injection Hst as <- ->;
      cbn [Mpsc.enqueue_step Mpsc.buffer_ Mpsc.head_ Mpsc.tail_ Mpsc.count_].
    + (* in front of its write *)
      rewrite assign_Ret by lia. rewrite Nat2Z.id.
      cbn [mbind outcome_bind mret outcome_ret].
      eexists _, claims. split; [done|].
      repeat split; cbn [Mpsc.shared Mpsc.producers Mpsc.buffer_ Mpsc.head_
                         Mpsc.tail_]; try done; try lia.
      * by rewrite size_insert.
      * rewrite list_fmap_insert, Hitems. by apply list_insert_id.
      * intros k' j Hk'. destruct (Hcl k' j Hk') as (z & Hz & Hst).
        exists z. split; [done|]. destruct (decide (j = i)) as [->|Hne].
        -- assert (k' = k) as -> by by eapply NoDup_lookup.
           assert (z = x) as -> by congruence.
           right. split.
           ++ by apply list_lookup_insert_eq.
           ++ apply list_lookup_insert_eq. unfold size in Hsz. lia.
        -- assert (k' <> k) as Hkne.
           { intros ->. apply Hne. congruence. }
           rewrite !list_lookup_insert_ne by done. done.
      * intros j z pcj Hj Hnj. destruct (decide (j = i)) as [->|Hne].
        -- exfalso. apply Hnj. apply list_elem_of_lookup. eauto.
        -- rewrite list_lookup_insert_ne in Hj by done. by apply (Hfree j z).
    + (* returned *)
      cbn [mbind outcome_bind mret outcome_ret].
      eexists _, claims. split; [done|]. by rewrite list_insert_id.
  - (* the producer has not claimed yet *)
    pose proof (Hstrict i Hilt' Hni) as Hroom.
    pose proof (Hfree i x pc Hi Hni) as Hpc.
    destruct pc as [|t0 nt|t0 nt|t0|r]; try done;
      cbn [Mpsc.enqueue_step Mpsc.buffer_ Mpsc.head_ Mpsc.tail_ Mpsc.count_].
    + (* load the tail *)
      rewrite Hsz, rem_next by lia.
      destruct (Z.eqb_spec (t + 1) (capacity + 1)); [lia|].
      cbn [mbind outcome_bind mret outcome_ret].
      eexists _, claims. split; [done|].
      apply (racing_update_free _ _ _ _ _ _ _ _ _ _ Hok Hi Hni). lia.
    + (* never full *)
      destruct Hpc as (Ht0 & ->). destruct (Z.eqb_spec (t0 + 1) h); [lia|].
      cbn [mbind outcome_bind mret outcome_ret].
      eexists _, claims. split; [done|].
      apply (racing_update_free _ _ _ _ _ _ _ _ _ _ Hok Hi Hni). lia.
    + (* the compare-exchange *)
      destruct Hpc as (Ht0 & ->). destruct (Z.eqb_spec t t0) as [<-|Hlost];
        cbn [mbind outcome_bind mret outcome_ret].
      * (* won: slot [t] is claimed *)
        eexists _, (claims ++ [i]). split; [done|].
        repeat split; cbn [Mpsc.shared Mpsc.producers Mpsc.buffer_
                           Mpsc.head_ Mpsc.tail_]; try done; try lia.
        -- rewrite length_app. cbn [length]. lia.
        -- rewrite list_fmap_insert, Hitems. by apply list_insert_id.
        -- apply NoDup_app. split; [done|]. split.
           ++ by intros j Hj ->%list_elem_of_singleton.
           ++ apply NoDup_singleton.
        -- intros k j Hk.
           apply lookup_snoc_Some in Hk as [[Hklt Hk]|[-> <-]].
           ++ destruct (Hcl k j Hk) as (z & Hz & Hst).
              assert (j <> i) as Hne.
              { intros ->. apply Hni. apply list_elem_of_lookup. eauto. }
              exists z. split; [done|]. by rewrite list_lookup_insert_ne.
           ++ exists x. split; [done|]. left.
              rewrite list_lookup_insert_eq by done. by rewrite Ht.
        -- intros j z pcj Hj Hnj.
           apply not_elem_of_app in Hnj as [Hnj Hji].
           assert (j <> i) as Hne by (intros ->; apply Hji; by left).
           rewrite list_lookup_insert_ne in Hj by done.
           pose proof (Hfree j z pcj Hj Hnj) as Hpcj.
           rewrite length_app. cbn [length].
           destruct pcj; try done; lia.
      * (* lost: start over *)
        eexists _, claims. split; [done|].
        by apply (racing_update_free _ _ _ _ _ _ _ _ _ _ Hok Hi Hni).
Qed.

Lemma racing_run capacity items claims s (ids : list nat) :
  racing_ok capacity items claims s ->
  exists s' claims',
    Mpsc.schedule_run (Mpsc.producer <$> ids) s = Ret s' /\
    racing_ok capacity items claims' s'.
Proof.
  revert s claims. induction ids as [|i ids IH]; intros s claims Hok.
  - by exists s, claims.
  - destruct (racing_step _ _ _ _ i Hok) as (s1 & claims1 & Hstep & Hok1).
    destruct (IH s1 claims1 Hok1) as (s2 & claims2 & Hrun & Hok2).
    exists s2, claims2. cbn [fmap list_fmap Mpsc.schedule_run].
    rewrite Hstep. done.
Qed.

Lemma racing_start (T0 d : T) capacity items :
  Z.of_nat (length items) <= capacity < SIZE_MAX ->
  racing_ok capacity items []
    (Mpsc.mkSystem
       (Mpsc.mkMpscQueue (replicate (Z.to_nat (size_t (capacity + 1))) T0)
                         0 0 0)
       ((fun x => (x, Mpsc.enq_load_tail)) <$> items) (Mpsc.deq_load_head, d)).
Proof.
  intros Hc. unfold racing_ok.
  cbn [Mpsc.shared Mpsc.producers Mpsc.buffer_ Mpsc.head_ Mpsc.tail_ length].
  rewrite fresh_size by lia. repeat split; try done; try lia.
  - rewrite <- list_fmap_compose. apply list_fmap_id.
  - constructor.
  - intros i x pc Hi _.
    rewrite list_lookup_fmap in Hi. destruct (items !! i); [|done].
    by injection Hi as _ <-.
Qed.

(** A producer is never refused, and two producers never hold the same
    slot. *)
Lemma racing_never_refused capacity items claims s i x r :
  racing_ok capacity items claims s ->
  Mpsc.producers s !! i = Some (x, Mpsc.enq_return r) -> r = true.
Proof.
  intros (_ & _ & _ & _ & _ & _ & Hcl & Hfree) Hi.
  destruct (decide (i ∈ claims)) as [Hin|Hni].
  - apply list_elem_of_lookup in Hin as (k & Hk).
    destruct (Hcl k i Hk) as (y & _ & [Hst|[Hst _]]); congruence.
  - by destruct (Hfree i x _ Hi Hni).
Qed.

Lemma racing_claims_exclusive capacity items claims s i j x y t :
  racing_ok capacity items claims s ->
  Mpsc.producers s !! i = Some (x, Mpsc.enq_write t) ->
  Mpsc.producers s !! j = Some (y, Mpsc.enq_write t) ->
  i = j.
Proof.
  intros (_ & _ & _ & _ & _ & _ & Hcl & Hfree) Hi Hj.
  destruct (decide (i ∈ claims)) as [Hin|Hni];
    [|by destruct (Hfree i x _ Hi Hni)].
  destruct (decide (j ∈ claims)) as [Hjn|Hnj];
    [|by destruct (Hfree j y _ Hj Hnj)].
  apply list_elem_of_lookup in Hin as (k & Hk).
  apply list_elem_of_lookup in Hjn as (k' & Hk').
  destruct (Hcl k i Hk) as (? & _ & [Hst|[Hst _]]); [|congruence].
  destruct (Hcl k' j Hk') as (? & _ & [Hst'|[Hst' _]]); [|congruence].
  assert (Z.of_nat k = Z.of_nat k') as Hkk by congruence.
  apply Nat2Z.inj in Hkk as ->. congruence.
Qed.

Lemma ring_walk_no_wrap (buf : list T) (n : nat) (i : Z) :
  0 <= i -> i + Z.of_nat n < size buf ->
  ring_walk buf n i = take n (drop (Z.to_nat i) buf).
Proof.
  revert i. induction n as [|n IH]; intros i Hi Hn; [done|].
  cbn [ring_walk].
  destruct (at_Ret buf i ltac:(lia)) as (x & Hx & _). rewrite Hx.
  destruct (Z.eqb_spec (i + 1) (size buf)); [lia|].
  rewrite IH by lia. rewrite (drop_S _ _ _ Hx). cbn [take].
  by replace (Z.to_nat (i + 1)) with (S (Z.to_nat i)) by lia.
Qed.

Lemma omap_lookup_seq (l1 l2 : list T) :
  omap (fun i => (l1 ++ l2) !! i) (seq (length l1) (length l2)) = l2.
Proof.
  revert l1. induction l2 as [|x l2 IH]; intros l1; [done|].
  cbn [length seq omap list_omap]. rewrite list_lookup_middle by done.
  f_equal. specialize (IH (l1 ++ [x])).
  rewrite <- app_assoc, length_app in IH. cbn [app length] in IH.
  by replace (length l1 + 1)%nat with (S (length l1)) in IH by lia.
Qed.

Lemma omap_lookup_Forall2 (items xs : list T) (claims : list nat) :
  Forall2 (fun x i => items !! i = Some x) xs claims ->
  omap (fun i => items !! i) claims = xs.
Proof.
  induction 1 as [|x i xs claims Hx _ IH]; [done|].
  cbn [omap list_omap]. by rewrite Hx, IH.
Qed.

(** Once every producer has returned, the queue holds their items, each
    once, in the order of the claims. *)
Lemma racing_finished capacity items claims s :
  racing_ok capacity items claims s ->
  Forall (fun p => p.2 = Mpsc.enq_return true) (Mpsc.producers s) ->
  Mpsc.well_formed (Mpsc.shared s) /\
  Mpsc.tail_ (Mpsc.shared s) = Z.of_nat (length items) /\
  Mpsc.contents (Mpsc.shared s) ≡ₚ items.
Proof.
  intros Hok Hall.
  pose proof (racing_claims_bound _ _ _ _ Hok) as (Hbound & Hstrict).
  pose proof Hok as (Hsz & Hh & Ht & Hcap & Hitems & Hnd & Hcl & Hfree).
  assert (forall i, (i < length items)%nat -> i ∈ claims) as Hall_in.
  { intros i Hi. destruct (decide (i ∈ claims)) as [|Hni]; [done|].
    rewrite <- Hitems, length_fmap in Hi.
    destruct (lookup_lt_is_Some_2 _ _ Hi) as [[x pc] Hp].
    pose proof (Forall_lookup_1 _ _ _ _ Hall Hp) as Hpc. cbn in Hpc.
    pose proof (Hfree i x pc Hp Hni) as Hf. by rewrite Hpc in Hf. }
  assert (claims ≡ₚ seq 0 (length items)) as Hperm.
  { apply NoDup_Permutation; [done|apply NoDup_seq|].
    intros i. rewrite elem_of_seq. split.
    - intros (k & Hk)%list_elem_of_lookup.
      destruct (Hcl k i Hk) as (x & Hx & _).
      apply lookup_lt_Some in Hx. lia.
    - intros [_ Hi]. apply Hall_in. lia. }
  assert (length claims = length items) as Hlen.
  { by rewrite Hperm, length_seq. }
  split; [|split].
  - unfold Mpsc.well_formed, ring_ok. rewrite Hsz, Hh, Ht. lia.
  - by rewrite Ht, Hlen.
  - unfold Mpsc.contents, ring_contents, ring_count.
    rewrite Hh, Ht, Hsz, Z.sub_0_r, Z.mod_small, Nat2Z.id by lia.
    rewrite ring_walk_no_wrap by lia. rewrite Z2Nat.inj_0, drop_0.
    assert (omap (fun i => items !! i) claims
            = take (length claims) (Mpsc.buffer_ (Mpsc.shared s))) as <-.
    { apply omap_lookup_Forall2.
      apply Forall2_same_length_lookup_2.
      - rewrite length_take. unfold size in Hsz. lia.
      - intros k x i Hx Hk. apply lookup_take_Some in Hx as [Hx _].
        destruct (Hcl k i Hk) as (y & Hy & [Hst|[_ Hslot]]).
        + pose proof (Forall_lookup_1 _ _ _ _ Hall Hst) as Hpc. done.
        + congruence. }
    rewrite Hperm. pose proof (omap_lookup_seq [] items) as Hseq.
    cbn [app length] in Hseq. by rewrite Hseq.
Qed.

(** *** Completing the calls

    A producer scheduled alone finishes its call: its compare-exchange
    fails at most once, on a tail loaded before another producer's
    claim. *)
Lemma mpsc_schedule_run_app (sched1 sched2 : list Mpsc.thread)
    (s s1 : Mpsc.system (T := T)) :
  Mpsc.schedule_run sched1 s = Ret s1 ->
  Mpsc.schedule_run (sched1 ++ sched2) s = Mpsc.schedule_run sched2 s1.
Proof.
  revert s. induction sched1 as [|th sched1 IH]; intros s Hrun.
  - cbn in Hrun. unfold mret, outcome_ret in Hrun. by injection Hrun as ->.
  - cbn [app Mpsc.schedule_run] in *.
    destruct (Mpsc.system_step s th) as [s'| |]; cbn in *; try done.
    by apply IH.
Qed.

Lemma producer_step_inv (s s' : Mpsc.system (T := T)) i x pc :
  Mpsc.producers s !! i = Some (x, pc) ->
  Mpsc.system_step s (Mpsc.producer i) = Ret s' ->
  exists q' pc',
    Mpsc.enqueue_step x (Mpsc.shared s) pc = Ret (q', pc') /\
    s' = Mpsc.mkSystem q' (<[i := (x, pc')]> (Mpsc.producers s))
           (Mpsc.consumer s).
Proof.
  intros Hi. cbn [Mpsc.system_step]. rewrite Hi.
  destruct (Mpsc.enqueue_step x (Mpsc.shared s) pc) as [[q' pc']| |];
    cbn; unfold mret, outcome_ret; try done.
  intros Hs. injection Hs as <-. by exists q', pc'.
Qed.

Lemma racing_step_pc capacity items claims s i x pc :
  racing_ok capacity items claims s ->
  Mpsc.producers s !! i = Some (x, pc) ->
  exists s' claims' pc',
    Mpsc.system_step s (Mpsc.producer i) = Ret s' /\
    racing_ok capacity items claims' s' /\
    Mpsc.producers s' !! i = Some (x, pc') /\
    (forall j, j <> i -> Mpsc.producers s' !! j = Mpsc.producers s !! j) /\
    match pc with
    | Mpsc.enq_load_tail =>
        (exists next_t,
            pc' = Mpsc.enq_check_full (Mpsc.tail_ (Mpsc.shared s)) next_t) /\
        Mpsc.tail_ (Mpsc.shared s') = Mpsc.tail_ (Mpsc.shared s)
    | Mpsc.enq_check_full t next_t =>
        pc' = Mpsc.enq_cas t next_t /\
        Mpsc.tail_ (Mpsc.shared s') = Mpsc.tail_ (Mpsc.shared s)
    | Mpsc.enq_cas t next_t =>
        if Mpsc.tail_ (Mpsc.shared s) =? t then pc' = Mpsc.enq_write t
        else pc' = Mpsc.enq_load_tail /\
             Mpsc.tail_ (Mpsc.shared s') = Mpsc.tail_ (Mpsc.shared s)
    | Mpsc.enq_write t => pc' = Mpsc.enq_return true
    | Mpsc.enq_return r => pc' = Mpsc.enq_return r
    end.
Proof.
  intros Hok Hi.
  destruct (racing_step _ _ _ _ i Hok) as (s' & claims' & Hstep & Hok').
  destruct (producer_step_inv _ _ _ _ _ Hi Hstep) as (q' & pc' & Hpc & ->).
  pose proof (lookup_lt_Some _ _ _ Hi) as Hilt.
  eexists _, claims', pc'. split; [done|]. split; [done|].
  cbn [Mpsc.producers Mpsc.shared]. split; [by apply list_lookup_insert_eq|].
  split; [intros j Hj; by apply list_lookup_insert_ne|].
  assert (Mpsc.producers
            (Mpsc.mkSystem q' (<[i := (x, pc')]> (Mpsc.producers s))
               (Mpsc.consumer s)) !! i = Some (x, pc')) as Hi'.
  { cbn. by apply list_lookup_insert_eq. }
  destruct pc as [|t next_t|t next_t|t|r];
    cbn [Mpsc.enqueue_step] in Hpc.
  - unfold rem in Hpc.
    destruct (size (Mpsc.buffer_ (Mpsc.shared s)) =? 0); [done|].
    cbn in Hpc. unfold mret, outcome_ret in Hpc.
    injection Hpc as <- <-. split; [by eexists|done].
  - destruct (next_t =? Mpsc.head_ (Mpsc.shared s));
      unfold mret, outcome_ret in Hpc; injection Hpc as <- <-.
    + by pose proof (racing_never_refused _ _ _ _ _ _ _ Hok' Hi').
    + done.
  - destruct (Mpsc.tail_ (Mpsc.shared s) =? t);
      unfold mret, outcome_ret in Hpc; by injection Hpc as <- <-.
  - destruct (assign (Mpsc.buffer_ (Mpsc.shared s)) t x) as [buf| |];
      cbn in Hpc; unfold mret, outcome_ret in Hpc; try done.
    by injection Hpc as <- <-.
  - unfold mret, outcome_ret in Hpc. by injection Hpc as <- <-.
Qed.

Lemma racing_solo_cons capacity items i x (s s1 : Mpsc.system (T := T)) :
  Mpsc.system_step s (Mpsc.producer i) = Ret s1 ->
  (forall j, j <> i -> Mpsc.producers s1 !! j = Mpsc.producers s !! j) ->
  (exists n s' claims',
      Mpsc.schedule_run (replicate n (Mpsc.producer i)) s1 = Ret s' /\
      racing_ok capacity items claims' s' /\
      Mpsc.producers s' !! i = Some (x, Mpsc.enq_return true) /\
      forall j, j <> i -> Mpsc.producers s' !! j = Mpsc.producers s1 !! j) ->
  exists n s' claims',
    Mpsc.schedule_run (replicate n (Mpsc.producer i)) s = Ret s' /\
    racing_ok capacity items claims' s' /\
    Mpsc.producers s' !! i = Some (x, Mpsc.enq_return true) /\
    forall j, j <> i -> Mpsc.producers s' !! j = Mpsc.producers s !! j.
Proof.
  intros Hstep Hsame (n & s' & claims' & Hrun & Hok & Hi & Hothers).
  exists (S n), s', claims'. cbn [replicate Mpsc.schedule_run].
  rewrite Hstep. cbn [mbind outcome_bind].
  split; [done|]. split; [done|]. split; [done|].
  intros j Hj. by rewrite Hothers, Hsame.
Qed.

Lemma racing_solo capacity items claims s i x pc :
  racing_ok capacity items claims s ->
  Mpsc.producers s !! i = Some (x, pc) ->
  exists n s' claims',
    Mpsc.schedule_run (replicate n (Mpsc.producer i)) s = Ret s' /\
    racing_ok capacity items claims' s' /\
    Mpsc.producers s' !! i = Some (x, Mpsc.enq_return true) /\
    forall j, j <> i -> Mpsc.producers s' !! j = Mpsc.producers s !! j.
Proof.
  assert (forall claims s t, racing_ok capacity items claims s ->
            Mpsc.producers s !! i = Some (x, Mpsc.enq_write t) ->
            exists n s' claims',
              Mpsc.schedule_run (replicate n (Mpsc.producer i)) s = Ret s' /\
              racing_ok capacity items claims' s' /\
              Mpsc.producers s' !! i = Some (x, Mpsc.enq_return true) /\
              forall j, j <> i ->
                        Mpsc.producers s' !! j = Mpsc.producers s !! j)
    as Hwrite.
  { clear. intros claims s t Hok Hi.
    destruct (racing_step_pc _ _ _ _ _ _ _ Hok Hi)
      as (s1 & claims1 & pc1 & Hstep & Hok1 & Hi1 & Hsame & ->).
    apply racing_solo_cons with (s1 := s1); try done.
    by exists 0%nat, s1, claims1. }
  assert (forall claims s t next_t, racing_ok capacity items claims s ->
            Mpsc.producers s !! i = Some (x, Mpsc.enq_cas t next_t) ->
            Mpsc.tail_ (Mpsc.shared s) = t ->
            exists n s' claims',
              Mpsc.schedule_run (replicate n (Mpsc.producer i)) s = Ret s' /\
              racing_ok capacity items claims' s' /\
              Mpsc.producers s' !! i = Some (x, Mpsc.enq_return true) /\
              forall j, j <> i ->
                        Mpsc.producers s' !! j = Mpsc.producers s !! j)
    as Hcas.
  { clear -Hwrite. intros claims s t next_t Hok Hi Ht.
    destruct (racing_step_pc _ _ _ _ _ _ _ Hok Hi)
      as (s1 & claims1 & pc1 & Hstep & Hok1 & Hi1 & Hsame & Hpc).
    rewrite Ht, Z.eqb_refl in Hpc. subst pc1.
    apply racing_solo_cons with (s1 := s1); try done.
    by apply Hwrite with claims1 t. }
  assert (forall claims s t next_t, racing_ok capacity items claims s ->
            Mpsc.producers s !! i = Some (x, Mpsc.enq_check_full t next_t) ->
            Mpsc.tail_ (Mpsc.shared s) = t ->
            exists n s' claims',
              Mpsc.schedule_run (replicate n (Mpsc.producer i)) s = Ret s' /\
              racing_ok capacity items claims' s' /\
              Mpsc.producers s' !! i = Some (x, Mpsc.enq_return true) /\
              forall j, j <> i ->
                        Mpsc.producers s' !! j = Mpsc.producers s !! j)
    as Hcheck.
  { clear -Hcas. intros claims s t next_t Hok Hi Ht.
    destruct (racing_step_pc _ _ _ _ _ _ _ Hok Hi)
      as (s1 & claims1 & pc1 & Hstep & Hok1 & Hi1 & Hsame & -> & Htl).
    apply racing_solo_cons with (s1 := s1); try done.
    apply Hcas with claims1 t next_t; try done. congruence. }
  assert (forall claims s, racing_ok capacity items claims s ->
            Mpsc.producers s !! i = Some (x, Mpsc.enq_load_tail) ->
            exists n s' claims',
              Mpsc.schedule_run (replicate n (Mpsc.producer i)) s = Ret s' /\
              racing_ok capacity items claims' s' /\
              Mpsc.producers s' !! i = Some (x, Mpsc.enq_return true) /\
              forall j, j <> i ->
                        Mpsc.producers s' !! j = Mpsc.producers s !! j)
    as Hload.
  { clear -Hcheck. intros claims s Hok Hi.
    destruct (racing_step_pc _ _ _ _ _ _ _ Hok Hi)
      as (s1 & claims1 & pc1 & Hstep & Hok1 & Hi1 & Hsame
          & (next_t & ->) & Htl).
    apply racing_solo_cons with (s1 := s1); try done.
    by apply Hcheck with claims1 (Mpsc.tail_ (Mpsc.shared s)) next_t. }
  assert (forall claims s t next_t, racing_ok capacity items claims s ->
            Mpsc.producers s !! i = Some (x, Mpsc.enq_cas t next_t) ->
            exists n s' claims',
              Mpsc.schedule_run (replicate n (Mpsc.producer i)) s = Ret s' /\
              racing_ok capacity items claims' s' /\
              Mpsc.producers s' !! i = Some (x, Mpsc.enq_return true) /\
              forall j, j <> i ->
                        Mpsc.producers s' !! j = Mpsc.producers s !! j)
    as Hcas'.
  { clear -Hcas Hload. intros claims s t next_t Hok Hi.
    destruct (Z.eqb_spec (Mpsc.tail_ (Mpsc.shared s)) t) as [Ht|Ht];
      [by apply Hcas with claims t next_t|].
    destruct (racing_step_pc _ _ _ _ _ _ _ Hok Hi)
      as (s1 & claims1 & pc1 & Hstep & Hok1 & Hi1 & Hsame & Hpc).
    destruct (Z.eqb_spec (Mpsc.tail_ (Mpsc.shared s)) t); [done|].
    destruct Hpc as [-> _].
    apply racing_solo_cons with (s1 := s1); try done.
    by apply Hload with claims1. }
  intros Hok Hi. destruct pc as [|t next_t|t next_t|t|r].
  - by apply Hload with claims.
  - destruct (racing_step_pc _ _ _ _ _ _ _ Hok Hi)
      as (s1 & claims1 & pc1 & Hstep & Hok1 & Hi1 & Hsame & -> & Htl).
    apply racing_solo_cons with (s1 := s1); try done.
    by apply Hcas' with claims1 t next_t.
  - by apply Hcas' with claims t next_t.
  - by apply Hwrite with claims t.
  - pose proof (racing_never_refused _ _ _ _ _ _ _ Hok Hi) as ->.
    by exists 0%nat, s, claims.
Qed.

Lemma racing_can_finish capacity items claims s :
  racing_ok capacity items claims s ->
  exists ids s' claims',
    Mpsc.schedule_run (Mpsc.producer <$> ids) s = Ret s' /\
    racing_ok capacity items claims' s' /\
    Forall (fun p => p.2 = Mpsc.enq_return true) (Mpsc.producers s').
Proof.
  intros Hok.
  assert (forall k, (k <= length items)%nat ->
            exists ids s' claims',
              Mpsc.schedule_run (Mpsc.producer <$> ids) s = Ret s' /\
              racing_ok capacity items claims' s' /\
              forall j p, (j < k)%nat -> Mpsc.producers s' !! j = Some p ->
                          p.2 = Mpsc.enq_return true) as Hk.
  { induction k as [|k IH]; intros Hle.
    - exists [], s, claims. split; [done|]. split; [done|]. lia.
    - destruct IH as (ids & s1 & claims1 & Hrun & Hok1 & Hdone); [lia|].
      pose proof Hok1 as (_ & _ & _ & _ & Hitems & _).
      assert (k < length (Mpsc.producers s1))%nat as Hlt.
      { rewrite <- (length_fmap fst), Hitems. lia. }
      destruct (lookup_lt_is_Some_2 _ _ Hlt) as [[x pc] Hp].
      destruct (racing_solo _ _ _ _ _ _ _ Hok1 Hp)
        as (n & s2 & claims2 & Hsolo & Hok2 & Hi & Hothers).
      exists (ids ++ replicate n k), s2, claims2.
      rewrite fmap_app, fmap_replicate.
      rewrite (mpsc_schedule_run_app _ _ _ _ Hrun).
      split; [done|]. split; [done|].
      intros j p Hj Hjp. destruct (decide (j = k)) as [->|Hne].
      + rewrite Hi in Hjp. by injection Hjp as <-.
      + rewrite Hothers in Hjp by done. apply (Hdone j); [lia|done]. }
  destruct (Hk (length items) (le_n _))
    as (ids & s' & claims' & Hrun & Hok' & Hdone).
  exists ids, s', claims'. split; [done|]. split; [done|].
  apply Forall_lookup. intros j p Hjp. apply (Hdone j); [|done].
  pose proof Hok' as (_ & _ & _ & _ & Hitems & _).
  apply lookup_lt_Some in Hjp.
  by rewrite <- (length_fmap fst), Hitems in Hjp.
Qed.
End mpsc_racing.

(** X9 (MpscQueue constructor and enqueue, src/mpsc_queue_experimental.cpp
    lines 21-29 and 32-50): producers racing on a fresh queue.  On a
    queue constructed with a capacity below [max_size()], let at most
    [capacity] producers each make one [enqueue] call while no [dequeue]
    runs, their shared accesses interleaved by an arbitrary schedule
    [ids].  Then every step is defined; no call returns [false]; two
    producers are never both in front of the write to the same slot; and
    once every call has returned [true] the head is untouched, the tail
    equals the number of producers and the queue holds exactly the
    producers' items, each one once.  From every state so reached some
    further schedule of the producers lets all the calls return. *)
Theorem X9_mpsc_producers_race {T : Type} (max_size : Z) (T0 d : T)
    (capacity : Z) (items : list T) (ids : list nat) :
  Z.of_nat (length items) <= capacity < max_size ->
  max_size <= SIZE_MAX ->
  exists q0 s,
    Mpsc.MpscQueue_ctor max_size T0 capacity = Constructed q0 /\
    Mpsc.schedule_run (Mpsc.producer <$> ids)
      (Mpsc.mkSystem q0 ((fun x => (x, Mpsc.enq_load_tail)) <$> items)
         (Mpsc.deq_load_head, d)) = Ret s /\
    (Mpsc.producers s).*1 = items /\
    (forall i x r,
        Mpsc.producers s !! i = Some (x, Mpsc.enq_return r) -> r = true) /\
    (forall i j x y t,
        Mpsc.producers s !! i = Some (x, Mpsc.enq_write t) ->
        Mpsc.producers s !! j = Some (y, Mpsc.enq_write t) -> i = j) /\
    (Forall (fun p => p.2 = Mpsc.enq_return true) (Mpsc.producers s) ->
     Mpsc.well_formed (Mpsc.shared s) /\
     Mpsc.head_ (Mpsc.shared s) = 0 /\
     Mpsc.tail_ (Mpsc.shared s) = Z.of_nat (length items) /\
     Mpsc.contents (Mpsc.shared s) ≡ₚ items) /\
    (exists ids' s',
        Mpsc.schedule_run (Mpsc.producer <$> ids') s = Ret s' /\
        Forall (fun p => p.2 = Mpsc.enq_return true) (Mpsc.producers s')).
Proof.
  intros Hc Hm. rewrite mpsc_ctor_constructs by lia.
  pose proof (racing_start T0 d capacity items ltac:(lia)) as Hstart.
  destruct (racing_run _ _ _ _ ids Hstart) as (s & claims & Hrun & Hok).
  eexists _, s. split; [done|]. split; [exact Hrun|].
  split; [apply Hok|]. split; [|split; [|split]].
  - intros i x r. by apply racing_never_refused with (1 := Hok).
  - intros i j x y t. by apply racing_claims_exclusive with (1 := Hok).
  - intros Hall.
    destruct (racing_finished _ _ _ _ Hok Hall) as (Hwf & Ht & Hperm).
    split; [done|]. split; [apply Hok|]. done.
  - destruct (racing_can_finish _ _ _ _ Hok) as (ids' & s' & ? & ? & ? & ?).
    by exists ids', s'.
Qed.

(** Two producers on a queue of capacity 2.  Both load the tail 0;
    producer 1 wins the compare-exchange for slot 0, producer 0 fails, loads
    the tail again and wins slot 1; then both write.  The items lie in the
    order of the claims, 8 before 7. *)
Lemma X9_mpsc_producers_race_witness :
  Z.of_nat (length [7; 8]) <= 2 < 1000 /\ 1000 <= SIZE_MAX /\
  exists q0 s,
    Mpsc.MpscQueue_ctor 1000 0 2 = Constructed q0 /\
    Mpsc.schedule_run
      (Mpsc.producer <$> [0; 1; 1; 1; 0; 0; 0; 0; 0; 0; 1]%nat)
      (Mpsc.mkSystem q0 ((fun x => (x, Mpsc.enq_load_tail)) <$> [7; 8])
         (Mpsc.deq_load_head, 99)) = Ret s /\
    Mpsc.producers s = [(7, Mpsc.enq_return true); (8, Mpsc.enq_return true)] /\
    Mpsc.buffer_ (Mpsc.shared s) = [8; 7; 0] /\
    (Mpsc.producers s).*1 = [7; 8] /\
    (forall i x r,
        Mpsc.producers s !! i = Some (x, Mpsc.enq_return r) -> r = true) /\
    (forall i j x y t,
        Mpsc.producers s !! i = Some (x, Mpsc.enq_write t) ->
        Mpsc.producers s !! j = Some (y, Mpsc.enq_write t) -> i = j) /\
    (Forall (fun p => p.2 = Mpsc.enq_return true) (Mpsc.producers s) ->
     Mpsc.well_formed (Mpsc.shared s) /\
     Mpsc.head_ (Mpsc.shared s) = 0 /\
     Mpsc.tail_ (Mpsc.shared s) = Z.of_nat (length [7; 8]) /\
     Mpsc.contents (Mpsc.shared s) ≡ₚ [7; 8]) /\
    (exists ids' s',
        Mpsc.schedule_run (Mpsc.producer <$> ids') s = Ret s' /\
        Forall (fun p => p.2 = Mpsc.enq_return true) (Mpsc.producers s')).
Proof.
  assert (Z.of_nat (length [7; 8]) <= 2 < 1000) as H1 by (cbn; lia).
  assert (1000 <= SIZE_MAX) as H2 by (unfold SIZE_MAX; lia).
  split; [exact H1|]. split; [exact H2|].
  destruct (X9_mpsc_producers_race 1000 0 99 2 [7; 8]
              [0; 1; 1; 1; 0; 0; 0; 0; 0; 0; 1]%nat H1 H2)
    as (q0 & s & Hctor & Hrun & Hrest).
  exists q0, s. split; [exact Hctor|]. split; [exact Hrun|].
  split; [|split; [|exact Hrest]];
    vm_compute in Hctor; injection Hctor as <-;
    vm_compute in Hrun; injection Hrun as <-; reflexivity.
Defined.
